(** * Dynamics fitting: residual forces, flattened decision variables,
      finite-difference constraints and foot-ground contact detection

    A shallow embedding of [dart/biomechanics/DynamicsFitter.cpp].  The C++
    code works on one shared, mutable skeleton; here every function that
    touches it takes the skeleton in and hands it back.  Scalars ([s_t] in
    the source) are kept behind an interface so that the same definitions
    run on binary64 floats and can be read over the real numbers. *)

From Stdlib Require Import List ZArith Bool Lia.
From Stdlib Require String.
From Stdlib Require Import Floats.PrimFloat Numbers.Cyclic.Int63.Uint63.
From Stdlib Require Floats.SpecFloat Floats.FloatOps Floats.FloatAxioms.
From Stdlib Require Import Reals Lra.
Import ListNotations.

Set Implicit Arguments.

(** ** Scalars *)

(** The operations the source applies to [s_t] values. *)
Class Scalar (s_t : Type) : Type := {
  s_zero : s_t;
  s_one : s_t;
  s_add : s_t -> s_t -> s_t;
  s_sub : s_t -> s_t -> s_t;
  s_mul : s_t -> s_t -> s_t;
  s_div : s_t -> s_t -> s_t;
  s_opp : s_t -> s_t;
  s_sqrt : s_t -> s_t;
  s_eqb : s_t -> s_t -> bool;
  s_ltb : s_t -> s_t -> bool;
  s_of_Z : Z -> s_t
}.

Declare Scope scalar_scope.
Delimit Scope scalar_scope with s.
Infix "+" := s_add : scalar_scope.
Infix "-" := s_sub : scalar_scope.
Infix "*" := s_mul : scalar_scope.
Infix "/" := s_div : scalar_scope.
Infix "<?" := s_ltb : scalar_scope.
Infix "=?" := s_eqb : scalar_scope.

(** [a > b] in the source is [b < a]. *)
Definition s_gtb {s_t} `{Scalar s_t} (a b : s_t) : bool := s_ltb b a.

(** [abs(a)] *)
Definition s_abs {s_t} `{Scalar s_t} (a : s_t) : s_t :=
  if s_ltb a s_zero then s_opp a else a.

(** An [int] converted to [s_t]. *)
Definition s_of_nat {s_t} `{Scalar s_t} (n : nat) : s_t := s_of_Z (Z.of_nat n).

(** A decimal literal [n / 10^k], e.g. [1e-3] is [s_lit 1 3]. *)
Definition s_lit {s_t} `{Scalar s_t} (n : Z) (k : nat) : s_t :=
  s_div (s_of_Z n) (s_of_Z (10 ^ Z.of_nat k)).

(** ** Vectors and matrices

    [Eigen::VectorXs] is a list of scalars; [Eigen::MatrixXs] is the list of
    its columns (Eigen stores matrices column-major, and the source reads and
    writes them a column at a time). *)

Section Vectors.
Context {s_t : Type} `{Scalar s_t}.

Definition Vec := list s_t.
Definition Matrix := list Vec.

Definition zeros (n : nat) : Vec := repeat s_zero n.

(** [x.segment(start, len)] *)
Definition segment (x : Vec) (start len : nat) : Vec :=
  firstn len (skipn start x).

(** [x.head<n>()] and [x.tail<n>()] *)
Definition head (n : nat) (x : Vec) : Vec := firstn n x.
Definition tail (n : nat) (x : Vec) : Vec := skipn (length x - n) x.

(** [m.cols()], [m.col(t)] and [m(i, t)] *)
Definition cols (m : Matrix) : nat := length m.
Definition col (m : Matrix) (t : nat) : Vec := nth t m [].
Definition coeff (m : Matrix) (i t : nat) : s_t := nth i (col m t) s_zero.

(** [v(i)] *)
Definition at_ (v : Vec) (i : nat) : s_t := nth i v s_zero.

Definition vadd (a b : Vec) : Vec := map (fun p => (fst p + snd p)%s) (combine a b).
Definition vsub (a b : Vec) : Vec := map (fun p => (fst p - snd p)%s) (combine a b).
Definition vscale (k : s_t) (a : Vec) : Vec := map (fun x => (k * x)%s) a.
Definition vscale_r (a : Vec) (k : s_t) : Vec := map (fun x => (x * k)%s) a.
Definition vdiv (a : Vec) (k : s_t) : Vec := map (fun x => (x / k)%s) a.

Definition dot (a b : Vec) : s_t :=
  fold_left (fun acc p => (acc + fst p * snd p)%s) (combine a b) s_zero.
Definition squaredNorm (a : Vec) : s_t := dot a a.
Definition norm (a : Vec) : s_t := s_sqrt (squaredNorm a).

(** Eigen's [normalized()]: divide by the norm when the squared norm is
    positive, otherwise leave the vector alone. *)
Definition normalized (a : Vec) : Vec :=
  let z := squaredNorm a in
  if (s_zero <? z)%s then vdiv a (s_sqrt z) else a.

(** [x == y] on vectors of equal size: every coefficient compares equal. *)
Fixpoint cwiseEqual_all (x y : Vec) : bool :=
  match x, y with
  | [], [] => true
  | a :: x', b :: y' => (a =? b)%s && cwiseEqual_all x' y'
  | _, _ => false
  end.

(** Matrix sum and difference, column by column. *)
Definition madd (a b : Matrix) : Matrix := map (fun p => vadd (fst p) (snd p)) (combine a b).
Definition msub (a b : Matrix) : Matrix := map (fun p => vsub (fst p) (snd p)) (combine a b).

(** [M * v] for a matrix with [rows] rows: the sum of the columns weighted
    by the entries of [v]. *)
Definition mat_vec (rows : nat) (m : Matrix) (v : Vec) : Vec :=
  fold_left (fun acc p => vadd acc (vscale (snd p) (fst p))) (combine m v) (zeros rows).

(** [M.transpose() * v]: one dot product per column. *)
Definition mat_transpose_vec (m : Matrix) (v : Vec) : Vec := map (fun c => dot c v) m.

(** [M.block(0, 0, n, M.cols())]: the first [n] rows. *)
Definition top_rows (n : nat) (m : Matrix) : Matrix := map (firstn n) m.

(** Replace entry [i] when it exists. *)
Fixpoint set_nth {A} (i : nat) (a : A) (l : list A) : list A :=
  match l, i with
  | [], _ => []
  | _ :: l', O => a :: l'
  | b :: l', S i' => b :: set_nth i' a l'
  end.

(** [m.col(t) = v] *)
Definition set_col (m : Matrix) (t : nat) (v : Vec) : Matrix := set_nth t v m.

(** [flat.segment(cursor, dim) = v]: the block is written entry by entry
    into a buffer whose size is fixed. *)
Definition write_segment (flat : Vec) (cursor dim : nat) (v : Vec) : Vec :=
  fold_left (fun f i => set_nth (cursor + i) (at_ v i) f) (seq 0 dim) flat.

(** [flat.segment(cursor, dim) += v] *)
Definition add_segment (flat : Vec) (cursor dim : nat) (v : Vec) : Vec :=
  fold_left (fun f i => set_nth (cursor + i) (at_ f (cursor + i) + at_ v i)%s f) (seq 0 dim) flat.
End Vectors.

Arguments Vec s_t : clear implicits.
Arguments Matrix s_t : clear implicits.

(** ** The skeleton

    Modelled from the spec: the skeletal model ([dynamics::Skeleton], not
    among the sources) is a collaborator that exposes get/set of positions,
    velocities and accelerations and per-group mass, COM, inertia and scale
    getters and setters.  It is a record here; a setter stores the vector the
    getter later returns. *)

Record Skeleton (s_t : Type) : Type := mkSkeleton {
  getNumDofs : nat;
  getNumScaleGroups : nat;
  getGroupScaleDim : nat;
  getPositions : Vec s_t;
  getVelocities : Vec s_t;
  getAccelerations : Vec s_t;
  getGroupMasses : Vec s_t;
  getGroupCOMs : Vec s_t;
  getGroupInertias : Vec s_t;
  getGroupScales : Vec s_t
}.

Section SkeletonSetters.
Context {s_t : Type}.
Let Skeleton := Skeleton s_t.

Definition setPositions (v : Vec s_t) (sk : Skeleton) : Skeleton :=
  mkSkeleton (getNumDofs sk) (getNumScaleGroups sk) (getGroupScaleDim sk)
    v (getVelocities sk) (getAccelerations sk)
    (getGroupMasses sk) (getGroupCOMs sk) (getGroupInertias sk) (getGroupScales sk).
Definition setVelocities (v : Vec s_t) (sk : Skeleton) : Skeleton :=
  mkSkeleton (getNumDofs sk) (getNumScaleGroups sk) (getGroupScaleDim sk)
    (getPositions sk) v (getAccelerations sk)
    (getGroupMasses sk) (getGroupCOMs sk) (getGroupInertias sk) (getGroupScales sk).
Definition setAccelerations (v : Vec s_t) (sk : Skeleton) : Skeleton :=
  mkSkeleton (getNumDofs sk) (getNumScaleGroups sk) (getGroupScaleDim sk)
    (getPositions sk) (getVelocities sk) v
    (getGroupMasses sk) (getGroupCOMs sk) (getGroupInertias sk) (getGroupScales sk).
Definition setGroupMasses (v : Vec s_t) (sk : Skeleton) : Skeleton :=
  mkSkeleton (getNumDofs sk) (getNumScaleGroups sk) (getGroupScaleDim sk)
    (getPositions sk) (getVelocities sk) (getAccelerations sk)
    v (getGroupCOMs sk) (getGroupInertias sk) (getGroupScales sk).
Definition setGroupCOMs (v : Vec s_t) (sk : Skeleton) : Skeleton :=
  mkSkeleton (getNumDofs sk) (getNumScaleGroups sk) (getGroupScaleDim sk)
    (getPositions sk) (getVelocities sk) (getAccelerations sk)
    (getGroupMasses sk) v (getGroupInertias sk) (getGroupScales sk).
Definition setGroupInertias (v : Vec s_t) (sk : Skeleton) : Skeleton :=
  mkSkeleton (getNumDofs sk) (getNumScaleGroups sk) (getGroupScaleDim sk)
    (getPositions sk) (getVelocities sk) (getAccelerations sk)
    (getGroupMasses sk) (getGroupCOMs sk) v (getGroupScales sk).
Definition setGroupScales (v : Vec s_t) (sk : Skeleton) : Skeleton :=
  mkSkeleton (getNumDofs sk) (getNumScaleGroups sk) (getGroupScaleDim sk)
    (getPositions sk) (getVelocities sk) (getAccelerations sk)
    (getGroupMasses sk) (getGroupCOMs sk) (getGroupInertias sk) v.
End SkeletonSetters.

(** [neural::WithRespectTo]: the parameter kinds the source dispatches on,
    and [OTHER] for any further kind, given by its own get and set. *)
Inductive WithRespectTo (s_t : Type) : Type :=
| POSITION
| VELOCITY
| ACCELERATION
| GROUP_SCALES
| GROUP_MASSES
| GROUP_COMS
| GROUP_INERTIAS
| OTHER (get : Skeleton s_t -> Vec s_t) (set : Skeleton s_t -> Vec s_t -> Skeleton s_t).

Arguments POSITION {s_t}.
Arguments VELOCITY {s_t}.
Arguments ACCELERATION {s_t}.
Arguments GROUP_SCALES {s_t}.
Arguments GROUP_MASSES {s_t}.
Arguments GROUP_COMS {s_t}.
Arguments GROUP_INERTIAS {s_t}.

Section WithRespectToOps.
Context {s_t : Type}.

(** [wrt->get(skel)] *)
Definition wrt_get (wrt : WithRespectTo s_t) (sk : Skeleton s_t) : Vec s_t :=
  match wrt with
  | POSITION => getPositions sk
  | VELOCITY => getVelocities sk
  | ACCELERATION => getAccelerations sk
  | GROUP_SCALES => getGroupScales sk
  | GROUP_MASSES => getGroupMasses sk
  | GROUP_COMS => getGroupCOMs sk
  | GROUP_INERTIAS => getGroupInertias sk
  | OTHER get _ => get sk
  end.

(** [wrt->set(skel, v)] *)
Definition wrt_set (wrt : WithRespectTo s_t) (v : Vec s_t) (sk : Skeleton s_t) : Skeleton s_t :=
  match wrt with
  | POSITION => setPositions v sk
  | VELOCITY => setVelocities v sk
  | ACCELERATION => setAccelerations v sk
  | GROUP_SCALES => setGroupScales v sk
  | GROUP_MASSES => setGroupMasses v sk
  | GROUP_COMS => setGroupCOMs v sk
  | GROUP_INERTIAS => setGroupInertias v sk
  | OTHER _ set => set sk v
  end.

(** [wrt->dim(skel)] *)
Definition wrt_dim (wrt : WithRespectTo s_t) (sk : Skeleton s_t) : nat :=
  length (wrt_get wrt sk).
End WithRespectToOps.

(** A marker is a body (by index) and an offset: [std::pair<BodyNode*, Vector3s>]. *)
Definition Marker (s_t : Type) : Type := (nat * Vec s_t)%type.

(** ** Collaborators

    The quantities the skeleton derives from its state, the utilities of
    [dart/math] and the marker gradients of [MarkerFitter] are computed by
    code that is not among the sources; the functions of this file take them
    as an interface. *)
Class Collaborators (s_t : Type) : Type := {
  (** [skel->getMassMatrix()], [skel->getCoriolisAndGravityForces()] *)
  getMassMatrix : Skeleton s_t -> Matrix s_t;
  getCoriolisAndGravityForces : Skeleton s_t -> Vec s_t;
  (** [skel->getJacobianOfM(ddq, wrt)], [skel->getJacobianOfC(wrt)] *)
  getJacobianOfM : Skeleton s_t -> Vec s_t -> WithRespectTo s_t -> Matrix s_t;
  getJacobianOfC : Skeleton s_t -> WithRespectTo s_t -> Matrix s_t;
  (** [DifferentiableExternalForce(skel, body).computeTau(wrench)] and
      [.getJacobianOfTauWrt(wrench, wrt)] *)
  computeTau : Skeleton s_t -> nat -> Vec s_t -> Vec s_t;
  getJacobianOfTauWrt : Skeleton s_t -> nat -> Vec s_t -> WithRespectTo s_t -> Matrix s_t;
  (** [skel->clearExternalForces()] *)
  clearExternalForces : Skeleton s_t -> Skeleton s_t;
  (** [math::finiteDifference]: the probes [(eps, dof)] it evaluates for a
      step size, the Ridders switch and a number of columns, and how it
      assembles the matrix or the vector from the probed values. *)
  finiteDifference_probes : s_t -> bool -> nat -> list (s_t * nat);
  finiteDifference_matrix : s_t -> bool -> nat -> list (Vec s_t) -> Matrix s_t;
  finiteDifference_vector : s_t -> bool -> nat -> list s_t -> Vec s_t;
  (** [skel->getMarkerWorldPositions(markers)], [skel->getJointWorldPositions(joints)] *)
  getMarkerWorldPositions : Skeleton s_t -> list (Marker s_t) -> Vec s_t;
  getJointWorldPositions : Skeleton s_t -> list nat -> Vec s_t;
  (** [skel->getMarkerMapWorldPositions(markerMap)] *)
  getMarkerMapWorldPositions :
    Skeleton s_t -> list (String.string * Marker s_t) -> list (String.string * Vec s_t);
  (** [MarkerFitter::getMarkerLossGradientWrt{GroupScales,MarkerOffsets,Joints}] *)
  getMarkerLossGradientWrtGroupScales : Skeleton s_t -> list (Marker s_t) -> Vec s_t -> Vec s_t;
  getMarkerLossGradientWrtMarkerOffsets : Skeleton s_t -> list (Marker s_t) -> Vec s_t -> Vec s_t;
  getMarkerLossGradientWrtJoints : Skeleton s_t -> list (Marker s_t) -> Vec s_t -> Vec s_t;
  (** [skel->getJointWorldPositionsJacobianWrt{GroupScales,JointPositions}(joints)] *)
  getJointWorldPositionsJacobianWrtGroupScales : Skeleton s_t -> list nat -> Matrix s_t;
  getJointWorldPositionsJacobianWrtJointPositions : Skeleton s_t -> list nat -> Matrix s_t;
  (** [body->getWorldTransform().translation()] *)
  getWorldTranslation : Skeleton s_t -> nat -> Vec s_t;
  (** [skel->getNumBodyNodes()], and the children of a body:
      [body->getNumChildBodyNodes()], [body->getChildBodyNode(j)] *)
  getNumBodyNodes : Skeleton s_t -> nat;
  getChildBodyNodes : Skeleton s_t -> nat -> list nat;
  (** [math::prepareConvex2DShape(shape, origin, UnitX, UnitZ)] and
      [math::convex2DShapeContains(point, shape, origin, UnitX, UnitZ)] *)
  prepareConvex2DShape : list (Vec s_t) -> Vec s_t -> list (Vec s_t);
  convex2DShapeContains : Vec s_t -> list (Vec s_t) -> Vec s_t -> bool
}.

(** ** Code that works on the shared skeleton *)

Definition SkelM (s_t A : Type) : Type := Skeleton s_t -> A * Skeleton s_t.

Definition ret {s_t A} (a : A) : SkelM s_t A := fun sk => (a, sk).
Definition bind {s_t A B} (m : SkelM s_t A) (k : A -> SkelM s_t B) : SkelM s_t B :=
  fun sk => let (a, sk') := m sk in k a sk'.
(** Read a value off the skeleton; call a setter on it. *)
Definition gets {s_t A} (f : Skeleton s_t -> A) : SkelM s_t A := fun sk => (f sk, sk).
Definition modify {s_t} (f : Skeleton s_t -> Skeleton s_t) : SkelM s_t unit := fun sk => (tt, f sk).

Declare Scope skel_scope.
Delimit Scope skel_scope with skel.
Notation "x <- m ;; k" := (bind m (fun x => k))
  (at level 61, m at next level, right associativity) : skel_scope.
Notation "m ;; k" := (bind m (fun _ => k))
  (at level 61, right associativity) : skel_scope.

(** A [for] loop over the items of [l] that carries a local variable. *)
Fixpoint for_each {s_t A B} (l : list A) (acc : B) (body : B -> A -> SkelM s_t B) : SkelM s_t B :=
  match l with
  | [] => ret acc
  | a :: l' => bind (body acc a) (fun acc' => for_each l' acc' body)
  end.

(** ** ResidualForceHelper *)

Module ResidualForceHelper.
Section Defs.
Context {s_t : Type} `{Scalar s_t} `{Collaborators s_t}.
Open Scope skel_scope.

(** The helper holds the skeleton (shared, threaded through [SkelM]) and
    one force per contact body: [mForces], here the bodies' indices. *)
Record t : Type := mk { mForces : list nat }.

(** The constructor: one force for each body of [forceBodies]. *)
Definition create (forceBodies : list nat) : t := mk forceBodies.

(** [calculateResidual(q, dq, ddq, forcesConcat)] *)
Definition calculateResidual (h : t) (q dq ddq forcesConcat : Vec s_t) : SkelM s_t (Vec s_t) :=
  originalPos <- gets (@getPositions s_t) ;;
  originalVel <- gets (@getVelocities s_t) ;;
  originalAcc <- gets (@getAccelerations s_t) ;;
  modify (setPositions q) ;;
  modify (setVelocities dq) ;;
  modify (setAccelerations ddq) ;;
  M <- gets getMassMatrix ;;
  C <- gets getCoriolisAndGravityForces ;;
  n <- gets (@getNumDofs s_t) ;;
  Fs <- for_each (seq 0 (length (mForces h))) (zeros n)
          (fun Fs i =>
             fTaus <- gets (fun sk => computeTau sk (nth i (mForces h) 0)
                                        (segment forcesConcat (i * 6) 6)) ;;
             ret (vadd Fs fTaus)) ;;
  let manualTau := vsub (vadd (mat_vec n M ddq) C) Fs in
  modify (setPositions originalPos) ;;
  modify (setVelocities originalVel) ;;
  modify (setAccelerations originalAcc) ;;
  ret (head 6 manualTau).

(** [calculateResidualNorm(q, dq, ddq, forcesConcat, useL1)] *)
Definition calculateResidualNorm (h : t) (q dq ddq forcesConcat : Vec s_t) (useL1 : bool)
  : SkelM s_t s_t :=
  residual <- calculateResidual h q dq ddq forcesConcat ;;
  if useL1
  then ret (norm (head 3 residual) + norm (tail 3 residual))%s
  else ret (squaredNorm residual).

(** [finiteDifferenceResidualJacobianWrt(q, dq, ddq, forcesConcat, wrt)] *)
Definition finiteDifferenceResidualJacobianWrt
    (h : t) (q dq ddq forcesConcat : Vec s_t) (wrt : WithRespectTo s_t)
  : SkelM s_t (Matrix s_t) :=
  dim <- gets (wrt_dim wrt) ;;
  originalPos <- gets (@getPositions s_t) ;;
  originalVel <- gets (@getVelocities s_t) ;;
  originalAcc <- gets (@getAccelerations s_t) ;;
  modify (setPositions q) ;;
  modify (setVelocities dq) ;;
  modify (setAccelerations ddq) ;;
  originalWrt <- gets (wrt_get wrt) ;;
  let useRidders := true in
  let eps := if useRidders then s_lit 1 2 else s_lit 1 5 in
  probed <- for_each (finiteDifference_probes eps useRidders dim) []
              (fun out probe =>
                 let newWrt := set_nth (snd probe)
                                 (at_ originalWrt (snd probe) + fst probe)%s originalWrt in
                 modify (wrt_set wrt newWrt) ;;
                 pos <- gets (@getPositions s_t) ;;
                 vel <- gets (@getVelocities s_t) ;;
                 acc <- gets (@getAccelerations s_t) ;;
                 perturbed <- calculateResidual h pos vel acc forcesConcat ;;
                 ret (out ++ [perturbed])) ;;
  let result := finiteDifference_matrix eps useRidders dim probed in
  modify (wrt_set wrt originalWrt) ;;
  modify (setPositions originalPos) ;;
  modify (setVelocities originalVel) ;;
  modify (setAccelerations originalAcc) ;;
  ret result.

(** [calculateResidualJacobianWrt(q, dq, ddq, forcesConcat, wrt)].  The
    third saved vector is read with [getVelocities], as in the source. *)
Definition calculateResidualJacobianWrt
    (h : t) (q dq ddq forcesConcat : Vec s_t) (wrt : WithRespectTo s_t)
  : SkelM s_t (Matrix s_t) :=
  originalPos <- gets (@getPositions s_t) ;;
  originalVel <- gets (@getVelocities s_t) ;;
  originalAcc <- gets (@getVelocities s_t) ;;
  modify (setPositions q) ;;
  modify (setVelocities dq) ;;
  modify (setAccelerations ddq) ;;
  let restore :=
    modify (setPositions originalPos) ;;
    modify (setVelocities originalVel) ;;
    modify (setAccelerations originalAcc) in
  match wrt with
  | POSITION | GROUP_SCALES =>
      dM <- gets (fun sk => getJacobianOfM sk ddq wrt) ;;
      dC <- gets (fun sk => getJacobianOfC sk wrt) ;;
      n <- gets (@getNumDofs s_t) ;;
      dim <- gets (wrt_dim wrt) ;;
      dFs <- for_each (seq 0 (length (mForces h))) (repeat (zeros n) dim)
               (fun dFs i =>
                  dfTaus <- gets (fun sk => getJacobianOfTauWrt sk (nth i (mForces h) 0)
                                              (segment forcesConcat (i * 6) 6) wrt) ;;
                  ret (madd dFs dfTaus)) ;;
      let jac := msub (madd dM dC) dFs in
      restore ;;
      ret (top_rows 6 jac)
  | GROUP_MASSES | GROUP_COMS | GROUP_INERTIAS =>
      dM <- gets (fun sk => getJacobianOfM sk ddq wrt) ;;
      dC <- gets (fun sk => getJacobianOfC sk wrt) ;;
      let jac := madd dM dC in
      restore ;;
      ret (top_rows 6 jac)
  | VELOCITY =>
      dC <- gets (fun sk => getJacobianOfC sk VELOCITY) ;;
      restore ;;
      ret (top_rows 6 dC)
  | ACCELERATION =>
      M <- gets getMassMatrix ;;
      restore ;;
      ret (top_rows 6 M)
  | OTHER _ _ =>
      J <- finiteDifferenceResidualJacobianWrt h q dq ddq forcesConcat wrt ;;
      restore ;;
      ret J
  end.

(** [calculateResidualNormGradientWrt(q, dq, ddq, forcesConcat, wrt, useL1)] *)
Definition calculateResidualNormGradientWrt
    (h : t) (q dq ddq forcesConcat : Vec s_t) (wrt : WithRespectTo s_t) (useL1 : bool)
  : SkelM s_t (Vec s_t) :=
  res <- calculateResidual h q dq ddq forcesConcat ;;
  jac <- calculateResidualJacobianWrt h q dq ddq forcesConcat wrt ;;
  if useL1
  then
    let res := normalized (head 3 res) ++ normalized (tail 3 res) in
    ret (mat_transpose_vec jac res)
  else ret (mat_transpose_vec (map (vscale (s_of_Z 2)) jac) res).

(** [finiteDifferenceResidualNormGradientWrt(q, dq, ddq, forcesConcat, wrt, useL1)] *)
Definition finiteDifferenceResidualNormGradientWrt
    (h : t) (q dq ddq forcesConcat : Vec s_t) (wrt : WithRespectTo s_t) (useL1 : bool)
  : SkelM s_t (Vec s_t) :=
  dim <- gets (wrt_dim wrt) ;;
  originalPos <- gets (@getPositions s_t) ;;
  originalVel <- gets (@getVelocities s_t) ;;
  originalAcc <- gets (@getAccelerations s_t) ;;
  modify (setPositions q) ;;
  modify (setVelocities dq) ;;
  modify (setAccelerations ddq) ;;
  originalWrt <- gets (wrt_get wrt) ;;
  let eps := s_lit 5 4 in
  probed <- for_each (finiteDifference_probes eps true dim) []
              (fun out probe =>
                 let newWrt := set_nth (snd probe)
                                 (at_ originalWrt (snd probe) + fst probe)%s originalWrt in
                 modify (wrt_set wrt newWrt) ;;
                 pos <- gets (@getPositions s_t) ;;
                 vel <- gets (@getVelocities s_t) ;;
                 acc <- gets (@getAccelerations s_t) ;;
                 perturbed <- calculateResidualNorm h pos vel acc forcesConcat useL1 ;;
                 ret (out ++ [perturbed])) ;;
  let result := finiteDifference_vector eps true dim probed in
  modify (wrt_set wrt originalWrt) ;;
  modify (setPositions originalPos) ;;
  modify (setVelocities originalVel) ;;
  modify (setAccelerations originalAcc) ;;
  ret result.
End Defs.
End ResidualForceHelper.

(** ** The initialization bundle and the fit problem *)

(** [std::map<std::string, V>] as an association list; [count] and [at]. *)
Section Maps.
Context {V : Type}.
Definition StrMap := list (String.string * V).
Fixpoint map_find (m : StrMap) (k : String.string) : option V :=
  match m with
  | [] => None
  | (k', v) :: m' => if String.eqb k k' then Some v else map_find m' k
  end.
Definition map_count (m : StrMap) (k : String.string) : bool :=
  match map_find m k with Some _ => true | None => false end.
Definition map_at (m : StrMap) (k : String.string) (default : V) : V :=
  match map_find m k with Some v => v | None => default end.
(** [m[k]]: the stored value, or a fresh entry that is added to the map. *)
Definition map_subscript (m : StrMap) (k : String.string) (fresh : V) : V * StrMap :=
  match map_find m k with
  | Some v => (v, m)
  | None => (fresh, m ++ [(k, fresh)])
  end.
End Maps.
Arguments StrMap V : clear implicits.

(** [ForcePlate]: the fields the fitter reads. *)
Record ForcePlate (s_t : Type) : Type := mkForcePlate {
  worldOrigin : Vec s_t;
  corners : list (Vec s_t);
  centersOfPressure : list (Vec s_t)
}.

(** [DynamicsInitialization]: the fields the functions of this file read or write. *)
Record DynamicsInitialization (s_t : Type) : Type := mkInit {
  poseTrials : list (Matrix s_t);
  trialTimesteps : list s_t;
  grfTrials : list (Matrix s_t);
  forcePlateTrials : list (list (ForcePlate s_t));
  markerObservationTrials : list (list (StrMap (Vec s_t)));
  originalPoses : list (Matrix s_t);
  originalGroupMasses : Vec s_t;
  originalGroupCOMs : Vec s_t;
  originalGroupInertias : Vec s_t;
  originalGroupScales : Vec s_t;
  originalMarkerOffsets : StrMap (Vec s_t);
  joints : list nat;
  jointCenters : list (Matrix s_t);
  jointAxis : list (Matrix s_t);
  jointWeights : Vec s_t;
  axisWeights : Vec s_t;
  grfBodyNodes : list nat;
  contactBodies : list (list nat);
  grfBodyContactSphereRadius : list (list (list s_t));
  groundHeight : list s_t;
  flatGround : list bool;
  defaultForcePlateCorners : list (list (Vec s_t));
  grfBodyForceActive : list (list (list bool));
  grfBodySphereInContact : list (list (list bool));
  grfBodyOffForcePlate : list (list (list bool));
  probablyMissingGRF : list (list bool)
}.

(** What a call does to the process: it returns, or the process exits. *)
Inductive Outcome (A : Type) : Type :=
| Returned (a : A)
| Exited (code : Z).
Arguments Exited {A} code.

Module DynamicsFitProblem.
Section Defs.
Context {s_t : Type} `{Scalar s_t} `{Collaborators s_t}.

Record t : Type := mk {
  mInit : DynamicsInitialization s_t;
  mMarkerMap : StrMap (Marker s_t);
  mFootNodes : list nat;
  mForceBodyIndices : list nat;
  mResidualHelper : ResidualForceHelper.t;
  mIncludeMasses : bool;
  mIncludeCOMs : bool;
  mIncludeInertias : bool;
  mIncludeBodyScales : bool;
  mIncludePoses : bool;
  mIncludeMarkerOffsets : bool;
  mResidualWeight : s_t;
  mMarkerWeight : s_t;
  mJointWeight : s_t;
  mResidualUseL1 : bool;
  mMarkerUseL1 : bool;
  mRegularizeMasses : s_t;
  mRegularizeCOMs : s_t;
  mRegularizeInertias : s_t;
  mRegularizeTrackingMarkerOffsets : s_t;
  mRegularizeAnatomicalMarkerOffsets : s_t;
  mRegularizeBodyScales : s_t;
  mRegularizePoses : s_t;
  mMarkerNames : list String.string;
  mMarkers : list (Marker s_t);
  mMarkerIsTracking : list bool;
  mPoses : list (Matrix s_t);
  mVels : list (Matrix s_t);
  mAccs : list (Matrix s_t);
  mLastX : Vec s_t
}.

(** Field updates. *)
Definition with_flags (p : t) (masses coms inertias scales poses offsets : bool) : t :=
  mk (mInit p) (mMarkerMap p) (mFootNodes p) (mForceBodyIndices p) (mResidualHelper p)
     masses coms inertias scales poses offsets
     (mResidualWeight p) (mMarkerWeight p) (mJointWeight p) (mResidualUseL1 p) (mMarkerUseL1 p)
     (mRegularizeMasses p) (mRegularizeCOMs p) (mRegularizeInertias p)
     (mRegularizeTrackingMarkerOffsets p) (mRegularizeAnatomicalMarkerOffsets p)
     (mRegularizeBodyScales p) (mRegularizePoses p)
     (mMarkerNames p) (mMarkers p) (mMarkerIsTracking p)
     (mPoses p) (mVels p) (mAccs p) (mLastX p).
Definition with_weights (p : t) (residual marker : s_t) (residualL1 markerL1 : bool) : t :=
  mk (mInit p) (mMarkerMap p) (mFootNodes p) (mForceBodyIndices p) (mResidualHelper p)
     (mIncludeMasses p) (mIncludeCOMs p) (mIncludeInertias p) (mIncludeBodyScales p)
     (mIncludePoses p) (mIncludeMarkerOffsets p)
     residual marker (mJointWeight p) residualL1 markerL1
     (mRegularizeMasses p) (mRegularizeCOMs p) (mRegularizeInertias p)
     (mRegularizeTrackingMarkerOffsets p) (mRegularizeAnatomicalMarkerOffsets p)
     (mRegularizeBodyScales p) (mRegularizePoses p)
     (mMarkerNames p) (mMarkers p) (mMarkerIsTracking p)
     (mPoses p) (mVels p) (mAccs p) (mLastX p).
Definition with_state (p : t) (init : DynamicsInitialization s_t)
    (markers : list (Marker s_t)) (poses vels accs : list (Matrix s_t)) (lastX : Vec s_t) : t :=
  mk init (mMarkerMap p) (mFootNodes p) (mForceBodyIndices p) (mResidualHelper p)
     (mIncludeMasses p) (mIncludeCOMs p) (mIncludeInertias p) (mIncludeBodyScales p)
     (mIncludePoses p) (mIncludeMarkerOffsets p)
     (mResidualWeight p) (mMarkerWeight p) (mJointWeight p) (mResidualUseL1 p) (mMarkerUseL1 p)
     (mRegularizeMasses p) (mRegularizeCOMs p) (mRegularizeInertias p)
     (mRegularizeTrackingMarkerOffsets p) (mRegularizeAnatomicalMarkerOffsets p)
     (mRegularizeBodyScales p) (mRegularizePoses p)
     (mMarkerNames p) markers (mMarkerIsTracking p)
     poses vels accs lastX.

(** The builder-style setters. *)
Definition setIncludeMasses (value : bool) (p : t) : t :=
  with_flags p value (mIncludeCOMs p) (mIncludeInertias p) (mIncludeBodyScales p)
    (mIncludePoses p) (mIncludeMarkerOffsets p).
Definition setIncludeCOMs (value : bool) (p : t) : t :=
  with_flags p (mIncludeMasses p) value (mIncludeInertias p) (mIncludeBodyScales p)
    (mIncludePoses p) (mIncludeMarkerOffsets p).
Definition setIncludeInertias (value : bool) (p : t) : t :=
  with_flags p (mIncludeMasses p) (mIncludeCOMs p) value (mIncludeBodyScales p)
    (mIncludePoses p) (mIncludeMarkerOffsets p).
Definition setIncludePoses (value : bool) (p : t) : t :=
  with_flags p (mIncludeMasses p) (mIncludeCOMs p) (mIncludeInertias p) (mIncludeBodyScales p)
    value (mIncludeMarkerOffsets p).
Definition setIncludeMarkerOffsets (value : bool) (p : t) : t :=
  with_flags p (mIncludeMasses p) (mIncludeCOMs p) (mIncludeInertias p) (mIncludeBodyScales p)
    (mIncludePoses p) value.
Definition setIncludeBodyScales (value : bool) (p : t) : t :=
  with_flags p (mIncludeMasses p) (mIncludeCOMs p) (mIncludeInertias p) value
    (mIncludePoses p) (mIncludeMarkerOffsets p).
Definition setResidualWeight (weight : s_t) (p : t) : t :=
  with_weights p weight (mMarkerWeight p) (mResidualUseL1 p) (mMarkerUseL1 p).
Definition setMarkerWeight (weight : s_t) (p : t) : t :=
  with_weights p (mResidualWeight p) weight (mResidualUseL1 p) (mMarkerUseL1 p).
Definition setResidualUseL1 (l1 : bool) (p : t) : t :=
  with_weights p (mResidualWeight p) (mMarkerWeight p) l1 (mMarkerUseL1 p).
Definition setMarkerUseL1 (l1 : bool) (p : t) : t :=
  with_weights p (mResidualWeight p) (mMarkerWeight p) (mResidualUseL1 p) l1.

(** [std::vector] of results collected from a loop whose body can fail. *)
Fixpoint all_some {A : Type} (l : list (option A)) : option (list A) :=
  match l with
  | [] => Some []
  | Some a :: l' => option_map (cons a) (all_some l')
  | None :: _ => None
  end.

(** The body of the constructor's loop over the trials: the poses of
    trial [i] are copied and differenced into velocities and
    accelerations.  [Eigen::MatrixXs::Zero(dofs, cols)] is refused for a
    negative number of columns (an assertion in a debug build, a
    [std::bad_alloc] from the size check otherwise): on a trial of fewer
    than two frames the constructor does not return ([None]).  (On a
    skeleton without degrees of freedom the size check of a release build
    lets the empty matrix pass; no statement is made about that case.) *)
Definition create_trial (init : DynamicsInitialization s_t) (i : nat)
  : option (Matrix s_t * Matrix s_t * Matrix s_t) :=
  let dt := nth i (trialTimesteps init) s_zero in
  let inputPoses := nth i (poseTrials init) [] in
  let velCols := (Z.of_nat (cols inputPoses) - 1)%Z in
  let accCols := (Z.of_nat (cols inputPoses) - 2)%Z in
  if ((velCols <? 0) || (accCols <? 0))%Z
  then None
  else
    let poses := map (fun j => col inputPoses j) (seq 0 (cols inputPoses)) in
    let vels :=
      map (fun j => vdiv (vsub (col inputPoses (j + 1)) (col inputPoses j)) dt)
          (seq 0 (Z.to_nat velCols)) in
    let accs :=
      map (fun j => vdiv (vadd (vsub (col inputPoses (j + 2))
                                     (vscale (s_of_Z 2) (col inputPoses (j + 1))))
                               (col inputPoses j))
                         (dt * dt)%s)
          (seq 0 (Z.to_nat accCols)) in
    Some (poses, vels, accs).

(** The constructor.  [markerMap] is iterated in key order.  [None] when
    it does not return. *)
Definition create (init : DynamicsInitialization s_t) (skeleton : Skeleton s_t)
    (markerMap : StrMap (Marker s_t)) (trackingMarkers : list String.string)
    (footNodes : list nat) : option t :=
  let markerNames := map fst markerMap in
  let markers := map snd markerMap in
  let isTracking :=
    map (fun pair => existsb (String.eqb (fst pair)) trackingMarkers) markerMap in
  match all_some (map (create_trial init) (seq 0 (length (poseTrials init)))) with
  | None => None
  | Some trials =>
      let forceBodyIndices := footNodes in
      Some
        (mk init markerMap footNodes forceBodyIndices
           (ResidualForceHelper.create forceBodyIndices)
           true true true true true true
           (s_lit 1 1) s_one s_one false false
           s_one s_one s_one
           (s_lit 5 2) (s_lit 100 1)
           (s_lit 2 1) s_zero
           markerNames markers isTracking
           (map (fun x => fst (fst x)) trials) (map (fun x => snd (fst x)) trials)
           (map snd trials)
           [])
  end.

(** *** The flattened layout *)

(** The body of [getProblemSize()]'s loop over the trials. *)
Definition problem_size_trial (dofs : nat) (accs : list (Matrix s_t)) (size trial : nat) : nat :=
  (* Add pos + vel + acc *)
  let size := size + cols (nth trial accs []) * dofs * 3 in
  (* Add last two q's, last dq *)
  size + dofs * 3.

(** [getProblemSize()] *)
Definition getProblemSize (p : t) (sk : Skeleton s_t) : nat :=
  let size := 0 in
  let size := if mIncludeMasses p then size + getNumScaleGroups sk else size in
  let size := if mIncludeCOMs p then size + getNumScaleGroups sk * 3 else size in
  let size := if mIncludeInertias p then size + getNumScaleGroups sk * 6 else size in
  let size := if mIncludeBodyScales p then size + getGroupScaleDim sk else size in
  let size := if mIncludeMarkerOffsets p then size + length (mMarkers p) * 3 else size in
  if mIncludePoses p
  then
    let dofs := getNumDofs sk in
    fold_left (problem_size_trial dofs (mAccs p)) (seq 0 (length (mPoses p))) size
  else size.

(** One block of [flatten()]: write [v] at the cursor and advance it. *)
Definition put (dim : nat) (v : Vec s_t) (st : Vec s_t * nat) : Vec s_t * nat :=
  let (flat, cursor) := st in
  (write_segment flat cursor dim v, cursor + dim).

(** The body of [flatten()]'s loop over the frames [t] of a trial. *)
Definition flatten_frame (dofs : nat) (poses vels accs : Matrix s_t)
    (st : Vec s_t * nat) (t : nat) : Vec s_t * nat :=
  let st := put dofs (col poses t) st in
  let st := put dofs (col vels t) st in
  put dofs (col accs t) st.

(** The body of [flatten()]'s loop over the trials, for one trial. *)
Definition flatten_trial (dofs : nat) (poses vels accs : Matrix s_t)
    (st : Vec s_t * nat) : Vec s_t * nat :=
  let st := fold_left (flatten_frame dofs poses vels accs) (seq 0 (cols accs)) st in
  (* Get the last two q's, and last dq *)
  let lastAccT := (Z.of_nat (cols accs) - 1)%Z in
  let st := put dofs (col poses (Z.to_nat (lastAccT + 1))) st in
  let st := put dofs (col vels (Z.to_nat (lastAccT + 1))) st in
  put dofs (col poses (Z.to_nat (lastAccT + 2))) st.

(** The body of [flatten()]'s loop over the markers. *)
Definition flatten_marker (markers : list (Marker s_t)) (st : Vec s_t * nat) (i : nat)
  : Vec s_t * nat :=
  put 3 (snd (nth i markers (0, []))) st.

(** The body of [flatten()]'s loop over the trials. *)
Definition flatten_trial_at (dofs : nat) (poses vels accs : list (Matrix s_t))
    (st : Vec s_t * nat) (trial : nat) : Vec s_t * nat :=
  flatten_trial dofs (nth trial poses []) (nth trial vels []) (nth trial accs []) st.

(** [flatten()], with the cursor it ends on (the source asserts that this
    is the size of the vector). *)
Definition flatten_cursor (p : t) (sk : Skeleton s_t) : Vec s_t * nat :=
  let st := (zeros (getProblemSize p sk), 0) in
  let st := if mIncludeMasses p
            then put (getNumScaleGroups sk) (getGroupMasses sk) st else st in
  let st := if mIncludeCOMs p
            then put (getNumScaleGroups sk * 3) (getGroupCOMs sk) st else st in
  let st := if mIncludeInertias p
            then put (getNumScaleGroups sk * 6) (getGroupInertias sk) st else st in
  let st := if mIncludeBodyScales p
            then put (getGroupScaleDim sk) (getGroupScales sk) st else st in
  let st := if mIncludeMarkerOffsets p
            then fold_left (flatten_marker (mMarkers p)) (seq 0 (length (mMarkers p))) st
            else st in
  if mIncludePoses p
  then
    let dofs := getNumDofs sk in
    fold_left (flatten_trial_at dofs (mPoses p) (mVels p) (mAccs p))
              (seq 0 (length (mPoses p))) st
  else st.

Definition flatten (p : t) (sk : Skeleton s_t) : Vec s_t := fst (flatten_cursor p sk).

(** The body of [unflatten(x)]'s loop over the frames [t] of a trial. *)
Definition unflatten_frame (x : Vec s_t) (dofs : nat)
    (st : nat * (Matrix s_t * Matrix s_t * Matrix s_t)) (t : nat)
  : nat * (Matrix s_t * Matrix s_t * Matrix s_t) :=
  let '(cursor, (poses, vels, accs)) := st in
  let poses := set_col poses t (segment x cursor dofs) in
  let cursor := cursor + dofs in
  let vels := set_col vels t (segment x cursor dofs) in
  let cursor := cursor + dofs in
  let accs := set_col accs t (segment x cursor dofs) in
  let cursor := cursor + dofs in
  (cursor, (poses, vels, accs)).

(** The body of [unflatten(x)]'s loop over the trials, for one trial. *)
Definition unflatten_trial (x : Vec s_t) (dofs : nat)
    (st : nat * (Matrix s_t * Matrix s_t * Matrix s_t))
  : nat * (Matrix s_t * Matrix s_t * Matrix s_t) :=
  let '(cursor, (poses, vels, accs)) :=
    fold_left (unflatten_frame x dofs) (seq 0 (cols (snd (snd st)))) st in
  let lastAccT := (Z.of_nat (cols accs) - 1)%Z in
  let poses := set_col poses (Z.to_nat (lastAccT + 1)) (segment x cursor dofs) in
  let cursor := cursor + dofs in
  let vels := set_col vels (Z.to_nat (lastAccT + 1)) (segment x cursor dofs) in
  let cursor := cursor + dofs in
  let poses := set_col poses (Z.to_nat (lastAccT + 2)) (segment x cursor dofs) in
  let cursor := cursor + dofs in
  (cursor, (poses, vels, accs)).

(** The body of [unflatten(x)]'s loop over the markers. *)
Definition unflatten_marker (x : Vec s_t) (st : list (Marker s_t) * nat) (i : nat)
  : list (Marker s_t) * nat :=
  let '(markers, cursor) := st in
  (set_nth i (fst (nth i markers (0, [])), segment x cursor 3) markers, cursor + 3).

(** The body of [unflatten(x)]'s loop over the trials. *)
Definition unflatten_trial_at (x : Vec s_t) (dofs : nat)
    (st : nat * (list (Matrix s_t) * list (Matrix s_t) * list (Matrix s_t))) (trial : nat)
  : nat * (list (Matrix s_t) * list (Matrix s_t) * list (Matrix s_t)) :=
  let '(cursor, (poses, vels, accs)) := st in
  let '(cursor, (ps, vs, acs)) :=
    unflatten_trial x dofs
      (cursor, (nth trial poses [], nth trial vels [], nth trial accs [])) in
  (cursor, (set_nth trial ps poses, set_nth trial vs vels, set_nth trial acs accs)).

(** [unflatten(x)], with the cursor it ends on (the source asserts that
    this is the size of [x]); when [x] compares equal to the last vector
    seen nothing is written. *)
Definition unflatten_cursor (st : t * Skeleton s_t) (x : Vec s_t) : t * Skeleton s_t * nat :=
  let (p, sk) := st in
  if (length x =? length (mLastX p)) && cwiseEqual_all x (mLastX p)
  then
    (* No need to overwrite the same update twice *)
    (p, sk, 0)
  else
    let lastX := x in
    let cursor := 0 in
    let '(sk, cursor) :=
      if mIncludeMasses p
      then let dim := getNumScaleGroups sk in
           (setGroupMasses (segment x cursor dim) sk, cursor + dim)
      else (sk, cursor) in
    let '(sk, cursor) :=
      if mIncludeCOMs p
      then let dim := getNumScaleGroups sk * 3 in
           (setGroupCOMs (segment x cursor dim) sk, cursor + dim)
      else (sk, cursor) in
    let '(sk, cursor) :=
      if mIncludeInertias p
      then let dim := getNumScaleGroups sk * 6 in
           (setGroupInertias (segment x cursor dim) sk, cursor + dim)
      else (sk, cursor) in
    let '(sk, cursor) :=
      if mIncludeBodyScales p
      then let dim := getGroupScaleDim sk in
           (setGroupScales (segment x cursor dim) sk, cursor + dim)
      else (sk, cursor) in
    let '(markers, cursor) :=
      if mIncludeMarkerOffsets p
      then fold_left (unflatten_marker x) (seq 0 (length (mMarkers p))) (mMarkers p, cursor)
      else (mMarkers p, cursor) in
    let '(cursor, (poses, vels, accs)) :=
      if mIncludePoses p
      then
        let dofs := getNumDofs sk in
        fold_left (unflatten_trial_at x dofs)
                  (seq 0 (length (mPoses p))) (cursor, (mPoses p, mVels p, mAccs p))
      else (cursor, (mPoses p, mVels p, mAccs p)) in
    (with_state p (mInit p) markers poses vels accs lastX, sk, cursor).

Definition unflatten (st : t * Skeleton s_t) (x : Vec s_t) : t * Skeleton s_t :=
  fst (unflatten_cursor st x).

(** *** The finite-difference constraints *)

(** [getConstraintSize()] *)
Definition getConstraintSize (p : t) (sk : Skeleton s_t) : nat :=
  if mIncludePoses p
  then
    let numConstraints := 0 in
    let dofs := getNumDofs sk in
    let numConstraints :=
      fold_left
        (fun numConstraints trial =>
           (* Each ddq and dq need a constraint *)
           numConstraints + cols (nth trial (mAccs p) []) * dofs * 2)
        (seq 0 (length (mAccs p))) numConstraints in
    (* Last dq needs a constraint as well *)
    let numConstraints := numConstraints + dofs in
    numConstraints
  else 0.

(** [v(cursor) = a] on a vector of fixed size: there is no entry to write
    when the cursor is past the end. *)
Definition write_at (v : Vec s_t) (cursor : nat) (a : s_t) : option (Vec s_t) :=
  if cursor <? length v then Some (set_nth cursor a v) else None.

(** [constraints(cursor) = value; cursor++] *)
Definition fill_step (acc : option (Vec s_t * nat)) (value : s_t) : option (Vec s_t * nat) :=
  match acc with
  | Some (constraints, cursor) =>
      match write_at constraints cursor value with
      | Some constraints => Some (constraints, cursor + 1)
      | None => None
      end
  | None => None
  end.

(** The constraint values in the order [computeConstraints] produces them,
    for one trial. *)
Definition constraint_rows_trial (dofs : nat) (dt : s_t) (poses vels accs : Matrix s_t)
  : list s_t :=
  let rows :=
    flat_map
      (fun t =>
         map (fun i =>
                let fd := (coeff poses i (t + 1) - coeff poses i t)%s in
                (coeff vels i t * dt - fd)%s) (seq 0 dofs)
         ++
         map (fun i =>
                let fd := (coeff vels i (t + 1) - coeff vels i t)%s in
                (coeff accs i t * dt - fd)%s) (seq 0 dofs))
      (seq 0 (cols accs)) in
  (* Last dq needs a constraint as well *)
  let lastAccT := (Z.of_nat (cols accs) - 1)%Z in
  rows ++
  map (fun i =>
         let fd := (coeff poses i (Z.to_nat (lastAccT + 2))
                    - coeff poses i (Z.to_nat (lastAccT + 1)))%s in
         (coeff vels i (Z.to_nat (lastAccT + 1)) * dt - fd)%s) (seq 0 dofs).

(** The constraint values of all trials, in order. *)
Definition constraint_rows (p : t) (sk : Skeleton s_t) : list s_t :=
  let dofs := getNumDofs sk in
  flat_map
    (fun trial =>
       let dt := nth trial (trialTimesteps (mInit p)) s_zero in
       constraint_rows_trial dofs dt (nth trial (mPoses p) []) (nth trial (mVels p) [])
                             (nth trial (mAccs p) []))
    (seq 0 (length (mAccs p))).

(** [computeConstraints(x)]: a vector of [getConstraintSize()] zeros is
    filled entry by entry at the cursor.  [None] when an entry is written
    past the end of the vector. *)
Definition computeConstraints (st : t * Skeleton s_t) (x : Vec s_t)
  : option (Vec s_t) * (t * Skeleton s_t) :=
  if mIncludePoses (fst st)
  then
    let st := unflatten st x in
    let (p, sk) := st in
    let dim := getConstraintSize p sk in
    let constraints := zeros dim in
    let filled := fold_left fill_step (constraint_rows p sk) (Some (constraints, 0)) in
    (option_map fst filled, st)
  else (Some (zeros 0), st).

(** The three triples of the row that ties [q] at [t] and [t + 1] to [dq]
    at [t], for degree of freedom [i]. *)
Definition sparse_q_row (dofs : nat) (dt : s_t) (colCursor : nat)
    (st : list (nat * nat * s_t) * nat) (i : nat) : list (nat * nat * s_t) * nat :=
  let '(result, rowCursor) := st in
  let q_i_t0 := colCursor + i in
  let q_i_t1 := colCursor + (dofs * 3) + i in
  let dq_i_t0 := colCursor + dofs + i in
  (result ++ [(rowCursor, q_i_t0, s_of_Z 1);
              (rowCursor, q_i_t1, s_of_Z (-1));
              (rowCursor, dq_i_t0, dt)],
   rowCursor + 1).

(** The three triples of the row that ties [dq] at [t] and [t + 1] to
    [ddq] at [t]. *)
Definition sparse_dq_row (dofs : nat) (dt : s_t) (colCursor : nat)
    (st : list (nat * nat * s_t) * nat) (i : nat) : list (nat * nat * s_t) * nat :=
  let '(result, rowCursor) := st in
  let dq_i_t0 := colCursor + dofs + i in
  let dq_i_t1 := colCursor + (dofs * 3) + dofs + i in
  let ddq_i_t0 := colCursor + (dofs * 2) + i in
  (result ++ [(rowCursor, dq_i_t0, s_of_Z 1);
              (rowCursor, dq_i_t1, s_of_Z (-1));
              (rowCursor, ddq_i_t0, dt)],
   rowCursor + 1).

(** The three triples of the last [dq] constraint of a trial. *)
Definition sparse_last_row (dofs : nat) (dt : s_t) (colCursor : nat)
    (st : list (nat * nat * s_t) * nat) (i : nat) : list (nat * nat * s_t) * nat :=
  let '(result, rowCursor) := st in
  let q_i_t0 := colCursor + i in
  let q_i_t1 := colCursor + (dofs * 2) + i in
  let dq_i_t0 := colCursor + dofs + i in
  (result ++ [(rowCursor, q_i_t0, s_of_Z 1);
              (rowCursor, q_i_t1, s_of_Z (-1));
              (rowCursor, dq_i_t0, dt)],
   rowCursor + 1).

(** The body of the loop over the frames [t] of a trial. *)
Definition sparse_frame (dofs : nat) (dt : s_t)
    (st : list (nat * nat * s_t) * nat * nat) (t : nat)
  : list (nat * nat * s_t) * nat * nat :=
  let '(result, rowCursor, colCursor) := st in
  let st := fold_left (sparse_q_row dofs dt colCursor) (seq 0 dofs) (result, rowCursor) in
  let '(result, rowCursor) :=
    fold_left (sparse_dq_row dofs dt colCursor) (seq 0 dofs) st in
  (* add space for this t's [q, dq, ddq] *)
  (result, rowCursor, colCursor + dofs * 3).

(** [computeSparseConstraintsJacobian()] for one trial: the triples, and
    the row and column cursors after them. *)
Definition sparse_trial (dofs : nat) (dt : s_t) (accs : Matrix s_t)
    (st : list (nat * nat * s_t) * nat * nat) : list (nat * nat * s_t) * nat * nat :=
  let '(result, rowCursor, colCursor) :=
    fold_left (sparse_frame dofs dt) (seq 0 (cols accs)) st in
  (* Do the last dq constraint *)
  let '(result, rowCursor) :=
    fold_left (sparse_last_row dofs dt colCursor) (seq 0 dofs) (result, rowCursor) in
  (* add space for the last [q, dq, q] *)
  (result, rowCursor, colCursor + dofs * 3).

(** The body of the loop over the trials. *)
Definition sparse_trial_at (dofs : nat) (timesteps : list s_t) (accs : list (Matrix s_t))
    (st : list (nat * nat * s_t) * nat * nat) (trial : nat)
  : list (nat * nat * s_t) * nat * nat :=
  let dt := nth trial timesteps s_zero in
  sparse_trial dofs dt (nth trial accs []) st.

(** [computeSparseConstraintsJacobian()] *)
Definition computeSparseConstraintsJacobian (p : t) (sk : Skeleton s_t)
  : list (nat * nat * s_t) :=
  let colCursor := 0 in
  let colCursor := if mIncludeMasses p then colCursor + getNumScaleGroups sk else colCursor in
  let colCursor := if mIncludeCOMs p then colCursor + getNumScaleGroups sk * 3 else colCursor in
  let colCursor := if mIncludeInertias p then colCursor + getNumScaleGroups sk * 6 else colCursor in
  let colCursor := if mIncludeBodyScales p then colCursor + getGroupScaleDim sk else colCursor in
  let colCursor := if mIncludeMarkerOffsets p then colCursor + 3 * length (mMarkers p) else colCursor in
  if mIncludePoses p
  then
    let dofs := getNumDofs sk in
    let rowCursor := 0 in
    fst (fst
      (fold_left (sparse_trial_at dofs (trialTimesteps (mInit p)) (mAccs p))
         (seq 0 (length (mAccs p))) ([], rowCursor, colCursor)))
  else [].

(** [J(row, col) = value] on a matrix of fixed size. *)
Definition write_entry (J : Matrix s_t) (rows : nat) (row c : nat) (value : s_t)
  : option (Matrix s_t) :=
  if (row <? rows) && (c <? cols J)
  then Some (set_col J c (set_nth row value (col J c)))
  else None.

(** [computeConstraintsJacobian()]: a zero matrix of [getConstraintSize()]
    rows and [getProblemSize()] columns receives the triples.  [None] when
    a triple lies outside the matrix. *)
Definition computeConstraintsJacobian (p : t) (sk : Skeleton s_t) : option (Matrix s_t) :=
  if negb (mIncludePoses p)
  then Some []
  else
    let problemDim := getProblemSize p sk in
    let constraintDim := getConstraintSize p sk in
    let sparseConstraints := computeSparseConstraintsJacobian p sk in
    let J := repeat (zeros constraintDim) problemDim in
    fold_left
      (fun acc tuple =>
         match acc with
         | Some J => write_entry J constraintDim (fst (fst tuple)) (snd (fst tuple)) (snd tuple)
         | None => None
         end)
      sparseConstraints (Some J).

(** *** The loss *)

(** The sums [computeLoss] accumulates over the frames. *)
Record LossTerms : Type := mkLossTerms {
  residualRMS : s_t;
  markerRMS : s_t;
  poseRegularization : s_t;
  jointRMS : s_t;
  axisRMS : s_t;
  markerCount : nat
}.

(** [totalTimesteps] and [totalAccTimesteps] *)
Definition totalTimesteps (p : t) : nat :=
  fold_left (fun n trial => n + cols (nth trial (mPoses p) [])) (seq 0 (length (mPoses p))) 0.
Definition totalAccTimesteps (p : t) : nat :=
  fold_left (fun n trial => n + cols (nth trial (mAccs p) [])) (seq 0 (length (mPoses p))) 0.

(** [mInit->probablyMissingGRF[trial][t]] *)
Definition missingGRF (p : t) (trial t : nat) : bool :=
  nth t (nth trial (probablyMissingGRF (mInit p)) []) false.

(** The call [mResidualHelper->calculateResidualNorm(...)] for frame [t]
    of a trial. *)
Definition residualNormAt (p : t) (trial t : nat) : SkelM s_t s_t :=
  ResidualForceHelper.calculateResidualNorm (mResidualHelper p)
    (col (nth trial (mPoses p) []) t)
    (col (nth trial (mVels p) []) t)
    (col (nth trial (mAccs p) []) t)
    (col (nth trial (grfTrials (mInit p)) []) t)
    (mResidualUseL1 p).

(** The body of [computeLoss]'s loop over the frames [t] of a trial. *)
Definition loss_frame (p : t) (trial : nat) (acc : LossTerms) (t : nat)
  : SkelM s_t LossTerms :=
  let init := mInit p in
  (modify (setPositions (col (nth trial (mPoses p) []) t)) ;;
   (* Add force residual RMS errors to all but the last 2 timesteps *)
   residualRMS' <-
     (if (t <? cols (nth trial (mAccs p) [])) && negb (missingGRF p trial t)
      then
        n <- residualNormAt p trial t ;;
        ret (residualRMS acc
             + mResidualWeight p * (s_one / s_of_nat (totalAccTimesteps p)) * n)%s
      else ret (residualRMS acc)) ;;
   (* Add marker RMS errors to every timestep *)
   markerPoses <- gets (fun sk => getMarkerWorldPositions sk (mMarkers p)) ;;
   let observedMarkerPoses := nth t (nth trial (markerObservationTrials init) []) [] in
   let '(markerRMS', markerCount') :=
     fold_left
       (fun mc i =>
          let marker := segment markerPoses (i * 3) 3 in
          let name := nth i (mMarkerNames p) String.EmptyString in
          if map_count observedMarkerPoses name
          then
            let diff := vsub (map_at observedMarkerPoses name []) marker in
            let thisMarkerCost := if mMarkerUseL1 p then norm diff else squaredNorm diff in
            ((fst mc + thisMarkerCost)%s, snd mc + 1)
          else mc)
       (seq 0 (length (mMarkerNames p))) (markerRMS acc, markerCount acc) in
   (* Add joints *)
   jointPoses <- gets (fun sk => getJointWorldPositions sk (joints init)) ;;
   let jointCenters := col (nth trial (jointCenters init) []) t in
   let jointAxis := col (nth trial (jointAxis init) []) t in
   let jointRMS' :=
     fold_left
       (fun r i =>
          (r + squaredNorm (vsub (segment jointPoses (i * 3) 3)
                                 (segment jointCenters (i * 3) 3))
               * at_ (jointWeights init) i)%s)
       (seq 0 (length (jointWeights init))) (jointRMS acc) in
   let axisRMS' :=
     fold_left
       (fun r i =>
          let axisCenter := segment jointAxis (i * 6) 3 in
          let axisDir := normalized (segment jointAxis (i * 6 + 3) 3) in
          let actualJointPos := segment jointPoses (i * 3) 3 in
          (* Subtract out any component parallel to the axis *)
          let jointDiff := vsub actualJointPos axisCenter in
          let jointDiff := vsub jointDiff (vscale (dot jointDiff axisDir) axisDir) in
          (r + squaredNorm jointDiff * at_ (axisWeights init) i)%s)
       (seq 0 (length (axisWeights init))) (axisRMS acc) in
   (* Add regularization *)
   let poseRegularization' :=
     (poseRegularization acc
      + mRegularizePoses p * (s_one / s_of_nat (totalTimesteps p))
        * squaredNorm (vsub (col (nth trial (mPoses p) []) t)
                            (col (nth trial (originalPoses init) []) t)))%s in
   ret (mkLossTerms residualRMS' markerRMS' poseRegularization' jointRMS' axisRMS'
          markerCount'))%skel.

(** The two nested loops of [computeLoss]. *)
Definition loss_terms (p : t) : SkelM s_t LossTerms :=
  for_each (seq 0 (length (mPoses p)))
    (mkLossTerms s_zero s_zero s_zero s_zero s_zero 0)
    (fun acc trial =>
       for_each (seq 0 (cols (nth trial (mPoses p) []))) acc (loss_frame p trial)).

(** The regularization of the marker offsets in [computeLoss]. *)
Definition markerRegularization (p : t) : s_t :=
  fold_left
    (fun r i =>
       let name := nth i (mMarkerNames p) String.EmptyString in
       if map_count (originalMarkerOffsets (mInit p)) name
       then
         (r + (if nth i (mMarkerIsTracking p) false
               then mRegularizeTrackingMarkerOffsets p
               else mRegularizeAnatomicalMarkerOffsets p)
              * (s_one / s_of_nat (length (mMarkerNames p)))
              * squaredNorm (vsub (snd (nth i (mMarkers p) (0, [])))
                                  (map_at (originalMarkerOffsets (mInit p)) name [])))%s
       else r)
    (seq 0 (length (mMarkerNames p))) s_zero.

(** [computeLoss(x, logExplanation)].  The explanation is only printed. *)
Definition computeLoss (st : t * Skeleton s_t) (x : Vec s_t) (logExplanation : bool)
  : Outcome (s_t * (t * Skeleton s_t)) :=
  let (p, sk) := unflatten st x in
  let init := mInit p in
  let sum := s_zero in
  if length (probablyMissingGRF init) <? length (poseTrials init)
  then Exited 1
  else
    let groups := s_of_nat (getNumScaleGroups sk) in
    let massRegularization :=
      (mRegularizeMasses p * (s_one / groups)
       * squaredNorm (vsub (getGroupMasses sk) (originalGroupMasses init)))%s in
    let sum := (sum + massRegularization)%s in
    let comRegularization :=
      (mRegularizeCOMs p * (s_one / groups)
       * squaredNorm (vsub (getGroupCOMs sk) (originalGroupCOMs init)))%s in
    let sum := (sum + comRegularization)%s in
    let inertiaRegularization :=
      (mRegularizeInertias p * (s_one / groups)
       * squaredNorm (vsub (getGroupInertias sk) (originalGroupInertias init)))%s in
    let sum := (sum + inertiaRegularization)%s in
    let scaleRegularization :=
      (mRegularizeBodyScales p * (s_one / groups)
       * squaredNorm (vsub (getGroupScales sk) (originalGroupScales init)))%s in
    let sum := (sum + scaleRegularization)%s in
    let sum := (sum + markerRegularization p)%s in
    let sk := clearExternalForces sk in
    let (terms, sk) := loss_terms p sk in
    let sum := (sum + residualRMS terms)%s in
    let markerRMS := (markerRMS terms * mMarkerWeight p)%s in
    let markerRMS :=
      if 0 <? markerCount terms
      then (markerRMS / s_of_nat (markerCount terms))%s else markerRMS in
    let sum := (sum + markerRMS)%s in
    let jointRMS := (jointRMS terms * mJointWeight p)%s in
    let sum := (sum + jointRMS)%s in
    let axisRMS := (axisRMS terms * mJointWeight p)%s in
    let sum := (sum + axisRMS)%s in
    let sum := (sum + poseRegularization terms)%s in
    Returned (sum, (p, sk)).

(** *** The gradient *)

(** The residual part of a gradient block: skipped on frames flagged as
    missing their ground-reaction force. *)
Definition residual_gradient (p : t) (trial t : nat) (wrt : WithRespectTo s_t)
    (cursor dim : nat) (grad : Vec s_t) : SkelM s_t (Vec s_t) :=
  (if negb (missingGRF p trial t)
   then
     g <- ResidualForceHelper.calculateResidualNormGradientWrt (mResidualHelper p)
            (col (nth trial (mPoses p) []) t)
            (col (nth trial (mVels p) []) t)
            (col (nth trial (mAccs p) []) t)
            (col (nth trial (grfTrials (mInit p)) []) t)
            wrt (mResidualUseL1 p) ;;
     ret (add_segment grad cursor dim
            (vscale (mResidualWeight p * (s_one / s_of_nat (totalAccTimesteps p)))%s g))
   else ret grad)%skel.

(** The number of observed markers over all frames. *)
Definition observedMarkerCount (p : t) : nat :=
  fold_left
    (fun n trial =>
       fold_left
         (fun n t =>
            let markerObservations :=
              nth t (nth trial (markerObservationTrials (mInit p)) []) [] in
            fold_left
              (fun n i =>
                 if map_count markerObservations (nth i (mMarkerNames p) String.EmptyString)
                 then n + 1 else n)
              (seq 0 (length (mMarkers p))) n)
         (seq 0 (cols (nth trial (mPoses p) []))) n)
    (seq 0 (length (mPoses p))) 0.

(** The body of [computeGradient]'s loop over the frames [t] of a trial;
    it carries the gradient and [posesCursor]. *)
Definition gradient_frame (p : t) (dofs markerCount trial : nat)
    (acc : Vec s_t * nat) (t : nat) : SkelM s_t (Vec s_t * nat) :=
  let init := mInit p in
  let (grad, posesCursor) := acc in
  let markerScales lossGradWrtMarkerError :=
    gets (fun sk => getMarkerLossGradientWrtGroupScales sk (mMarkers p)
                      lossGradWrtMarkerError) in
  let markerOffsets lossGradWrtMarkerError :=
    gets (fun sk => getMarkerLossGradientWrtMarkerOffsets sk (mMarkers p)
                      lossGradWrtMarkerError) in
  let markerJoints lossGradWrtMarkerError :=
    gets (fun sk => getMarkerLossGradientWrtJoints sk (mMarkers p)
                      lossGradWrtMarkerError) in
  let jointScales jointGrad :=
    gets (fun sk => mat_transpose_vec
                      (getJointWorldPositionsJacobianWrtGroupScales sk (joints init))
                      jointGrad) in
  let jointPositions jointGrad :=
    gets (fun sk => mat_transpose_vec
                      (getJointWorldPositionsJacobianWrtJointPositions sk (joints init))
                      jointGrad) in
  (modify (setPositions (col (nth trial (mPoses p) []) t)) ;;
   let markerObservations := nth t (nth trial (markerObservationTrials init) []) [] in
   markerMap <- gets (fun sk => getMarkerMapWorldPositions sk (mMarkerMap p)) ;;
   let lossGradWrtMarkerError :=
     fold_left
       (fun g i =>
          let name := nth i (mMarkerNames p) String.EmptyString in
          if map_count markerObservations name
          then
            let markerOffset := vsub (map_at markerMap name []) (map_at markerObservations name []) in
            let markerOffset :=
              if mMarkerUseL1 p then normalized markerOffset
              else vscale_r markerOffset (s_of_Z 2) in
            write_segment g (i * 3) 3
              (vscale (mMarkerWeight p / s_of_nat markerCount)%s markerOffset)
          else g)
       (seq 0 (length (mMarkers p))) (zeros (length (mMarkers p) * 3)) in
   worldJoints <- gets (fun sk => getJointWorldPositions sk (joints init)) ;;
   let targetJoints := col (nth trial (jointCenters init) []) t in
   let targetAxis := col (nth trial (jointAxis init) []) t in
   let jointGrad :=
     fold_left
       (fun g i =>
          let worldDiff := vsub (segment worldJoints (i * 3) 3) (segment targetJoints (i * 3) 3) in
          let g := add_segment g (i * 3) 3
                     (vscale_r (vscale (s_of_Z 2) worldDiff) (at_ (jointWeights init) i)) in
          let axisDiff := vsub (segment worldJoints (i * 3) 3) (segment targetAxis (i * 6) 3) in
          let axis := normalized (segment targetAxis (i * 6 + 3) 3) in
          let axisDiff := vsub axisDiff (vscale (dot axisDiff axis) axis) in
          add_segment g (i * 3) 3
            (vscale_r (vscale (s_of_Z 2) axisDiff) (at_ (axisWeights init) i)))
       (seq 0 (length (joints init))) (zeros (length (joints init) * 3)) in
   let jointGrad := vscale_r jointGrad (mJointWeight p) in
   numGroups <- gets (@getNumScaleGroups s_t) ;;
   scaleDim <- gets (@getGroupScaleDim s_t) ;;
   let poseRegularization :=
     vscale (mRegularizePoses p * s_of_Z 2 * (s_one / s_of_nat (totalTimesteps p)))%s
            (vsub (col (nth trial (mPoses p) []) t)
                  (col (nth trial (originalPoses init) []) t)) in
   if t <? cols (nth trial (mAccs p) [])
   then
     let cursor := 0 in
     st <- (if mIncludeMasses p
            then
              let dim := numGroups in
              grad <- residual_gradient p trial t GROUP_MASSES cursor dim grad ;;
              ret (grad, cursor + dim)
            else ret (grad, cursor)) ;;
     st <- (if mIncludeCOMs p
            then
              let dim := numGroups * 3 in
              grad <- residual_gradient p trial t GROUP_COMS (snd st) dim (fst st) ;;
              ret (grad, snd st + dim)
            else ret st) ;;
     st <- (if mIncludeInertias p
            then
              let dim := numGroups * 6 in
              grad <- residual_gradient p trial t GROUP_INERTIAS (snd st) dim (fst st) ;;
              ret (grad, snd st + dim)
            else ret st) ;;
     st <- (if mIncludeBodyScales p
            then
              let dim := scaleDim in
              grad <- residual_gradient p trial t GROUP_SCALES (snd st) dim (fst st) ;;
              (* Record marker gradients *)
              g <- markerScales lossGradWrtMarkerError ;;
              let grad := add_segment grad (snd st) dim g in
              (* Record joint gradients *)
              g <- jointScales jointGrad ;;
              let grad := add_segment grad (snd st) dim g in
              ret (grad, snd st + dim)
            else ret st) ;;
     st <- (if mIncludeMarkerOffsets p
            then
              let dim := length (mMarkers p) * 3 in
              g <- markerOffsets lossGradWrtMarkerError ;;
              ret (add_segment (fst st) (snd st) dim g, snd st + dim)
            else ret st) ;;
     let grad := fst st in
     if mIncludePoses p
     then
       grad <- residual_gradient p trial t POSITION posesCursor dofs grad ;;
       (* Record marker gradients *)
       g <- markerJoints lossGradWrtMarkerError ;;
       let grad := add_segment grad posesCursor dofs g in
       (* Record regularization *)
       let grad := add_segment grad posesCursor dofs poseRegularization in
       (* Record joint gradients *)
       g <- jointPositions jointGrad ;;
       let grad := add_segment grad posesCursor dofs g in
       let posesCursor := posesCursor + dofs in
       grad <- residual_gradient p trial t VELOCITY posesCursor dofs grad ;;
       let posesCursor := posesCursor + dofs in
       grad <- residual_gradient p trial t ACCELERATION posesCursor dofs grad ;;
       let posesCursor := posesCursor + dofs in
       ret (grad, posesCursor)
     else ret (grad, posesCursor)
   else
     let cursor := 0 in
     let cursor := if mIncludeMasses p then cursor + numGroups else cursor in
     let cursor := if mIncludeCOMs p then cursor + numGroups * 3 else cursor in
     let cursor := if mIncludeInertias p then cursor + numGroups * 6 else cursor in
     st <- (if mIncludeBodyScales p
            then
              let dim := scaleDim in
              (* Record marker gradients *)
              g <- markerScales lossGradWrtMarkerError ;;
              let grad := add_segment grad cursor dim g in
              (* Record joint gradients *)
              g <- jointScales jointGrad ;;
              let grad := add_segment grad cursor dim g in
              ret (grad, cursor + dim)
            else ret (grad, cursor)) ;;
     st <- (if mIncludeMarkerOffsets p
            then
              let dim := length (mMarkers p) * 3 in
              g <- markerOffsets lossGradWrtMarkerError ;;
              ret (add_segment (fst st) (snd st) dim g, snd st + dim)
            else ret st) ;;
     let grad := fst st in
     if mIncludePoses p
     then
       (* Record marker gradients *)
       g <- markerJoints lossGradWrtMarkerError ;;
       let grad := add_segment grad posesCursor dofs g in
       (* Record regularization *)
       let grad := add_segment grad posesCursor dofs poseRegularization in
       (* Record joint gradients *)
       g <- jointPositions jointGrad ;;
       let grad := add_segment grad posesCursor dofs g in
       let posesCursor := posesCursor + dofs in
       (* Skip over the velocities at this last timestep where they're
          available, they don't do anything *)
       let posesCursor :=
         if t <? cols (nth trial (mVels p) []) then posesCursor + dofs else posesCursor in
       ret (grad, posesCursor)
     else ret (grad, posesCursor))%skel.

(** The regularization blocks at the head of the gradient.  The marker
    block reads [mInit->originalMarkerOffsets[name]], which adds an entry
    for a name the map does not hold (Eigen leaves the coefficients of
    that entry unset; they are zeros here). *)
Definition gradient_regularization (p : t) (sk : Skeleton s_t) (grad : Vec s_t)
  : Vec s_t * nat * StrMap (Vec s_t) :=
  let init := mInit p in
  let groups := s_of_nat (getNumScaleGroups sk) in
  let posesCursor := 0 in
  let '(grad, posesCursor) :=
    if mIncludeMasses p
    then
      let dim := getNumScaleGroups sk in
      (add_segment grad posesCursor dim
         (vscale (mRegularizeMasses p * s_of_Z 2 * (s_one / groups))%s
                 (vsub (getGroupMasses sk) (originalGroupMasses init))),
       posesCursor + dim)
    else (grad, posesCursor) in
  let '(grad, posesCursor) :=
    if mIncludeCOMs p
    then
      let dim := getNumScaleGroups sk * 3 in
      (add_segment grad posesCursor dim
         (vscale (mRegularizeCOMs p * s_of_Z 2 * (s_one / groups))%s
                 (vsub (getGroupCOMs sk) (originalGroupCOMs init))),
       posesCursor + dim)
    else (grad, posesCursor) in
  let '(grad, posesCursor) :=
    if mIncludeInertias p
    then
      let dim := getNumScaleGroups sk * 6 in
      (add_segment grad posesCursor dim
         (vscale (mRegularizeInertias p * s_of_Z 2 * (s_one / groups))%s
                 (vsub (getGroupInertias sk) (originalGroupInertias init))),
       posesCursor + dim)
    else (grad, posesCursor) in
  let '(grad, posesCursor) :=
    if mIncludeBodyScales p
    then
      let dim := getGroupScaleDim sk in
      (add_segment grad posesCursor dim
         (vscale (mRegularizeBodyScales p * s_of_Z 2 * (s_one / groups))%s
                 (vsub (getGroupScales sk) (originalGroupScales init))),
       posesCursor + dim)
    else (grad, posesCursor) in
  if mIncludeMarkerOffsets p
  then
    fold_left
      (fun st i =>
         let '(grad, posesCursor, offsets) := st in
         let (original, offsets) :=
           map_subscript offsets (nth i (mMarkerNames p) String.EmptyString) (zeros 3) in
         (add_segment grad posesCursor 3
            (vscale (s_of_Z 2
                     * (if nth i (mMarkerIsTracking p) false
                        then mRegularizeTrackingMarkerOffsets p
                        else mRegularizeAnatomicalMarkerOffsets p)
                     * (s_one / s_of_nat (length (mMarkerNames p))))%s
                    (vsub (snd (nth i (mMarkers p) (0, []))) original)),
          posesCursor + 3, offsets))
      (seq 0 (length (mMarkers p))) (grad, posesCursor, originalMarkerOffsets init)
  else (grad, posesCursor, originalMarkerOffsets init).

(** [mInit->originalMarkerOffsets = offsets] *)
Definition with_originalMarkerOffsets (init : DynamicsInitialization s_t)
    (offsets : StrMap (Vec s_t)) : DynamicsInitialization s_t :=
  mkInit (poseTrials init) (trialTimesteps init) (grfTrials init) (forcePlateTrials init)
    (markerObservationTrials init) (originalPoses init)
    (originalGroupMasses init) (originalGroupCOMs init) (originalGroupInertias init)
    (originalGroupScales init) offsets
    (joints init) (jointCenters init) (jointAxis init) (jointWeights init) (axisWeights init)
    (grfBodyNodes init) (contactBodies init) (grfBodyContactSphereRadius init)
    (groundHeight init) (flatGround init) (defaultForcePlateCorners init)
    (grfBodyForceActive init) (grfBodySphereInContact init) (grfBodyOffForcePlate init)
    (probablyMissingGRF init).

(** [computeGradient(x)] *)
Definition computeGradient (st : t * Skeleton s_t) (x : Vec s_t)
  : Outcome (Vec s_t * (t * Skeleton s_t)) :=
  let (p, sk) := unflatten st x in
  let grad := zeros (getProblemSize p sk) in
  let dofs := getNumDofs sk in
  if length (probablyMissingGRF (mInit p)) <? length (poseTrials (mInit p))
  then Exited 1
  else
    let '(grad, posesCursor, offsets) := gradient_regularization p sk grad in
    let p := with_state p (with_originalMarkerOffsets (mInit p) offsets)
               (mMarkers p) (mPoses p) (mVels p) (mAccs p) (mLastX p) in
    let markerCount := observedMarkerCount p in
    let (acc, sk) :=
      for_each (seq 0 (length (mPoses p))) (grad, posesCursor)
        (fun acc trial =>
           for_each (seq 0 (cols (nth trial (mPoses p) []))) acc
             (gradient_frame p dofs markerCount trial))
        sk in
    Returned (fst acc, (p, sk)).

(** *** Comparing two gradients *)

(** [debugVector(fd, analytical, name, tol)]: is some entry of [fd]
    further from [analytical] than [tol] allows?  The relative error is
    tested for entries larger than 1 in magnitude, the absolute error
    otherwise.  The entries in error are printed (not modelled). *)
Definition debugVector (fd analytical : Vec s_t) (tol : s_t) : bool :=
  fold_left
    (fun anyError i =>
       let isError :=
         if s_gtb (s_abs (at_ fd i)) s_one
         then
           (* Test relative error for values that are larger than 1 *)
           s_gtb (s_abs ((at_ fd i - at_ analytical i) / at_ fd i)%s) tol
         else s_gtb (s_abs (at_ fd i - at_ analytical i)%s) tol in
       if isError then true else anyError)
    (seq 0 (length fd)) false.

(** [anyError |= debugVector(fd.segment(cursor, dim),
    analytical.segment(cursor, dim), ...); cursor += dim] *)
Definition debug_block (fd analytical : Vec s_t) (tol : s_t) (dim : nat)
    (st : nat * bool) : nat * bool :=
  let (cursor, anyError) := st in
  (cursor + dim,
   anyError || debugVector (segment fd cursor dim) (segment analytical cursor dim) tol).

(** [debugErrors(fd, analytical, tol)]: [debugVector] block by block, in
    the layout of [flatten()]. *)
Definition debugErrors (p : t) (sk : Skeleton s_t) (fd analytical : Vec s_t) (tol : s_t)
  : bool :=
  let check := debug_block fd analytical tol in
  let st := (0, false) in
  let st := if mIncludeMasses p then check (getNumScaleGroups sk) st else st in
  let st := if mIncludeCOMs p then check (getNumScaleGroups sk * 3) st else st in
  let st := if mIncludeInertias p then check (getNumScaleGroups sk * 6) st else st in
  let st := if mIncludeBodyScales p then check (getGroupScaleDim sk) st else st in
  let st :=
    if mIncludeMarkerOffsets p
    then fold_left (fun st _ => check 3 st) (seq 0 (length (mMarkers p))) st
    else st in
  let st :=
    if mIncludePoses p
    then
      let dofs := getNumDofs sk in
      fold_left
        (fun st trial =>
           let st :=
             fold_left (fun st _ => check dofs (check dofs (check dofs st)))
                       (seq 0 (cols (nth trial (mAccs p) []))) st in
           check dofs (check dofs (check dofs st)))
        (seq 0 (length (mPoses p))) st
    else st in
  snd st.

(** *** The best iterate *)

(** The three members that remember the best iterate the solver has
    reported: [mBestObjectiveValueIteration], [mBestObjectiveValue] and
    [mBestObjectiveValueState]. *)
Record BestObjective : Type := mkBest {
  mBestObjectiveValueIteration : Z;
  mBestObjectiveValue : s_t;
  mBestObjectiveValueState : Vec s_t
}.

(** [intermediate_callback(mode, iter, obj_value, inf_pr, ...)]: the other
    arguments are not read.  The result tells the solver to go on. *)
Definition intermediate_callback (p : t) (best : BestObjective)
    (iter : Z) (obj_value inf_pr : s_t) : bool * BestObjective :=
  if (obj_value <? mBestObjectiveValue best)%s && (s_abs inf_pr <? s_one)%s
  then (true, mkBest iter obj_value (mLastX p))
  else (true, best).
End Defs.
Arguments t s_t : clear implicits.
Arguments BestObjective s_t : clear implicits.

(** The limits the skeleton puts on its properties and on its motion
    ([getGroupMassesUpperBound()] and the like): code of [dynamics::Skeleton],
    which is not part of this file. *)
Class Limits (s_t : Type) : Type := {
  getGroupMassesUpperBound : Skeleton s_t -> Vec s_t;
  getGroupMassesLowerBound : Skeleton s_t -> Vec s_t;
  getGroupCOMUpperBound : Skeleton s_t -> Vec s_t;
  getGroupCOMLowerBound : Skeleton s_t -> Vec s_t;
  getGroupInertiasUpperBound : Skeleton s_t -> Vec s_t;
  getGroupInertiasLowerBound : Skeleton s_t -> Vec s_t;
  getGroupScalesUpperBound : Skeleton s_t -> Vec s_t;
  getGroupScalesLowerBound : Skeleton s_t -> Vec s_t;
  getPositionUpperLimits : Skeleton s_t -> Vec s_t;
  getPositionLowerLimits : Skeleton s_t -> Vec s_t;
  getVelocityUpperLimits : Skeleton s_t -> Vec s_t;
  getVelocityLowerLimits : Skeleton s_t -> Vec s_t;
  getAccelerationUpperLimits : Skeleton s_t -> Vec s_t;
  getAccelerationLowerLimits : Skeleton s_t -> Vec s_t
}.

Section Bounds.
Context {s_t : Type} `{Scalar s_t} `{Limits s_t}.

(** [Eigen::Vector3s::Ones() * k] *)
Definition ones_times (k : s_t) : Vec s_t := vscale_r [s_one; s_one; s_one] k.

(** The body of the loop over the trials in [flattenUpperBound()] and
    [flattenLowerBound()]: the same three limits for every frame, then
    position, velocity and position limits for the last two frames. *)
Definition flatten_bound_trial (dofs : nat) (posLimits velLimits accLimits : Vec s_t)
    (accs : list (Matrix s_t)) (st : Vec s_t * nat) (trial : nat) : Vec s_t * nat :=
  let st :=
    fold_left
      (fun st _ =>
         let st := put dofs posLimits st in
         let st := put dofs velLimits st in
         put dofs accLimits st)
      (seq 0 (cols (nth trial accs []))) st in
  (* Get the last two q's, and last dq *)
  let st := put dofs posLimits st in
  let st := put dofs velLimits st in
  put dofs posLimits st.

(** [flattenUpperBound()], with the cursor it ends on. *)
Definition flattenUpperBound_cursor (p : t s_t) (sk : Skeleton s_t) : Vec s_t * nat :=
  let st := (zeros (getProblemSize p sk), 0) in
  let st := if mIncludeMasses p
            then put (getNumScaleGroups sk) (getGroupMassesUpperBound sk) st else st in
  let st := if mIncludeCOMs p
            then put (getNumScaleGroups sk * 3) (getGroupCOMUpperBound sk) st else st in
  let st := if mIncludeInertias p
            then put (getNumScaleGroups sk * 6) (getGroupInertiasUpperBound sk) st else st in
  let st := if mIncludeBodyScales p
            then put (getGroupScaleDim sk) (getGroupScalesUpperBound sk) st else st in
  let st := if mIncludeMarkerOffsets p
            then fold_left (fun st _ => put 3 (ones_times (s_of_Z 5)) st)
                           (seq 0 (length (mMarkers p))) st
            else st in
  if mIncludePoses p
  then
    let dofs := getNumDofs sk in
    fold_left
      (flatten_bound_trial dofs (getPositionUpperLimits sk) (getVelocityUpperLimits sk)
         (getAccelerationUpperLimits sk) (mAccs p))
      (seq 0 (length (mPoses p))) st
  else st.

Definition flattenUpperBound (p : t s_t) (sk : Skeleton s_t) : Vec s_t :=
  fst (flattenUpperBound_cursor p sk).

(** [flattenLowerBound()], with the cursor it ends on. *)
Definition flattenLowerBound_cursor (p : t s_t) (sk : Skeleton s_t) : Vec s_t * nat :=
  let st := (zeros (getProblemSize p sk), 0) in
  let st := if mIncludeMasses p
            then put (getNumScaleGroups sk) (getGroupMassesLowerBound sk) st else st in
  let st := if mIncludeCOMs p
            then put (getNumScaleGroups sk * 3) (getGroupCOMLowerBound sk) st else st in
  let st := if mIncludeInertias p
            then put (getNumScaleGroups sk * 6) (getGroupInertiasLowerBound sk) st else st in
  let st := if mIncludeBodyScales p
            then put (getGroupScaleDim sk) (getGroupScalesLowerBound sk) st else st in
  let st := if mIncludeMarkerOffsets p
            then fold_left (fun st _ => put 3 (ones_times (s_of_Z (-5))) st)
                           (seq 0 (length (mMarkers p))) st
            else st in
  if mIncludePoses p
  then
    let dofs := getNumDofs sk in
    fold_left
      (flatten_bound_trial dofs (getPositionLowerLimits sk) (getVelocityLowerLimits sk)
         (getAccelerationLowerLimits sk) (mAccs p))
      (seq 0 (length (mPoses p))) st
  else st.

Definition flattenLowerBound (p : t s_t) (sk : Skeleton s_t) : Vec s_t :=
  fst (flattenLowerBound_cursor p sk).
End Bounds.
End DynamicsFitProblem.

(** ** DynamicsFitter *)

Module DynamicsFitter.
Section Defs.
Context {s_t : Type} `{Scalar s_t} `{Collaborators s_t}.

(** [std::numeric_limits<s_t>::infinity()] *)
Variable infinity : s_t.

(** The fitter: the skeleton is the shared one. *)
Record t : Type := mk {
  mMarkerMap : StrMap (Marker s_t);
  mTrackingMarkers : list String.string;
  mFootNodes : list nat
}.

(** Step 0: a ground-reaction body and its descendants that are not
    ground-reaction bodies themselves, breadth first.  The queue empties
    within one step per body of the skeleton. *)
Fixpoint extendContactBodies (sk : Skeleton s_t) (grfBodyNodes : list nat)
    (steps : nat) (queue extended : list nat) : list nat :=
  match steps, queue with
  | S steps', cursor :: queue' =>
      let children :=
        filter (fun child => negb (existsb (Nat.eqb child) grfBodyNodes))
               (getChildBodyNodes sk cursor) in
      extendContactBodies sk grfBodyNodes steps' (queue' ++ children) (extended ++ [cursor])
  | _, _ => extended
  end.

(** Steps 1.1 and 1.2: the height of the ground in a trial, and whether
    the ground is flat. *)
Definition estimateGroundHeight (plates : list (ForcePlate s_t)) (frames : nat)
  : s_t * bool :=
  let '(noGroundCorners, groundHeight, flatGround) :=
    fold_left
      (fun st corner =>
         let '(noGroundCorners, groundHeight, flatGround) := st in
         if (noGroundCorners : bool)
         then (false, at_ corner 1, flatGround)
         else if (s_abs (groundHeight - at_ corner 1) <? s_lit 1 8)%s
              then (noGroundCorners, groundHeight, false)
              else st)
      (flat_map (@corners s_t) plates) (true, infinity, true) in
  let '(noGroundCorners, groundHeight) :=
    if noGroundCorners
    then
      fold_left
        (fun st t =>
           fold_left
             (fun st forcePlate =>
                let '(noGroundCorners, groundHeight) := st in
                let height := at_ (nth t (centersOfPressure forcePlate) []) 1 in
                if (noGroundCorners : bool) then (false, height)
                else if (height <? groundHeight)%s then (noGroundCorners, height)
                     else st)
             plates st)
        (seq 0 frames) (noGroundCorners, groundHeight)
    else (noGroundCorners, groundHeight) in
  (groundHeight, flatGround).

(** 4.1: is the measured wrench of ground-reaction body [b] active? *)
Definition footActive (grf : Vec s_t) (b : nat) : bool :=
  s_gtb (squaredNorm (segment grf (b * 6) 6)) (s_lit 1 3).

(** The height of a body above the ground. *)
Definition heightAboveGround (sk : Skeleton s_t) (groundHeight : s_t) (body : nat) : s_t :=
  let worldPos := getWorldTranslation sk body in
  (at_ worldPos 1 - groundHeight)%s.

(** Step 2: the contact spheres grow until every frame with an active
    foot shows a contact.  (With no contact body closest to the ground,
    [closestBody] stays [-1] in the source and indexes outside the array;
    nothing is grown here.) *)
Definition growContactSpheres (init : DynamicsInitialization s_t) (trial : nat)
    (groundHeight : s_t) : SkelM s_t (list (list s_t)) :=
  let sizes0 := map (fun bodies => map (fun _ => s_zero) bodies) (contactBodies init) in
  for_each (seq 0 (cols (nth trial (poseTrials init) []))) sizes0
    (fun sizes t =>
       (modify (setPositions (col (nth trial (poseTrials init) []) t)) ;;
        for_each (seq 0 (length (grfBodyNodes init))) sizes
          (fun sizes b =>
             if footActive (col (nth trial (grfTrials init) []) t) b
             then
               (* Check which of the contact bodies is closest to the ground *)
               closest <-
                 for_each (seq 0 (length (nth b (contactBodies init) [])))
                   (infinity, None)
                   (fun st c =>
                      dist <- gets (fun sk => heightAboveGround sk groundHeight
                                                (nth c (nth b (contactBodies init) []) 0)) ;;
                      if (dist <? fst st)%s then ret (dist, Some c) else ret st) ;;
               (* If our closest sphere needs to expand to hit the ground,
                  then expand it *)
               match snd closest with
               | Some closestBody =>
                   if s_gtb (fst closest) (at_ (nth b sizes []) closestBody)
                   then ret (set_nth b (set_nth closestBody (fst closest) (nth b sizes [])) sizes)
                   else ret sizes
               | None => ret sizes
               end
             else ret sizes))%skel).

(** Step 3: the default force plate, needed when a plate has no corners:
    the bounding box of the centers of pressure, padded by 10cm. *)
Definition defaultForcePlate (plates : list (ForcePlate s_t)) (frames : nat)
    (groundHeight : s_t) : list (Vec s_t) :=
  let needDefaultForcePlate :=
    existsb (fun forcePlate => length (corners forcePlate) =? 0) plates in
  if needDefaultForcePlate
  then
    let '(minX, maxX, minZ, maxZ) :=
      fold_left
        (fun st t =>
           fold_left
             (fun st forcePlate =>
                let '(minX, maxX, minZ, maxZ) := st in
                let cop := nth t (centersOfPressure forcePlate) [] in
                let minX := if (at_ cop 0 <? minX)%s then at_ cop 0 else minX in
                let maxX := if s_gtb (at_ cop 0) maxX then at_ cop 0 else maxX in
                let minZ := if (at_ cop 2 <? minZ)%s then at_ cop 2 else minZ in
                let maxZ := if s_gtb (at_ cop 2) maxZ then at_ cop 2 else maxZ in
                (minX, maxX, minZ, maxZ))
             plates st)
        (seq 0 frames) (infinity, s_opp infinity, infinity, s_opp infinity) in
    (* Add 10cm to each side, to be very conservative *)
    let padding := s_lit 10 2 in
    let minX := (minX - padding)%s in
    let maxX := (maxX + padding)%s in
    let minZ := (minZ - padding)%s in
    let maxZ := (maxZ + padding)%s in
    [[minX; groundHeight; minZ]; [minX; groundHeight; maxZ];
     [maxX; groundHeight; maxZ]; [maxX; groundHeight; minZ]]
  else [].

(** 4.3.1: is some contact body of [bodies] over a force plate that has
    corners, or over the default plate?  The search stops at the first
    body that is. *)
Definition anyInPlate (sk : Skeleton s_t) (bodies : list nat)
    (plates : list (ForcePlate s_t)) (defaultCorners : list (Vec s_t)) : bool :=
  existsb
    (fun body =>
       let worldPos := getWorldTranslation sk body in
       existsb
         (fun plate =>
            (0 <? length (corners plate))
            && convex2DShapeContains worldPos (corners plate) (worldOrigin plate))
         plates
       || ((0 <? length defaultCorners)
           && convex2DShapeContains worldPos defaultCorners (nth 0 defaultCorners [])))
    bodies.

(** What step 4 records for one ground-reaction body in one frame:
    [footActive], [inContact] and [contactIsSus]. *)
Definition contact_body (init : DynamicsInitialization s_t) (sk : Skeleton s_t)
    (trial t : nat) (groundHeight : s_t) (sizes : list (list s_t))
    (defaultCorners : list (Vec s_t)) (b : nat) : bool * bool * bool :=
  (* 4.1. Check the GRF to see if we are measured as being in contact *)
  let footActive := footActive (col (nth trial (grfTrials init) []) t) b in
  (* 4.2. Check all the contact bodies assigned to this GRF node *)
  let inContact :=
    fold_left
      (fun inContact c =>
         let dist := heightAboveGround sk groundHeight (nth c (nth b (contactBodies init) []) 0) in
         if (dist <? at_ (nth b sizes []) c)%s then true else inContact)
      (seq 0 (length (nth b (contactBodies init) []))) false in
  (* 4.3. In contact by the spheres but without any GRF: suspicious unless
     a contact body is over a plate *)
  let contactIsSus :=
    if inContact && negb footActive
    then negb (anyInPlate sk (nth b (contactBodies init) [])
                 (nth trial (forcePlateTrials init) []) defaultCorners)
    else false in
  (footActive, inContact, contactIsSus).

(** Step 4 for one frame: the three flags of every ground-reaction body,
    and [anyContactIsSus]. *)
Definition contact_frame (init : DynamicsInitialization s_t) (trial : nat)
    (groundHeight : s_t) (sizes : list (list s_t)) (defaultCorners : list (Vec s_t))
    (t : nat) : SkelM s_t (list bool * list bool * list bool * bool) :=
  (modify (setPositions (col (nth trial (poseTrials init) []) t)) ;;
   sk <- gets (fun sk => sk) ;;
   let perBody :=
     map (contact_body init sk trial t groundHeight sizes defaultCorners)
         (seq 0 (length (grfBodyNodes init))) in
   let forceActive := map (fun r => fst (fst r)) perBody in
   let sphereInContact := map (fun r => snd (fst r)) perBody in
   let offForcePlate := map snd perBody in
   let anyContactIsSus := existsb (fun r => snd r) perBody in
   ret (forceActive, sphereInContact, offForcePlate, anyContactIsSus))%skel.

(** Appending what a trial produced to the lists of [init]. *)
Definition record_trial (init : DynamicsInitialization s_t)
    (sizes : list (list s_t)) (groundHeight' : s_t) (flatGround' : bool)
    (defaultCorners : list (list (Vec s_t)))
    (frames : list (list bool * list bool * list bool * bool)) : DynamicsInitialization s_t :=
  mkInit (poseTrials init) (trialTimesteps init) (grfTrials init) (forcePlateTrials init)
    (markerObservationTrials init) (originalPoses init)
    (originalGroupMasses init) (originalGroupCOMs init) (originalGroupInertias init)
    (originalGroupScales init) (originalMarkerOffsets init)
    (joints init) (jointCenters init) (jointAxis init) (jointWeights init) (axisWeights init)
    (grfBodyNodes init) (contactBodies init)
    (grfBodyContactSphereRadius init ++ [sizes])
    (groundHeight init ++ [groundHeight'])
    (flatGround init ++ [flatGround'])
    defaultCorners
    (grfBodyForceActive init ++ [map (fun r => fst (fst (fst r))) frames])
    (grfBodySphereInContact init ++ [map (fun r => snd (fst (fst r))) frames])
    (grfBodyOffForcePlate init ++ [map (fun r => snd (fst r)) frames])
    (probablyMissingGRF init ++ [map snd frames]).

(** Step 3: the default plate of the trial is appended to the list kept in
    [init] and the list's entry at [trial] is prepared in place.  The
    plates' own corners are copied and sorted into a local list that is
    not read again. *)
Definition appendDefaultForcePlate (init : DynamicsInitialization s_t)
    (trial : nat) (groundHeight : s_t) : list (list (Vec s_t)) :=
  let plates := nth trial (forcePlateTrials init) [] in
  let frames := cols (nth trial (poseTrials init) []) in
  let defaultCorners := defaultForcePlate plates frames groundHeight in
  let allDefaultCorners := defaultForcePlateCorners init ++ [defaultCorners] in
  if 0 <? length (nth trial allDefaultCorners [])
  then set_nth trial
         (prepareConvex2DShape (nth trial allDefaultCorners [])
            (nth 0 (nth trial allDefaultCorners []) []))
         allDefaultCorners
  else allDefaultCorners.

(** The body of [estimateFootGroundContacts]'s loop over the trials. *)
Definition estimateFootGroundContacts_trial (init : DynamicsInitialization s_t)
    (trial : nat) : SkelM s_t (DynamicsInitialization s_t) :=
  let plates := nth trial (forcePlateTrials init) [] in
  let frames := cols (nth trial (poseTrials init) []) in
  let (groundHeight, flatGround) := estimateGroundHeight plates frames in
  (sizes <- growContactSpheres init trial groundHeight ;;
   let allDefaultCorners := appendDefaultForcePlate init trial groundHeight in
   results <-
     for_each (seq 0 frames) []
       (fun out t =>
          r <- contact_frame init trial groundHeight sizes
                 (nth trial allDefaultCorners []) t ;;
          ret (out ++ [r])) ;;
   ret (record_trial init sizes groundHeight flatGround allDefaultCorners results))%skel.

(** [contactBodies] after step 0. *)
Definition with_contactBodies (init : DynamicsInitialization s_t)
    (bodies : list (list nat)) : DynamicsInitialization s_t :=
  mkInit (poseTrials init) (trialTimesteps init) (grfTrials init) (forcePlateTrials init)
    (markerObservationTrials init) (originalPoses init)
    (originalGroupMasses init) (originalGroupCOMs init) (originalGroupInertias init)
    (originalGroupScales init) (originalMarkerOffsets init)
    (joints init) (jointCenters init) (jointAxis init) (jointWeights init) (axisWeights init)
    (grfBodyNodes init) bodies (grfBodyContactSphereRadius init)
    (groundHeight init) (flatGround init) (defaultForcePlateCorners init)
    (grfBodyForceActive init) (grfBodySphereInContact init) (grfBodyOffForcePlate init)
    (probablyMissingGRF init).

(** Step 0: the ground-reaction bodies are expanded to their children
    that are not ground-reaction bodies themselves. *)
Definition extendAllContactBodies (init : DynamicsInitialization s_t)
  : SkelM s_t (DynamicsInitialization s_t) :=
  (steps <- gets getNumBodyNodes ;;
   extended <-
     for_each (grfBodyNodes init) (contactBodies init)
       (fun bodies rootBody =>
          e <- gets (fun sk => extendContactBodies sk (grfBodyNodes init) steps [rootBody] []) ;;
          ret (bodies ++ [e])) ;;
   ret (with_contactBodies init extended))%skel.

(** [estimateFootGroundContacts(init)] *)
Definition estimateFootGroundContacts (init : DynamicsInitialization s_t)
  : SkelM s_t (DynamicsInitialization s_t) :=
  (init0 <- extendAllContactBodies init ;;
   for_each (seq 0 (length (forcePlateTrials init))) init0
     estimateFootGroundContacts_trial)%skel.

(** The initialization and the skeleton that the loop of
    [estimateFootGroundContacts] enters trial [trial] with. *)
Definition entering_trial (init : DynamicsInitialization s_t) (trial : nat)
  : SkelM s_t (DynamicsInitialization s_t) :=
  (init0 <- extendAllContactBodies init ;;
   for_each (seq 0 trial) init0 estimateFootGroundContacts_trial)%skel.

(** The ground height, the sphere sizes and the default plate that a
    trial is analysed with. *)
Definition trial_groundHeight (init : DynamicsInitialization s_t) (trial : nat) : s_t :=
  fst (estimateGroundHeight (nth trial (forcePlateTrials init) [])
         (cols (nth trial (poseTrials init) []))).
Definition trial_sizes (init : DynamicsInitialization s_t) (trial : nat)
    (sk : Skeleton s_t) : list (list s_t) :=
  fst (growContactSpheres init trial (trial_groundHeight init trial) sk).
Definition trial_defaultCorners (init : DynamicsInitialization s_t) (trial : nat)
  : list (Vec s_t) :=
  nth trial (appendDefaultForcePlate init trial (trial_groundHeight init trial)) [].

(** The default plate that step 3 synthesizes for a trial, as step 4
    would test it: prepared in place when it has corners. *)
Definition synthesizedDefaultPlate (init : DynamicsInitialization s_t) (trial : nat)
  : list (Vec s_t) :=
  let plates := nth trial (forcePlateTrials init) [] in
  let frames := cols (nth trial (poseTrials init) []) in
  let defaultCorners := defaultForcePlate plates frames (trial_groundHeight init trial) in
  if 0 <? length defaultCorners
  then prepareConvex2DShape defaultCorners (nth 0 defaultCorners [])
  else defaultCorners.

(** The two weight setters of [runOptimization], as called on its
    problem: a weight is squared unless the problem's L1 flag is set. *)
Definition setWeights (residualWeight markerWeight : s_t)
    (problem : DynamicsFitProblem.t s_t) : DynamicsFitProblem.t s_t :=
  let problem :=
    DynamicsFitProblem.setResidualWeight
      (if DynamicsFitProblem.mResidualUseL1 problem
       then residualWeight else (residualWeight * residualWeight)%s) problem in
  DynamicsFitProblem.setMarkerWeight
    (if DynamicsFitProblem.mMarkerUseL1 problem
     then markerWeight else (markerWeight * markerWeight)%s) problem.

(** [runOptimization]: the problem that is handed to the solver, when the
    solver initializes ([app->Initialize() == Solve_Succeeded]) and the
    constructor returns. *)
Definition runOptimization_problem (fitter : t) (initialized : bool)
    (init : DynamicsInitialization s_t) (skeleton : Skeleton s_t)
    (residualWeight markerWeight : s_t)
    (includeMasses includeCOMs includeInertias includeBodyScales includePoses
       includeMarkerOffsets : bool)
  : option (DynamicsFitProblem.t s_t) :=
  if negb initialized
  then None
  else
    match DynamicsFitProblem.create init skeleton (mMarkerMap fitter)
            (mTrackingMarkers fitter) (mFootNodes fitter) with
    | None => None
    | Some problem =>
        let problem := setWeights residualWeight markerWeight problem in
        let problem := DynamicsFitProblem.setIncludeMasses includeMasses problem in
        let problem := DynamicsFitProblem.setIncludeCOMs includeCOMs problem in
        let problem := DynamicsFitProblem.setIncludeInertias includeInertias problem in
        let problem := DynamicsFitProblem.setIncludeBodyScales includeBodyScales problem in
        let problem := DynamicsFitProblem.setIncludePoses includePoses problem in
        let problem := DynamicsFitProblem.setIncludeMarkerOffsets includeMarkerOffsets problem in
        Some problem
    end.
End Defs.
End DynamicsFitter.

(** ** Two readings of [s_t] *)

(** [s_t = double]: binary64 floats with the IEEE operations. *)
Definition float_of_Z (z : Z) : float :=
  match z with
  | Z0 => PrimFloat.zero
  | Zpos _ => PrimFloat.of_uint63 (Uint63.of_Z z)
  | Zneg p => PrimFloat.opp (PrimFloat.of_uint63 (Uint63.of_Z (Zpos p)))
  end.

#[export] Instance float_Scalar : Scalar float := {|
  s_zero := PrimFloat.zero;
  s_one := PrimFloat.one;
  s_add := PrimFloat.add;
  s_sub := PrimFloat.sub;
  s_mul := PrimFloat.mul;
  s_div := PrimFloat.div;
  s_opp := PrimFloat.opp;
  s_sqrt := PrimFloat.sqrt;
  s_eqb := PrimFloat.eqb;
  s_ltb := PrimFloat.ltb;
  s_of_Z := float_of_Z
|}.

(** The real numbers: what the floating-point operations approximate.
    Statements are made at this instance only where rounding cannot change
    the outcome: where comparisons of the data decide them. *)
Definition R_eqb (a b : R) : bool := if Req_dec_T a b then true else false.
Definition R_ltb (a b : R) : bool := if Rlt_dec a b then true else false.

#[export] Instance R_Scalar : Scalar R := {|
  s_zero := 0%R;
  s_one := 1%R;
  s_add := Rplus;
  s_sub := Rminus;
  s_mul := Rmult;
  s_div := Rdiv;
  s_opp := Ropp;
  s_sqrt := sqrt;
  s_eqb := R_eqb;
  s_ltb := R_ltb;
  s_of_Z := IZR
|}.

(** ** A skeleton to evaluate on

    A single free body with unit inertia and no gravity: the mass matrix is
    the identity, a contact wrench acts on the root coordinates as it is,
    and there are no markers or joints to track.  Finite differences are
    central, one pair of probes per column. *)
Section FreeBody.
Context {s_t : Type} `{Scalar s_t}.

Definition unit_vector (n j : nat) : Vec s_t :=
  map (fun i => if i =? j then s_one else s_zero) (seq 0 n).

Definition central_difference_probes (eps : s_t) (n : nat) : list (s_t * nat) :=
  flat_map (fun dof => [(eps, dof); (s_opp eps, dof)]) (seq 0 n).

Fixpoint central_differences {A} (diff : A -> A -> A) (probed : list A) : list A :=
  match probed with
  | plus :: minus :: rest => diff plus minus :: central_differences diff rest
  | _ => []
  end.

Definition free_body : Collaborators s_t := {|
  getMassMatrix := fun sk => map (unit_vector (getNumDofs sk)) (seq 0 (getNumDofs sk));
  getCoriolisAndGravityForces := fun sk => zeros (getNumDofs sk);
  getJacobianOfM := fun sk _ wrt => repeat (zeros (getNumDofs sk)) (wrt_dim wrt sk);
  getJacobianOfC := fun sk wrt => repeat (zeros (getNumDofs sk)) (wrt_dim wrt sk);
  computeTau := fun sk _ wrench =>
    firstn (getNumDofs sk) (wrench ++ zeros (getNumDofs sk));
  getJacobianOfTauWrt := fun sk _ _ wrt => repeat (zeros (getNumDofs sk)) (wrt_dim wrt sk);
  clearExternalForces := fun sk => sk;
  finiteDifference_probes := fun eps _ n => central_difference_probes eps n;
  finiteDifference_matrix := fun eps _ _ probed =>
    central_differences
      (fun plus minus => vdiv (vsub plus minus) (s_of_Z 2 * eps)%s) probed;
  finiteDifference_vector := fun eps _ _ probed =>
    central_differences (fun plus minus => ((plus - minus) / (s_of_Z 2 * eps))%s) probed;
  getMarkerWorldPositions := fun _ markers => flat_map snd markers;
  getJointWorldPositions := fun _ joints => zeros (length joints * 3);
  getMarkerMapWorldPositions := fun _ markerMap =>
    map (fun kv => (fst kv, snd (snd kv))) markerMap;
  getMarkerLossGradientWrtGroupScales := fun sk _ _ => zeros (getGroupScaleDim sk);
  getMarkerLossGradientWrtMarkerOffsets := fun _ _ g => g;
  getMarkerLossGradientWrtJoints := fun sk _ _ => zeros (getNumDofs sk);
  getJointWorldPositionsJacobianWrtGroupScales := fun sk joints =>
    repeat (zeros (length joints * 3)) (getGroupScaleDim sk);
  getJointWorldPositionsJacobianWrtJointPositions := fun sk joints =>
    repeat (zeros (length joints * 3)) (getNumDofs sk);
  getWorldTranslation := fun sk _ => segment (getPositions sk) 3 3;
  getNumBodyNodes := fun _ => 1;
  getChildBodyNodes := fun _ _ => [];
  prepareConvex2DShape := fun shape _ => shape;
  convex2DShapeContains := fun point shape _ =>
    match shape with
    | lo :: _ :: hi :: _ =>
        negb (at_ point 0 <? at_ lo 0)%s && negb (at_ hi 0 <? at_ point 0)%s
        && negb (at_ point 2 <? at_ lo 2)%s && negb (at_ hi 2 <? at_ point 2)%s
    | _ => false
    end
|}.
End FreeBody.

(** ** Vocabulary of the statements *)

Section Vocabulary.
Context {s_t : Type} `{Scalar s_t} `{Collaborators s_t}.
Import DynamicsFitProblem.

(** The guard of [unflatten]: [x] has the size of [mLastX] and compares
    equal to it, coefficient by coefficient. *)
Definition sameAsLastX (p : t s_t) (x : Vec s_t) : bool :=
  (length x =? length (mLastX p)) && cwiseEqual_all x (mLastX p).

(** The shape the constructor gives the trajectories: the three lists run
    over the same trials, and in each trial there are two more frames of
    positions and one more of velocities than of accelerations. *)
Definition trial_shapes_ok (p : t s_t) : bool :=
  (length (mVels p) =? length (mPoses p))
  && (length (mAccs p) =? length (mPoses p))
  && forallb
       (fun trial =>
          (cols (nth trial (mPoses p) []) =? cols (nth trial (mAccs p) []) + 2)
          && (cols (nth trial (mVels p) []) =? cols (nth trial (mAccs p) []) + 1))
       (seq 0 (length (mPoses p))).

(** The number of entries a block takes: its dimension when it is
    included, nothing otherwise. *)
Definition block_size (included : bool) (dim : nat) : nat :=
  if included then dim else 0.

(** [flat] has the size of [x] and agrees with it below the cursor. *)
Definition agrees_upto (x : Vec s_t) (c : nat) (flat : Vec s_t) : Prop :=
  length flat = length x /\ firstn c flat = firstn c x.

(** The frames of one trial hold the blocks of [x] that start at [c]. *)
Definition trial_holds (x : Vec s_t) (d c : nat) (poses vels accs : Matrix s_t) : Prop :=
  let n := cols accs in
  cols poses = n + 2 /\ cols vels = n + 1 /\
  (forall t, t < n ->
     col poses t = segment x (c + t * (3 * d)) d /\
     col vels t = segment x (c + t * (3 * d) + d) d /\
     col accs t = segment x (c + t * (3 * d) + 2 * d) d) /\
  col poses n = segment x (c + n * (3 * d)) d /\
  col vels n = segment x (c + n * (3 * d) + d) d /\
  col poses (n + 1) = segment x (c + n * (3 * d) + 2 * d) d.

(** The number of entries one trial takes in the flattened vector, and the
    offset of a trial's block from the start of the trajectories. *)
Definition trial_size (d : nat) (accs : Matrix s_t) : nat := cols accs * d * 3 + d * 3.
Fixpoint trials_offset (d : nat) (accs : list (Matrix s_t)) (n : nat) : nat :=
  match n with
  | O => 0
  | S n' => trials_offset d accs n' + trial_size d (nth n' accs [])
  end.

(** The sum of the generalized forces of the contact wrenches, one
    six-entry wrench per contact body, at a skeleton state. *)
Definition contact_forces (h : ResidualForceHelper.t) (sk : Skeleton s_t)
    (forcesConcat : Vec s_t) : Vec s_t :=
  fold_left vadd
    (map (fun i => computeTau sk (nth i (ResidualForceHelper.mForces h) 0)
                     (segment forcesConcat (i * 6) 6))
         (seq 0 (length (ResidualForceHelper.mForces h))))
    (zeros (getNumDofs sk)).

(** The first six entries of [M ddq + C - F]: mass matrix, Coriolis and
    gravity forces and contact forces of the skeleton put in the state
    [(q, dq, ddq)]. *)
Definition inverse_dynamics_residual (h : ResidualForceHelper.t) (sk : Skeleton s_t)
    (q dq ddq forcesConcat : Vec s_t) : Vec s_t :=
  let at_state := setAccelerations ddq (setVelocities dq (setPositions q sk)) in
  head 6
    (vsub (vadd (mat_vec (getNumDofs at_state) (getMassMatrix at_state) ddq)
                (getCoriolisAndGravityForces at_state))
          (contact_forces h at_state forcesConcat)).

(** The frames that enter the residual term: those with an acceleration
    sample that are not flagged as missing their ground-reaction force. *)
Definition unflagged_frames (p : t s_t) : list (nat * nat) :=
  flat_map
    (fun trial =>
       map (pair trial)
           (filter (fun t => (t <? cols (nth trial (mAccs p) []))
                             && negb (missingGRF p trial t))
                   (seq 0 (cols (nth trial (mPoses p) [])))))
    (seq 0 (length (mPoses p))).

(** The residual term as a sum over the unflagged frames, each residual
    norm weighted by the residual weight over a frame count [n]. *)
Definition residual_term (p : t s_t) (sk : Skeleton s_t) (n : nat) : s_t :=
  fold_left
    (fun acc frame =>
       (acc + mResidualWeight p * (s_one / s_of_nat n)
              * fst (residualNormAt p (fst frame) (snd frame) sk))%s)
    (unflagged_frames p) s_zero.

(** Does frame [k] of a trial enter the residual term? *)
Definition enters (p : t s_t) (trial k : nat) : bool :=
  (k <? cols (nth trial (mAccs p) [])) && negb (missingGRF p trial k).

(** What a frame adds to the residual term. *)
Definition added (p : t s_t) (sk0 : Skeleton s_t) (trial : nat) (r : s_t) (k : nat) : s_t :=
  s_add r (s_mul (s_mul (mResidualWeight p)
                        (s_div s_one (s_of_nat (totalAccTimesteps p))))
                 (fst (residualNormAt p trial k sk0))).

(** Two skeletons that differ in their positions at most. *)
Definition same_but_positions (sk1 sk2 : Skeleton s_t) : Prop :=
  setPositions [] sk1 = setPositions [] sk2.

(** What a call returned, if it did. *)
Definition outcome_value {A : Type} (o : Outcome A) : option A :=
  match o with
  | Returned a => Some a
  | Exited _ => None
  end.

(** The loss and the gradient a problem gives at [x], when the calls
    return, and the central difference of the loss along coordinate [i]
    with step [eps]. *)
Definition loss_at (st : t s_t * Skeleton s_t) (x : Vec s_t) : option s_t :=
  option_map fst (outcome_value (computeLoss st x false)).
Definition gradient_at (st : t s_t * Skeleton s_t) (x : Vec s_t) : option (Vec s_t) :=
  option_map fst (outcome_value (computeGradient st x)).
Definition central_difference (st : t s_t * Skeleton s_t) (x : Vec s_t) (i : nat)
    (eps : s_t) : option s_t :=
  match loss_at st (set_nth i (at_ x i + eps)%s x),
        loss_at st (set_nth i (at_ x i - eps)%s x) with
  | Some plus, Some minus => Some ((plus - minus) / (s_of_Z 2 * eps))%s
  | _, _ => None
  end.

(** Did the call end the process with this exit code?  Did it return? *)
Definition exited_with {A : Type} (code : Z) (o : Outcome A) : bool :=
  match o with
  | Exited c => (c =? code)%Z
  | Returned _ => false
  end.
Definition returned {A : Type} (o : Outcome A) : bool :=
  match o with
  | Exited _ => false
  | Returned _ => true
  end.

(** Is entry [i] of [fd] in error against [analytical]?  The test of
    [debugVector] for one entry. *)
Definition in_error (fd analytical : Vec s_t) (tol : s_t) (i : nat) : bool :=
  if s_gtb (s_abs (at_ fd i)) s_one
  then s_gtb (s_abs ((at_ fd i - at_ analytical i) / at_ fd i)%s) tol
  else s_gtb (s_abs (at_ fd i - at_ analytical i)%s) tol.

(** While the cursor of [debugErrors] stays within [fd], its flag says
    whether an entry below the cursor is in error. *)
Definition covered (fd analytical : Vec s_t) (tol : s_t) (st : nat * bool) : Prop :=
  fst st <= length fd ->
  snd st = existsb (in_error fd analytical tol) (seq 0 (fst st)).

(** The solver's reports of one run, fed to [intermediate_callback] in
    order: the problem as it is at the report (for [mLastX]), the
    iteration, the objective value and the primal infeasibility. *)
Definition run_callbacks (best : BestObjective s_t)
    (reports : list (t s_t * Z * s_t * s_t)) : BestObjective s_t :=
  fold_left
    (fun best report =>
       let '(p, iter, obj_value, inf_pr) := report in
       snd (intermediate_callback p best iter obj_value inf_pr))
    reports best.

(** The rows [computeConstraints] produces for the first [n] trials. *)
Fixpoint rows_upto (d : nat) (accs : list (Matrix s_t)) (n : nat) : nat :=
  match n with
  | O => 0
  | S n' => rows_upto d accs n' + (cols (nth n' accs []) * d * 2 + d)
  end.

(** The time step on each constraint row of the first [n] trials: the
    rows of a trial carry the trial's time step. *)
Definition row_timesteps (d : nat) (timesteps : list s_t) (accs : list (Matrix s_t))
    (n : nat) : list s_t :=
  flat_map
    (fun trial => repeat (nth trial timesteps s_zero) (cols (nth trial accs []) * d * 2 + d))
    (seq 0 n).

(** A list of Jacobian triples that is made of one group of three per
    row, for the rows [r] up to [r'] in order: [+1] on a column [a], [-1]
    on the column of the same coordinate in the next frame, and on the
    column [a + d] of the derivative the entry of [dts] for the row. *)
Inductive TripleRows (d : nat)
  : nat -> list (nat * nat * s_t) -> list s_t -> nat -> Prop :=
| TripleRows_nil (r : nat) : TripleRows d r [] [] r
| TripleRows_row (r a b : nat) (dt : s_t) (l : list (nat * nat * s_t)) (dts : list s_t)
    (r' : nat) :
    b = a + d * 3 \/ b = a + d * 2 ->
    TripleRows d (S r) l dts r' ->
    TripleRows d r ((r, a, s_of_Z 1) :: (r, b, s_of_Z (-1)) :: (r, a + d, dt) :: l)
      (dt :: dts) r'.

(** Triples and constraint values that go together row by row, for the
    rows [r] up to [r']: the value of a row is computed from the entries
    of [x] in the columns of the row's three triples, and the factor of
    the derivative is the value of the third triple. *)
Inductive RowValues (x : Vec s_t) (d : nat)
  : nat -> list (nat * nat * s_t) -> list s_t -> nat -> Prop :=
| RowValues_nil (r : nat) : RowValues x d r [] [] r
| RowValues_row (r a b : nat) (dt : s_t) (l : list (nat * nat * s_t)) (vs : list s_t)
    (r' : nat) :
    RowValues x d (S r) l vs r' ->
    RowValues x d r
      ((r, a, s_of_Z 1) :: (r, b, s_of_Z (-1)) :: (r, a + d, dt) :: l)
      ((at_ x (a + d) * dt - (at_ x b - at_ x a))%s :: vs) r'.

(** The triples of a list that lie on row [k], in order. *)
Definition row_triples (k : nat) (l : list (nat * nat * s_t)) : list (nat * nat * s_t) :=
  filter (fun tr => fst (fst tr) =? k) l.

Definition triples_on_row (k : nat) (l : list (nat * nat * s_t)) : nat :=
  length (filter (fun tr => fst (fst tr) =? k) l).
End Vocabulary.

(** Vocabulary over the real numbers. *)
Section RealVocabulary.
(** Two buffers under construction: the cursors agree and the first is
    below the second, entry by entry. *)
Definition ordered (lo hi : Vec R * nat) : Prop :=
  snd lo = snd hi /\ Forall2 Rle (fst lo) (fst hi).

(** The running minimum of step 1.2 of [estimateFootGroundContacts]: has
    no height been seen yet, and the lowest height seen. *)
Definition lower (st : bool * R) (height : R) : bool * R :=
  let '(noGroundCorners, groundHeight) := st in
  if (noGroundCorners : bool) then (false, height)
  else if (height <? groundHeight)%s then (noGroundCorners, height)
       else st.

(** The bounding box of step 3.2, and a center of pressure inside it. *)
Definition box_step (st : R * R * R * R) (cop : Vec R) : R * R * R * R :=
  let '(minX, maxX, minZ, maxZ) := st in
  let minX := if (at_ cop 0 <? minX)%s then at_ cop 0 else minX in
  let maxX := if s_gtb (at_ cop 0) maxX then at_ cop 0 else maxX in
  let minZ := if (at_ cop 2 <? minZ)%s then at_ cop 2 else minZ in
  let maxZ := if s_gtb (at_ cop 2) maxZ then at_ cop 2 else maxZ in
  (minX, maxX, minZ, maxZ).
Definition box_covers (st : R * R * R * R) (cop : Vec R) : Prop :=
  let '(minX, maxX, minZ, maxZ) := st in
  (minX <= at_ cop 0 <= maxX /\ minZ <= at_ cop 2 <= maxZ)%R.
Definition box_within (st st' : R * R * R * R) : Prop :=
  let '(minX, maxX, minZ, maxZ) := st in
  let '(minX', maxX', minZ', maxZ') := st' in
  (minX' <= minX /\ maxX <= maxX' /\ minZ' <= minZ /\ maxZ <= maxZ')%R.

(** The radii of the contact spheres of a ground-reaction body: one per
    contact body, none of them negative. *)
Definition sound (radii : list R) (bodies : list nat) : Prop :=
  length radii = length bodies /\ Forall (fun r => (0 <= r)%R) radii.
End RealVocabulary.


(** ** Data to evaluate on *)

(** The object a constructor call returned, for a call that returns. *)
Definition constructed {A : Type} (made : option A)
  : match made with Some _ => True | None => False end -> A :=
  match made with
  | Some a => fun _ => a
  | None => fun refused => match refused with end
  end.

Section Fixtures.
Import DynamicsFitProblem.
Import String.
Open Scope float_scope.

(** A skeleton with one scale group and two degrees of freedom, one
    trial of three frames and one marker. *)
Definition roundtrip_skeleton : Skeleton float :=
  mkSkeleton 2 1 3 [0; 0] [0; 0] [0; 0] [70] [0; 0; 0] [1; 1; 1; 0; 0; 0] [1; 1; 1].
Definition roundtrip_init : DynamicsInitialization float :=
  mkInit [[[0; 0]; [1; 1]; [4; 2]]] [1] [] [] [] [] [] [] [] [] [] [] [] [] [] []
         [] [] [] [] [] [] [] [] [] [].
Definition roundtrip_problem : t float :=
  constructed
    (create roundtrip_init roundtrip_skeleton [("M1"%string, (0%nat, [0; 0; 0]))] [] []) I.
Definition roundtrip_x : Vec float := map float_of_Z (map Z.of_nat (seq 1 28)).

(** Masses are the only block; the vector holding [+0.0] is unflattened,
    then the one holding [-0.0]. *)
Definition negative_zero : float := Eval cbv in PrimFloat.opp PrimFloat.zero.
Definition masses_only : t float :=
  with_flags (constructed (create roundtrip_init roundtrip_skeleton [] [] []) I)
    true false false false false false.

(** Two trials of three frames each, one degree of freedom. *)
Definition two_trials_skeleton : Skeleton float :=
  mkSkeleton 1 1 3 [0] [0] [0] [70] [0; 0; 0] [1; 1; 1; 0; 0; 0] [1; 1; 1].
Definition two_trials_init : DynamicsInitialization float :=
  mkInit [[[0]; [1]; [4]]; [[0]; [2]; [8]]] [1; 1] [] [] [] [] [] [] [] [] [] [] [] [] [] []
         [] [] [] [] [] [] [] [] [] [].
Definition two_trials_problem : t float :=
  constructed (create two_trials_init two_trials_skeleton [] [] []) I.
Definition two_trials_x : Vec float := flatten two_trials_problem two_trials_skeleton.

(** A free body at rest in the origin, moving with unit velocity and
    accelerating at twice that. *)
Definition moving_skeleton : Skeleton float :=
  mkSkeleton 6 1 3 [0; 0; 0; 0; 0; 0] [1; 1; 1; 1; 1; 1] [2; 2; 2; 2; 2; 2]
    [70] [0; 0; 0] [1; 1; 1; 0; 0; 0] [1; 1; 1].
Definition no_contacts : ResidualForceHelper.t := ResidualForceHelper.create [].

(** One trial of four frames of a free body that accelerates along its
    first coordinate, without measured forces; the first frame is flagged
    as missing its ground-reaction force. *)
Definition flagged_init : DynamicsInitialization float :=
  mkInit [[[0; 0; 0; 0; 0; 0]; [1; 0; 0; 0; 0; 0]; [4; 0; 0; 0; 0; 0]; [9; 0; 0; 0; 0; 0]]]
         [1]
         [[[0; 0; 0; 0; 0; 0]; [0; 0; 0; 0; 0; 0]; [0; 0; 0; 0; 0; 0]; [0; 0; 0; 0; 0; 0]]]
         [] []
         [[[0; 0; 0; 0; 0; 0]; [1; 0; 0; 0; 0; 0]; [4; 0; 0; 0; 0; 0]; [9; 0; 0; 0; 0; 0]]]
         [70] [0; 0; 0] [1; 1; 1; 0; 0; 0] [1; 1; 1]
         [] [] [] [] [] []
         [] [] [] [] [] [] [] [] [] [[true; false; false; false]].
Definition flagged_problem : t float :=
  constructed (create flagged_init moving_skeleton [] [] []) I.

(** One trial of two frames with one marker, observed at [(1, 0, 0)] in
    both frames; its offset starts at the origin, which is also the
    original offset.  The marker offsets are the only block, so [x] is the
    offset of the marker. *)
Definition marker_init : DynamicsInitialization float :=
  mkInit [[[0; 0]; [0; 0]]] [1] [[[]; []]] []
         [[[("M1"%string, [1; 0; 0])]; [("M1"%string, [1; 0; 0])]]]
         [[[0; 0]; [0; 0]]]
         [70] [0; 0; 0] [1; 1; 1; 0; 0; 0] [1; 1; 1]
         [("M1"%string, [0; 0; 0])] [] [] [] [] []
         [] [] [] [] [] [] [] [] [] [[false; false]].
Definition marker_problem : t float :=
  with_flags
    (constructed
       (create marker_init roundtrip_skeleton [("M1"%string, (0%nat, [0; 0; 0]))] [] []) I)
    false false false false false true.

End Fixtures.

(** One trial of two frames of a free body over a force plate that spans
    [-1, 1] in x and z at height 0.  In the first frame the body stands two
    units above the plate and a vertical force is measured; in the second
    it is one unit above the ground, ten units away from the plate, and
    nothing is measured. *)
Section ContactFixtures.
Context {s_t : Type} `{Scalar s_t}.

Definition stepping_plate : ForcePlate s_t :=
  mkForcePlate (map s_of_Z [0; 0; 0]%Z)
    (map (map s_of_Z) [[-1; 0; -1]; [-1; 0; 1]; [1; 0; 1]; [1; 0; -1]]%Z)
    (map (map s_of_Z) [[0; 0; 0]; [0; 0; 0]]%Z).

Definition stepping_init : DynamicsInitialization s_t :=
  mkInit [map (map s_of_Z) [[0; 0; 0; 0; 2; 0]; [0; 0; 0; 10; 1; 0]]%Z]
         [s_one]
         [map (map s_of_Z) [[0; 0; 0; 0; 70; 0]; [0; 0; 0; 0; 0; 0]]%Z]
         [[stepping_plate]] []
         [] [] [] [] []
         [] [] [] [] [] []
         [0] [] [] [] [] [] [] [] [] [].

(** A force plate without corners, whose center of pressure is at
    height 3 in the first frame and at height 2 in the second. *)
Definition bare_plate : ForcePlate s_t :=
  mkForcePlate (map s_of_Z [0; 0; 0]%Z) []
    (map (map s_of_Z) [[0; 3; 0]; [1; 2; 4]]%Z).

(** One trial of two frames over two plates, one with corners and one
    without, so that a default plate is synthesized (it spans [-0.1, 1.1]
    in x and [-0.1, 4.1] in z at height 0).  In the first frame the body
    is five units above the ground and a vertical force is measured; in
    the second it is three units above the ground, ten units away in x,
    and nothing is measured. *)
Definition two_plate_init : DynamicsInitialization s_t :=
  mkInit [map (map s_of_Z) [[0; 0; 0; 0; 5; 0]; [0; 0; 0; 10; 3; 0]]%Z]
         [s_one]
         [map (map s_of_Z) [[0; 0; 0; 0; 70; 0]; [0; 0; 0; 0; 0; 0]]%Z]
         [[stepping_plate; bare_plate]] []
         [] [] [] [] []
         [] [] [] [] [] []
         [0] [] [] [] [] [] [] [] [] [].


Definition stepping_skeleton : Skeleton s_t :=
  mkSkeleton 6 0 0 (zeros 6) (zeros 6) (zeros 6) [] [] [] [].
End ContactFixtures.

(** One trial of three frames of a body with a single degree of freedom
    that accelerates from rest, sampled every two time units. *)
Section RampFixtures.
Context {s_t : Type} `{Scalar s_t}.

Definition ramp_skeleton : Skeleton s_t :=
  mkSkeleton 1 0 0 (zeros 1) (zeros 1) (zeros 1) [] [] [] [].
Definition ramp_init : DynamicsInitialization s_t :=
  mkInit [map (map s_of_Z) [[0]; [1]; [4]]%Z]
         [s_of_Z 2]
         [] [] []
         [] [] [] [] []
         [] [] [] [] [] []
         [] [] [] [] [] [] [] [] [] [].
(** The same body with a second trial that has a single frame. *)
Definition short_init : DynamicsInitialization s_t :=
  mkInit [map (map s_of_Z) [[0]; [1]; [4]]%Z; map (map s_of_Z) [[0]]%Z]
         [s_of_Z 2; s_of_Z 2]
         [] [] []
         [] [] [] [] []
         [] [] [] [] [] []
         [] [] [] [] [] [] [] [] [] [].
Definition ramp_problem : DynamicsFitProblem.t s_t :=
  constructed (DynamicsFitProblem.create ramp_init ramp_skeleton [] [] []) I.
End RampFixtures.

(** Limits of one unit either way on every property and on the motion. *)
Section LimitFixtures.
Context {s_t : Type} `{Scalar s_t}.
Import DynamicsFitProblem.

Definition unit_limits : Limits s_t := {|
  getGroupMassesUpperBound := fun sk => repeat (s_of_Z 1) (getNumScaleGroups sk);
  getGroupMassesLowerBound := fun sk => repeat (s_of_Z (-1)) (getNumScaleGroups sk);
  getGroupCOMUpperBound := fun sk => repeat (s_of_Z 1) (getNumScaleGroups sk * 3);
  getGroupCOMLowerBound := fun sk => repeat (s_of_Z (-1)) (getNumScaleGroups sk * 3);
  getGroupInertiasUpperBound := fun sk => repeat (s_of_Z 1) (getNumScaleGroups sk * 6);
  getGroupInertiasLowerBound := fun sk => repeat (s_of_Z (-1)) (getNumScaleGroups sk * 6);
  getGroupScalesUpperBound := fun sk => repeat (s_of_Z 1) (getGroupScaleDim sk);
  getGroupScalesLowerBound := fun sk => repeat (s_of_Z (-1)) (getGroupScaleDim sk);
  getPositionUpperLimits := fun sk => repeat (s_of_Z 1) (getNumDofs sk);
  getPositionLowerLimits := fun sk => repeat (s_of_Z (-1)) (getNumDofs sk);
  getVelocityUpperLimits := fun sk => repeat (s_of_Z 1) (getNumDofs sk);
  getVelocityLowerLimits := fun sk => repeat (s_of_Z (-1)) (getNumDofs sk);
  getAccelerationUpperLimits := fun sk => repeat (s_of_Z 1) (getNumDofs sk);
  getAccelerationLowerLimits := fun sk => repeat (s_of_Z (-1)) (getNumDofs sk)
|}.
End LimitFixtures.

Unset Implicit Arguments.

(** * Facts *)

(** ** Lists and buffers *)

Section ListFacts.
Context {A : Type}.

Lemma set_nth_length (i : nat) (a : A) (l : list A) :
  length (set_nth i a l) = length l.
Proof.
  revert i; induction l as [|b l IH]; intros [|i]; simpl; auto.
Qed.

Lemma nth_set_nth_eq (i : nat) (a : A) (l : list A) (d : A) :
  i < length l -> nth i (set_nth i a l) d = a.
Proof.
  revert i; induction l as [|b l IH]; intros [|i] Hi; simpl in *; try lia; auto.
  apply IH; lia.
Qed.

Lemma nth_set_nth_neq (i j : nat) (a : A) (l : list A) (d : A) :
  i <> j -> nth j (set_nth i a l) d = nth j l d.
Proof.
  revert i j; induction l as [|b l IH]; intros [|i] [|j] Hij; simpl; auto; try lia.
Qed.

Lemma set_nth_app_r (l1 l2 : list A) (k : nat) (a : A) :
  set_nth (length l1 + k) a (l1 ++ l2) = l1 ++ set_nth k a l2.
Proof.
  induction l1 as [|b l1 IH]; simpl; auto.
  destruct (l1 ++ l2) eqn:E; rewrite IH; auto.
Qed.

Lemma fold_left_seq_S {B : Type} (f : B -> nat -> B) (n : nat) (b : B) :
  fold_left f (seq 0 (S n)) b = f (fold_left f (seq 0 n) b) n.
Proof.
  rewrite seq_S, fold_left_app; reflexivity.
Qed.

Lemma firstn_plus (c d : nat) (x : list A) :
  firstn (c + d) x = firstn c x ++ firstn d (skipn c x).
Proof.
  revert x; induction c as [|c IH]; intros [|a x]; simpl; auto.
  - destruct d; reflexivity.
  - rewrite IH; reflexivity.
Qed.

Lemma skipn_cons_nth (n : nat) (l : list A) (d : A) :
  n < length l -> skipn n l = nth n l d :: skipn (S n) l.
Proof.
  revert n; induction l as [|b l IH]; intros [|n] Hn; simpl in *; try lia; auto.
  apply IH; lia.
Qed.

Lemma firstn_snoc_nth (n : nat) (l : list A) (d : A) :
  n < length l -> firstn (S n) l = firstn n l ++ [nth n l d].
Proof.
  revert n; induction l as [|b l IH]; intros [|n] Hn; simpl in *; try lia; auto.
  rewrite <- IH by lia; reflexivity.
Qed.

Lemma firstn_set_nth_S (c : nat) (a : A) (l : list A) :
  c < length l -> firstn (S c) (set_nth c a l) = firstn c l ++ [a].
Proof.
  revert c; induction l as [|b l IH]; intros [|c] Hc; simpl in *; try lia; auto.
  rewrite <- IH by lia. reflexivity.
Qed.

Lemma skipn_set_nth_gt (c k : nat) (a : A) (l : list A) :
  c < k -> skipn k (set_nth c a l) = skipn k l.
Proof.
  revert c k; induction l as [|b l IH]; intros [|c] [|k] Hc; simpl; try lia; auto.
  apply IH; lia.
Qed.
End ListFacts.

Section BufferFacts.
Context {s_t : Type} `{Scalar s_t}.

Lemma segment_length (x : Vec s_t) (c d : nat) :
  c + d <= length x -> length (segment x c d) = d.
Proof.
  intros Hc; unfold segment.
  rewrite length_firstn, length_skipn; lia.
Qed.

Lemma zeros_length (n : nat) : length (zeros (s_t := s_t) n) = n.
Proof. apply repeat_length. Qed.

Lemma write_segment_length (flat : Vec s_t) (c dim : nat) (v : Vec s_t) :
  length (write_segment flat c dim v) = length flat.
Proof.
  unfold write_segment.
  induction dim as [|n IH]; [reflexivity|].
  rewrite fold_left_seq_S, set_nth_length; exact IH.
Qed.

Lemma add_segment_length (flat : Vec s_t) (c dim : nat) (v : Vec s_t) :
  length (add_segment flat c dim v) = length flat.
Proof.
  unfold add_segment.
  induction dim as [|n IH]; [reflexivity|].
  rewrite fold_left_seq_S, set_nth_length; exact IH.
Qed.

(** A block written inside the buffer replaces exactly its own entries. *)
Lemma write_segment_splice (flat : Vec s_t) (c n : nat) (v : Vec s_t) :
  c + n <= length flat -> n <= length v ->
  write_segment flat c n v = firstn c flat ++ firstn n v ++ skipn (c + n) flat.
Proof.
  unfold write_segment.
  induction n as [|n IH]; intros Hc Hv.
  - simpl. rewrite Nat.add_0_r, firstn_skipn; reflexivity.
  - rewrite fold_left_seq_S, IH by lia.
    rewrite app_assoc.
    replace (c + n) with (length (firstn c flat ++ firstn n v) + 0) at 1
      by (rewrite length_app, !length_firstn; lia).
    rewrite set_nth_app_r.
    rewrite (skipn_cons_nth (c + n) flat s_zero) by lia.
    simpl set_nth.
    rewrite (firstn_snoc_nth n v s_zero) by lia.
    unfold at_. rewrite <- !app_assoc. simpl.
    replace (c + S n) with (S (c + n)) by lia. reflexivity.
Qed.

(** Writing the block of [x] that starts at the cursor extends the
    agreement with [x] by that block. *)
Lemma put_agrees (x flat : Vec s_t) (c dim : nat) (v : Vec s_t) :
  agrees_upto x c flat -> c + dim <= length x -> v = segment x c dim ->
  agrees_upto x (c + dim) (write_segment flat c dim v).
Proof.
  intros [Hlen Hpre] Hc ->.
  split; [rewrite write_segment_length; exact Hlen|].
  rewrite write_segment_splice
    by (rewrite ?segment_length by lia; lia).
  rewrite (firstn_all2 (segment x c dim))
    by (rewrite segment_length by lia; lia).
  rewrite app_assoc, firstn_app.
  rewrite length_app, length_firstn, segment_length by lia.
  replace (c + dim - (Nat.min c (length flat) + dim)) with 0 by lia.
  rewrite firstn_0, app_nil_r.
  rewrite firstn_all2 by (rewrite length_app, length_firstn, segment_length by lia; lia).
  rewrite Hpre, firstn_plus; reflexivity.
Qed.

Lemma agrees_upto_all (x flat : Vec s_t) :
  agrees_upto x (length x) flat -> flat = x.
Proof.
  intros [Hlen Hpre].
  rewrite firstn_all in Hpre.
  rewrite <- Hlen, firstn_all in Hpre; exact Hpre.
Qed.

Lemma agrees_upto_zeros (x : Vec s_t) :
  agrees_upto x 0 (zeros (length x)).
Proof.
  split; [apply repeat_length | reflexivity].
Qed.
End BufferFacts.

(** ** Round trip through the flattened layout *)

Section RoundTrip.
Context {s_t : Type} `{Scalar s_t} `{Collaborators s_t}.
Import DynamicsFitProblem.

Variable x : Vec s_t.
Variable d : nat.

(** After [n] frames the cursor has moved by [3 * d] per frame and each
    frame written holds its three blocks of [x]. *)
Lemma unflatten_frames_spec (n c : nat) (P V A : Matrix s_t) :
  n <= length P -> n <= length V -> n <= length A ->
  exists P' V' A',
    fold_left (unflatten_frame x d) (seq 0 n) (c, (P, V, A))
    = (c + n * (3 * d), (P', V', A'))
    /\ length P' = length P /\ length V' = length V /\ length A' = length A
    /\ forall k, k < n ->
         nth k P' [] = segment x (c + k * (3 * d)) d
         /\ nth k V' [] = segment x (c + k * (3 * d) + d) d
         /\ nth k A' [] = segment x (c + k * (3 * d) + 2 * d) d.
Proof.
  induction n as [|n IH]; intros HP HV HA.
  - exists P, V, A. simpl. rewrite Nat.add_0_r.
    repeat split; auto; lia.
  - destruct IH as (P' & V' & A' & Heq & LP & LV & LA & Hin); try lia.
    rewrite fold_left_seq_S, Heq. unfold unflatten_frame, set_col.
    eexists _, _, _. split; [f_equal; lia|].
    rewrite !set_nth_length.
    split; [exact LP|]. split; [exact LV|]. split; [exact LA|].
    intros k Hk.
    destruct (Nat.eq_dec k n) as [->|Hne].
    + rewrite !nth_set_nth_eq by lia.
      repeat split; f_equal; lia.
    + rewrite !nth_set_nth_neq by lia. apply Hin; lia.
Qed.

(** [unflatten] leaves a trial holding the blocks of [x] at its cursor. *)
Lemma unflatten_trial_spec (c : nat) (P V A : Matrix s_t) :
  cols P = cols A + 2 -> cols V = cols A + 1 ->
  exists P' V' A',
    unflatten_trial x d (c, (P, V, A)) = (c + trial_size d A, (P', V', A'))
    /\ cols A' = cols A
    /\ trial_holds x d c P' V' A'.
Proof.
  unfold cols; intros HP HV.
  destruct (unflatten_frames_spec (length A) c P V A)
    as (P' & V' & A' & Heq & LP & LV & LA & Hin); try lia.
  unfold unflatten_trial. simpl snd. unfold cols. rewrite Heq.
  unfold cols. rewrite LA.
  replace (Z.to_nat (Z.of_nat (length A) - 1 + 1)) with (length A) by lia.
  replace (Z.to_nat (Z.of_nat (length A) - 1 + 2)) with (length A + 1) by lia.
  eexists _, _, _. split; [f_equal; unfold trial_size, cols; lia|].
  split; [exact LA|].
  unfold trial_holds, cols, col, set_col. rewrite LA, !set_nth_length.
  split; [lia|]. split; [lia|].
  split; [|split; [|split]].
  - intros k Hk.
    rewrite !nth_set_nth_neq by lia. apply Hin; exact Hk.
  - rewrite nth_set_nth_neq by lia. rewrite nth_set_nth_eq by lia. reflexivity.
  - rewrite nth_set_nth_eq by lia. reflexivity.
  - rewrite nth_set_nth_eq by (rewrite set_nth_length; lia). f_equal; lia.
Qed.

(** [flatten] writes the frames of a trial back where they came from. *)
Lemma flatten_frames_spec (P V A : Matrix s_t) (n c : nat) (flat : Vec s_t) :
  (forall k, k < n ->
     col P k = segment x (c + k * (3 * d)) d
     /\ col V k = segment x (c + k * (3 * d) + d) d
     /\ col A k = segment x (c + k * (3 * d) + 2 * d) d) ->
  agrees_upto x c flat ->
  c + n * (3 * d) <= length x ->
  exists flat',
    fold_left (flatten_frame d P V A) (seq 0 n) (flat, c) = (flat', c + n * (3 * d))
    /\ agrees_upto x (c + n * (3 * d)) flat'.
Proof.
  induction n as [|n IH]; intros Hin Hag Hlen.
  - exists flat. simpl. rewrite Nat.add_0_r. auto.
  - destruct IH as (flat' & Heq & Hag'); auto; try lia.
    rewrite fold_left_seq_S, Heq.
    destruct (Hin n) as (HP & HV & HA); [lia|].
    unfold flatten_frame, put.
    eexists. split; [f_equal; lia|].
    replace (c + S n * (3 * d)) with (c + n * (3 * d) + d + d + d) by lia.
    apply put_agrees; [apply put_agrees; [apply put_agrees|..]|..];
      auto; try lia.
    rewrite HA. f_equal; lia.
Qed.

Lemma flatten_trial_spec (P V A : Matrix s_t) (c : nat) (flat : Vec s_t) :
  trial_holds x d c P V A ->
  agrees_upto x c flat ->
  c + trial_size d A <= length x ->
  exists flat',
    flatten_trial d P V A (flat, c) = (flat', c + trial_size d A)
    /\ agrees_upto x (c + trial_size d A) flat'.
Proof.
  intros (HP & HV & Hin & HPn & HVn & HPn1) Hag Hlen.
  unfold trial_size in *.
  destruct (flatten_frames_spec P V A (cols A) c flat) as (flat' & Heq & Hag');
    auto; try lia.
  unfold flatten_trial. rewrite Heq.
  replace (Z.to_nat (Z.of_nat (cols A) - 1 + 1)) with (cols A) by lia.
  replace (Z.to_nat (Z.of_nat (cols A) - 1 + 2)) with (cols A + 1) by lia.
  unfold put.
  eexists. split; [f_equal; lia|].
  replace (c + (cols A * d * 3 + d * 3)) with (c + cols A * (3 * d) + d + d + d) by lia.
  apply put_agrees; [apply put_agrees; [apply put_agrees|..]|..];
    auto; try lia.
  rewrite HPn1. f_equal; lia.
Qed.

Lemma trials_offset_ext (A A' : list (Matrix s_t)) (n : nat) :
  (forall k, cols (nth k A' []) = cols (nth k A [])) ->
  trials_offset d A' n = trials_offset d A n.
Proof.
  intros HA; induction n as [|n IH]; simpl; [reflexivity|].
  unfold trial_size. rewrite IH, HA. reflexivity.
Qed.

(** The loop over the trials: each trial ends up holding its blocks. *)
Lemma unflatten_trials_spec (n c : nat) (P V A : list (Matrix s_t)) :
  length V = length P -> length A = length P -> n <= length P ->
  (forall k, k < length P ->
     cols (nth k P []) = cols (nth k A []) + 2
     /\ cols (nth k V []) = cols (nth k A []) + 1) ->
  exists P' V' A',
    fold_left (unflatten_trial_at x d) (seq 0 n) (c, (P, V, A))
    = (c + trials_offset d A n, (P', V', A'))
    /\ length P' = length P /\ length V' = length V /\ length A' = length A
    /\ (forall k, cols (nth k A' []) = cols (nth k A []))
    /\ (forall k, k < n ->
          trial_holds x d (c + trials_offset d A k)
            (nth k P' []) (nth k V' []) (nth k A' []))
    /\ (forall k, n <= k ->
          nth k P' [] = nth k P [] /\ nth k V' [] = nth k V []
          /\ nth k A' [] = nth k A []).
Proof.
  intros LV LA Hn Hshape.
  induction n as [|n IH].
  - exists P, V, A. simpl. rewrite Nat.add_0_r.
    repeat split; auto; intros; lia.
  - destruct IH as (P' & V' & A' & Heq & LP' & LV' & LA' & Hcols & Hin & Hout);
      [lia|].
    rewrite fold_left_seq_S, Heq. unfold unflatten_trial_at.
    destruct (Hout n (le_n n)) as (EP & EV & EA). rewrite EP, EV, EA.
    destruct (Hshape n) as (SP & SV); [lia|].
    destruct (unflatten_trial_spec (c + trials_offset d A n)
                (nth n P []) (nth n V []) (nth n A []) SP SV)
      as (ps & vs & acs & Et & Hc & Hh).
    rewrite Et.
    eexists _, _, _. split; [simpl; f_equal; lia|].
    rewrite !set_nth_length.
    split; [exact LP'|]. split; [exact LV'|]. split; [exact LA'|].
    split; [|split].
    + intros k. destruct (Nat.eq_dec k n) as [->|Hne].
      * rewrite nth_set_nth_eq by lia. exact Hc.
      * rewrite nth_set_nth_neq by lia. apply Hcols.
    + intros k Hk. destruct (Nat.eq_dec k n) as [->|Hne].
      * rewrite !nth_set_nth_eq by lia. exact Hh.
      * rewrite !nth_set_nth_neq by lia. apply Hin; lia.
    + intros k Hk. rewrite !nth_set_nth_neq by lia. apply Hout; lia.
Qed.

Lemma flatten_trials_spec (P V A : list (Matrix s_t)) (n c : nat) (flat : Vec s_t) :
  (forall k, k < n ->
     trial_holds x d (c + trials_offset d A k) (nth k P []) (nth k V []) (nth k A [])) ->
  agrees_upto x c flat ->
  c + trials_offset d A n <= length x ->
  exists flat',
    fold_left (flatten_trial_at d P V A) (seq 0 n) (flat, c)
    = (flat', c + trials_offset d A n)
    /\ agrees_upto x (c + trials_offset d A n) flat'.
Proof.
  induction n as [|n IH]; intros Hin Hag Hlen.
  - exists flat. simpl. rewrite Nat.add_0_r. auto.
  - simpl in Hlen.
    destruct IH as (flat' & Heq & Hag'); auto; try lia.
    rewrite fold_left_seq_S, Heq. unfold flatten_trial_at.
    destruct (flatten_trial_spec (nth n P []) (nth n V []) (nth n A [])
                (c + trials_offset d A n) flat') as (flat'' & Et & Hag'');
      auto; try lia.
    rewrite Et. simpl. rewrite Nat.add_assoc. eauto.
Qed.

(** The loop over the markers. *)
Lemma unflatten_markers_spec (n c : nat) (M : list (Marker s_t)) :
  n <= length M ->
  exists M',
    fold_left (unflatten_marker x) (seq 0 n) (M, c) = (M', c + n * 3)
    /\ length M' = length M
    /\ forall i, i < n -> snd (nth i M' (0, [])) = segment x (c + i * 3) 3.
Proof.
  induction n as [|n IH]; intros Hn.
  - exists M. simpl. rewrite Nat.add_0_r. repeat split; auto; intros; lia.
  - destruct IH as (M' & Heq & LM & Hin); [lia|].
    rewrite fold_left_seq_S, Heq. unfold unflatten_marker.
    eexists. split; [f_equal; lia|].
    rewrite set_nth_length. split; [exact LM|].
    intros i Hi. destruct (Nat.eq_dec i n) as [->|Hne].
    + rewrite nth_set_nth_eq by lia. reflexivity.
    + rewrite nth_set_nth_neq by lia. apply Hin; lia.
Qed.

Lemma flatten_markers_spec (M : list (Marker s_t)) (n c : nat) (flat : Vec s_t) :
  (forall i, i < n -> snd (nth i M (0, [])) = segment x (c + i * 3) 3) ->
  agrees_upto x c flat ->
  c + n * 3 <= length x ->
  exists flat',
    fold_left (flatten_marker M) (seq 0 n) (flat, c) = (flat', c + n * 3)
    /\ agrees_upto x (c + n * 3) flat'.
Proof.
  induction n as [|n IH]; intros Hin Hag Hlen.
  - exists flat. simpl. rewrite Nat.add_0_r. auto.
  - destruct IH as (flat' & Heq & Hag'); auto; try lia.
    rewrite fold_left_seq_S, Heq. unfold flatten_marker, put.
    eexists. split; [f_equal; lia|].
    replace (c + S n * 3) with (c + n * 3 + 3) by lia.
    apply put_agrees; auto; try lia.
Qed.

Lemma problem_size_trials (A : list (Matrix s_t)) (n size : nat) :
  fold_left (problem_size_trial d A) (seq 0 n) size = size + trials_offset d A n.
Proof.
  induction n as [|n IH]; [simpl; lia|].
  rewrite fold_left_seq_S, IH. cbn [trials_offset]. unfold problem_size_trial, trial_size. lia.
Qed.
End RoundTrip.

Section RoundTripProblem.
Context {s_t : Type} `{Scalar s_t} `{Collaborators s_t}.
Import DynamicsFitProblem.

(** [getProblemSize()] is the sum of the sizes of the six blocks. *)
Lemma getProblemSize_blocks (p : t s_t) (sk : Skeleton s_t) :
  getProblemSize p sk
  = block_size (mIncludeMasses p) (getNumScaleGroups sk)
    + block_size (mIncludeCOMs p) (getNumScaleGroups sk * 3)
    + block_size (mIncludeInertias p) (getNumScaleGroups sk * 6)
    + block_size (mIncludeBodyScales p) (getGroupScaleDim sk)
    + block_size (mIncludeMarkerOffsets p) (length (mMarkers p) * 3)
    + block_size (mIncludePoses p)
        (trials_offset (getNumDofs sk) (mAccs p) (length (mPoses p))).
Proof.
  unfold getProblemSize, block_size.
  destruct (mIncludeMasses p), (mIncludeCOMs p), (mIncludeInertias p),
    (mIncludeBodyScales p), (mIncludeMarkerOffsets p), (mIncludePoses p);
    rewrite ?problem_size_trials; lia.
Qed.

(** What [unflatten(x)] stores, block by block, when its guard does not
    fire. *)
Lemma unflatten_cursor_blocks (p : t s_t) (sk : Skeleton s_t) (x : Vec s_t) :
  sameAsLastX p x = false ->
  let G := getNumScaleGroups sk in
  let c1 := block_size (mIncludeMasses p) G in
  let c2 := c1 + block_size (mIncludeCOMs p) (G * 3) in
  let c3 := c2 + block_size (mIncludeInertias p) (G * 6) in
  let c4 := c3 + block_size (mIncludeBodyScales p) (getGroupScaleDim sk) in
  let sk' :=
    mkSkeleton (getNumDofs sk) G (getGroupScaleDim sk)
      (getPositions sk) (getVelocities sk) (getAccelerations sk)
      (if mIncludeMasses p then segment x 0 G else getGroupMasses sk)
      (if mIncludeCOMs p then segment x c1 (G * 3) else getGroupCOMs sk)
      (if mIncludeInertias p then segment x c2 (G * 6) else getGroupInertias sk)
      (if mIncludeBodyScales p then segment x c3 (getGroupScaleDim sk)
       else getGroupScales sk) in
  let mk :=
    if mIncludeMarkerOffsets p
    then fold_left (unflatten_marker x) (seq 0 (length (mMarkers p))) (mMarkers p, c4)
    else (mMarkers p, c4) in
  let ps :=
    if mIncludePoses p
    then fold_left (unflatten_trial_at x (getNumDofs sk)) (seq 0 (length (mPoses p)))
           (snd mk, (mPoses p, mVels p, mAccs p))
    else (snd mk, (mPoses p, mVels p, mAccs p)) in
  unflatten_cursor (p, sk) x
  = (with_state p (mInit p) (fst mk) (fst (fst (snd ps))) (snd (fst (snd ps)))
       (snd (snd ps)) x, sk', fst ps).
Proof.
  intros Hg. unfold sameAsLastX in Hg.
  unfold unflatten_cursor. rewrite Hg. clear Hg.
  destruct sk as [nd G S q dq ddq ms cs ins scs].
  cbn [getNumDofs getNumScaleGroups getGroupScaleDim getPositions getVelocities
       getAccelerations getGroupMasses getGroupCOMs getGroupInertias getGroupScales].
  destruct (mIncludeMasses p), (mIncludeCOMs p), (mIncludeInertias p),
    (mIncludeBodyScales p), (mIncludeMarkerOffsets p), (mIncludePoses p);
    cbn [block_size setGroupMasses setGroupCOMs setGroupInertias setGroupScales
         getNumDofs getNumScaleGroups getGroupScaleDim getPositions getVelocities
         getAccelerations getGroupMasses getGroupCOMs getGroupInertias getGroupScales
         Nat.add fst snd];
    rewrite ?Nat.add_0_r;
    repeat match goal with
      | |- context [fold_left ?f ?l ?a] =>
          destruct (fold_left f l a) as [? ?]; cbn [fst snd]
      end;
    repeat match goal with
      | |- context [let '(_, _) := ?e in _] => destruct e
      end;
    reflexivity.
Qed.

Lemma trial_shapes_ok_spec (p : t s_t) :
  trial_shapes_ok p = true ->
  length (mVels p) = length (mPoses p)
  /\ length (mAccs p) = length (mPoses p)
  /\ forall k, k < length (mPoses p) ->
       cols (nth k (mPoses p) []) = cols (nth k (mAccs p) []) + 2
       /\ cols (nth k (mVels p) []) = cols (nth k (mAccs p) []) + 1.
Proof.
  unfold trial_shapes_ok. rewrite !andb_true_iff, !Nat.eqb_eq, forallb_forall.
  intros [[LV LA] Hall]. repeat split; auto.
  - specialize (Hall k). rewrite andb_true_iff, !Nat.eqb_eq in Hall.
    apply Hall. apply in_seq. lia.
  - specialize (Hall k). rewrite andb_true_iff, !Nat.eqb_eq in Hall.
    apply Hall. apply in_seq. lia.
Qed.

Section Blocks.
Variable x : Vec s_t.

Lemma put_block (b : bool) (dim : nat) (v flat : Vec s_t) (c : nat) :
  agrees_upto x c flat ->
  c + block_size b dim <= length x ->
  (b = true -> v = segment x c dim) ->
  exists flat',
    (if b then put dim v (flat, c) else (flat, c)) = (flat', c + block_size b dim)
    /\ agrees_upto x (c + block_size b dim) flat'.
Proof.
  intros Hag Hlen Hv. destruct b; simpl in *.
  - eexists. split; [reflexivity|]. apply put_agrees; auto.
  - exists flat. rewrite Nat.add_0_r. auto.
Qed.

Lemma unflatten_markers_block (b : bool) (M : list (Marker s_t)) (c : nat) :
  exists M',
    (if b then fold_left (unflatten_marker x) (seq 0 (length M)) (M, c) else (M, c))
    = (M', c + block_size b (length M * 3))
    /\ length M' = length M
    /\ (b = true ->
        forall i, i < length M -> snd (nth i M' (0, [])) = segment x (c + i * 3) 3).
Proof.
  destruct b; simpl.
  - destruct (unflatten_markers_spec x (length M) c M (le_n _)) as (M' & E & L & Hin).
    exists M'. split; [exact E|]. split; [exact L|]. intros _. exact Hin.
  - exists M. rewrite Nat.add_0_r.
    split; [reflexivity|]. split; [reflexivity|]. discriminate.
Qed.

Lemma flatten_markers_block (b : bool) (M : list (Marker s_t)) (c : nat) (flat : Vec s_t) :
  (b = true ->
   forall i, i < length M -> snd (nth i M (0, [])) = segment x (c + i * 3) 3) ->
  agrees_upto x c flat ->
  c + block_size b (length M * 3) <= length x ->
  exists flat',
    (if b then fold_left (flatten_marker M) (seq 0 (length M)) (flat, c) else (flat, c))
    = (flat', c + block_size b (length M * 3))
    /\ agrees_upto x (c + block_size b (length M * 3)) flat'.
Proof.
  intros Hin Hag Hlen. destruct b; simpl in *.
  - apply flatten_markers_spec; auto.
  - exists flat. rewrite Nat.add_0_r. auto.
Qed.

Lemma unflatten_poses_block (b : bool) (d c : nat) (P V A : list (Matrix s_t)) :
  length V = length P -> length A = length P ->
  (forall k, k < length P ->
     cols (nth k P []) = cols (nth k A []) + 2
     /\ cols (nth k V []) = cols (nth k A []) + 1) ->
  exists P' V' A',
    (if b then fold_left (unflatten_trial_at x d) (seq 0 (length P)) (c, (P, V, A))
     else (c, (P, V, A)))
    = (c + block_size b (trials_offset d A (length P)), (P', V', A'))
    /\ length P' = length P
    /\ (forall k, cols (nth k A' []) = cols (nth k A []))
    /\ (b = true ->
        forall k, k < length P ->
          trial_holds x d (c + trials_offset d A k)
            (nth k P' []) (nth k V' []) (nth k A' [])).
Proof.
  intros LV LA Hshape. destruct b; simpl.
  - destruct (unflatten_trials_spec x d (length P) c P V A LV LA (le_n _) Hshape)
      as (P' & V' & A' & E & LP' & _ & _ & Hc & Hin & _).
    exists P', V', A'.
    split; [exact E|]. split; [exact LP'|]. split; [exact Hc|].
    intros _. exact Hin.
  - exists P, V, A. rewrite Nat.add_0_r.
    split; [reflexivity|]. split; [reflexivity|]. split; [reflexivity|].
    discriminate.
Qed.

Lemma flatten_poses_block (b : bool) (d c : nat) (P V A A0 : list (Matrix s_t))
    (flat : Vec s_t) :
  (forall k, cols (nth k A []) = cols (nth k A0 [])) ->
  (b = true ->
   forall k, k < length P ->
     trial_holds x d (c + trials_offset d A0 k) (nth k P []) (nth k V []) (nth k A [])) ->
  agrees_upto x c flat ->
  c + block_size b (trials_offset d A0 (length P)) <= length x ->
  exists flat',
    (if b then fold_left (flatten_trial_at d P V A) (seq 0 (length P)) (flat, c)
     else (flat, c))
    = (flat', c + block_size b (trials_offset d A0 (length P)))
    /\ agrees_upto x (c + block_size b (trials_offset d A0 (length P))) flat'.
Proof.
  intros Hc Hin Hag Hlen. destruct b; simpl in *.
  - rewrite <- (trials_offset_ext d A0 A (length P) Hc) in *.
    apply flatten_trials_spec; auto.
    intros k Hk. rewrite (trials_offset_ext d A0 A k Hc). apply Hin; auto.
  - exists flat. rewrite Nat.add_0_r. auto.
Qed.
End Blocks.
End RoundTripProblem.

Section RoundTripMain.
Context {s_t : Type} `{Scalar s_t} `{Collaborators s_t}.
Import DynamicsFitProblem.

Lemma fold_left_preserves {A B : Type} (Q : B -> Prop) (f : B -> A -> B)
    (l : list A) (b : B) :
  (forall b a, Q b -> Q (f b a)) -> Q b -> Q (fold_left f l b).
Proof.
  intros Hf; revert b; induction l as [|a l IH]; simpl; auto.
Qed.

Lemma put_size (n dim : nat) (v : Vec s_t) (st : Vec s_t * nat) :
  length (fst st) = n -> length (fst (put dim v st)) = n.
Proof.
  destruct st as [flat c]; simpl. rewrite write_segment_length; auto.
Qed.

Lemma flatten_trial_size (n dofs : nat) (P V A : Matrix s_t) (st : Vec s_t * nat) :
  length (fst st) = n -> length (fst (flatten_trial dofs P V A st)) = n.
Proof.
  intros Hst. unfold flatten_trial.
  repeat apply put_size.
  apply (fold_left_preserves (fun st => length (fst st) = n)); auto.
  intros b a Hb. unfold flatten_frame. repeat apply put_size. exact Hb.
Qed.

Lemma if_put_size (n : nat) (b : bool) (dim : nat) (v : Vec s_t) (st : Vec s_t * nat) :
  length (fst st) = n -> length (fst (if b then put dim v st else st)) = n.
Proof.
  intros Hst. destruct b; [apply put_size|]; exact Hst.
Qed.

(** [flatten()] returns a vector of [getProblemSize()] entries, whatever
    the state. *)
Lemma flatten_size (p : t s_t) (sk : Skeleton s_t) :
  length (flatten p sk) = getProblemSize p sk.
Proof.
  unfold flatten, flatten_cursor. cbv zeta.
  set (n := getProblemSize p sk).
  destruct (mIncludePoses p).
  1: apply (fold_left_preserves (fun st => length (fst st) = n));
     [intros b a Hb; unfold flatten_trial_at; apply flatten_trial_size; exact Hb|].
  all: destruct (mIncludeMarkerOffsets p).
  1, 3: apply (fold_left_preserves (fun st => length (fst st) = n));
     [intros b a Hb; unfold flatten_marker; apply put_size; exact Hb|].
  all: repeat apply if_put_size; apply repeat_length.
Qed.

(** Unless its guard fires, [unflatten(x)] followed by [flatten()] gives
    [x] back. *)
Lemma unflatten_then_flatten (p : t s_t) (sk : Skeleton s_t) (x : Vec s_t) :
  trial_shapes_ok p = true ->
  length x = getProblemSize p sk ->
  sameAsLastX p x = false ->
  flatten (fst (unflatten (p, sk) x)) (snd (unflatten (p, sk) x)) = x.
Proof.
  intros Hs Hl Hg.
  unfold unflatten. rewrite (unflatten_cursor_blocks p sk x Hg). cbv zeta. cbn [fst snd].
  destruct (trial_shapes_ok_spec p Hs) as (LV & LA & Hshape).
  rewrite getProblemSize_blocks in Hl.
  set (G := getNumScaleGroups sk) in *.
  set (S := getGroupScaleDim sk) in *.
  set (d := getNumDofs sk) in *.
  set (f1 := mIncludeMasses p) in *.
  set (f2 := mIncludeCOMs p) in *.
  set (f3 := mIncludeInertias p) in *.
  set (f4 := mIncludeBodyScales p) in *.
  set (fM := mIncludeMarkerOffsets p) in *.
  set (fP := mIncludePoses p) in *.
  set (c1 := block_size f1 G) in *.
  set (c2 := c1 + block_size f2 (G * 3)) in *.
  set (c3 := c2 + block_size f3 (G * 6)) in *.
  set (c4 := c3 + block_size f4 S) in *.
  destruct (unflatten_markers_block x fM (mMarkers p) c4) as (M' & EM & LM & HM).
  rewrite EM. cbn [fst snd].
  set (c5 := c4 + block_size fM (length (mMarkers p) * 3)) in *.
  destruct (unflatten_poses_block x fP d c5 (mPoses p) (mVels p) (mAccs p) LV LA Hshape)
    as (P' & V' & A' & EP & LP & HcA & HP).
  rewrite EP. cbn [fst snd].
  set (cEnd := c5 + block_size fP (trials_offset d (mAccs p) (length (mPoses p)))) in *.
  unfold flatten, flatten_cursor. cbv zeta.
  rewrite getProblemSize_blocks.
  cbn [with_state mIncludeMasses mIncludeCOMs mIncludeInertias mIncludeBodyScales
       mIncludeMarkerOffsets mIncludePoses mMarkers mPoses mVels mAccs
       getNumDofs getNumScaleGroups getGroupScaleDim getGroupMasses getGroupCOMs
       getGroupInertias getGroupScales].
  fold f1 f2 f3 f4 fM fP.
  rewrite LM, LP, (trials_offset_ext d (mAccs p) A' (length (mPoses p)) HcA).
  fold c1 c2 c3 c4 c5 cEnd. rewrite <- Hl.
  destruct (put_block x f1 G (if f1 then segment x 0 G else getGroupMasses sk)
              (zeros (length x)) 0 (agrees_upto_zeros x))
    as (fl1 & E1 & Ag1);
    [subst cEnd c5 c4 c3 c2 c1; lia | intros ->; reflexivity |].
  rewrite E1. clear E1. change (0 + block_size f1 G) with c1 in *.
  destruct (put_block x f2 (G * 3) (if f2 then segment x c1 (G * 3) else getGroupCOMs sk)
              fl1 c1 Ag1)
    as (fl2 & E2 & Ag2);
    [subst cEnd c5 c4 c3 c2; lia | intros ->; reflexivity |].
  rewrite E2. clear E2. fold c2 in Ag2 |- *.
  destruct (put_block x f3 (G * 6) (if f3 then segment x c2 (G * 6) else getGroupInertias sk)
              fl2 c2 Ag2)
    as (fl3 & E3 & Ag3);
    [subst cEnd c5 c4 c3; lia | intros ->; reflexivity |].
  rewrite E3. clear E3. fold c3 in Ag3 |- *.
  destruct (put_block x f4 S (if f4 then segment x c3 S else getGroupScales sk)
              fl3 c3 Ag3)
    as (fl4 & E4 & Ag4);
    [subst cEnd c5 c4; lia | intros ->; reflexivity |].
  rewrite E4. clear E4. fold c4 in Ag4 |- *.
  destruct (flatten_markers_block x fM M' c4 fl4) as (fl5 & E5 & Ag5);
    [rewrite LM; exact HM | exact Ag4 | rewrite LM; subst cEnd c5; lia |].
  rewrite LM in E5, Ag5. rewrite E5. clear E5. fold c5 in Ag5 |- *.
  destruct (flatten_poses_block x fP d c5 P' V' A' (mAccs p) fl5 HcA) as (fl6 & E6 & Ag6);
    [rewrite LP; exact HP | exact Ag5 | rewrite LP; subst cEnd; lia |].
  rewrite LP in E6, Ag6. rewrite E6. clear E6. fold cEnd in Ag6.
  cbn [fst]. apply agrees_upto_all. rewrite Hl. exact Ag6.
Qed.

(** When the guard fires nothing is written. *)
Lemma unflatten_guarded (p : t s_t) (sk : Skeleton s_t) (x : Vec s_t) :
  sameAsLastX p x = true -> unflatten (p, sk) x = (p, sk).
Proof.
  intros Hg. unfold unflatten, unflatten_cursor.
  unfold sameAsLastX in Hg. rewrite Hg. reflexivity.
Qed.
End RoundTripMain.

(** ** C1: the round trip *)

Section RoundTripClaim.
Import DynamicsFitProblem.

(** C1 (as amended).  For every combination of inclusion flags, every state
    whose trajectories have the shape the constructor gives them, and every
    [x] of [getProblemSize()] entries on which the guard of [unflatten]
    does not fire, [unflatten(x)] followed by [flatten()] returns [x]
    exactly; when the guard fires [unflatten] writes nothing; and
    [flatten()] always returns [getProblemSize()] entries. *)
Theorem unflatten_flatten_roundtrip
    {s_t : Type} `{Scalar s_t} (p : t s_t) (sk : Skeleton s_t) (x : Vec s_t) :
  trial_shapes_ok p = true ->
  length x = getProblemSize p sk ->
  sameAsLastX p x = false ->
  flatten (fst (unflatten (p, sk) x)) (snd (unflatten (p, sk) x)) = x
  /\ (forall y, sameAsLastX p y = true -> unflatten (p, sk) y = (p, sk))
  /\ (forall (p' : t s_t) sk', length (flatten p' sk') = getProblemSize p' sk').
Proof.
  intros Hshape Hlen Hguard.
  split; [|split].
  - apply unflatten_then_flatten; assumption.
  - intros y Hy. apply unflatten_guarded; exact Hy.
  - intros p' sk'. apply flatten_size.
Qed.

Lemma unflatten_flatten_roundtrip_witness :
  flatten (fst (unflatten (roundtrip_problem, roundtrip_skeleton) roundtrip_x))
          (snd (unflatten (roundtrip_problem, roundtrip_skeleton) roundtrip_x))
  = roundtrip_x
  /\ (forall y, sameAsLastX roundtrip_problem y = true ->
                unflatten (roundtrip_problem, roundtrip_skeleton) y
                = (roundtrip_problem, roundtrip_skeleton))
  /\ (forall (p' : t float) sk', length (flatten p' sk') = getProblemSize p' sk').
Proof.
  apply (unflatten_flatten_roundtrip roundtrip_problem roundtrip_skeleton roundtrip_x).
  - vm_compute. reflexivity.
  - vm_compute. reflexivity.
  - vm_compute. reflexivity.
Defined.

(** C1 (counterexample).  After [unflatten([+0.0])], the vector [[-0.0]]
    has the right size and the state has the right shape, yet
    [unflatten([-0.0])] followed by [flatten()] returns [[+0.0]]: the two
    vectors compare equal, the guard fires and nothing is written. *)
Lemma roundtrip_fails_when_guard_fires :
  let st := unflatten (masses_only, roundtrip_skeleton) [PrimFloat.zero] in
  trial_shapes_ok (fst st) = true
  /\ length [negative_zero] = getProblemSize (fst st) (snd st)
  /\ flatten (fst (unflatten st [negative_zero])) (snd (unflatten st [negative_zero]))
     = [PrimFloat.zero]
  /\ [PrimFloat.zero] <> [negative_zero].
Proof.
  cbv zeta. split; [|split; [|split]]; try (vm_compute; reflexivity).
  intros E.
  apply (f_equal (fun v => match v with
                           | z :: _ => PrimFloat.ltb (PrimFloat.div PrimFloat.one z) PrimFloat.zero
                           | [] => false
                           end)) in E.
  vm_compute in E. discriminate.
Qed.
End RoundTripClaim.

(** ** C3 and C7: the finite-difference constraints and their Jacobian *)

Section ConstraintCounts.
Context {s_t : Type} `{Scalar s_t}.
Import DynamicsFitProblem.

Lemma length_flat_map_const {A B : Type} (f : A -> list B) (l : list A) (n : nat) :
  (forall a, length (f a) = n) -> length (flat_map f l) = length l * n.
Proof.
  intros Hf; induction l as [|a l IH]; simpl; [reflexivity|].
  rewrite length_app, Hf, IH; reflexivity.
Qed.

(** One trial produces two rows per degree of freedom and acceleration
    frame, and one more row per degree of freedom. *)
Lemma constraint_rows_trial_length (d : nat) (dt : s_t) (P V A : Matrix s_t) :
  length (constraint_rows_trial d dt P V A) = cols A * d * 2 + d.
Proof.
  unfold constraint_rows_trial.
  rewrite length_app, length_map, length_seq.
  rewrite (length_flat_map_const _ _ (d + d)).
  - rewrite length_seq. lia.
  - intros t. rewrite length_app, !length_map, length_seq. reflexivity.
Qed.

Lemma constraint_rows_length (p : t s_t) (sk : Skeleton s_t) :
  length (constraint_rows p sk) = rows_upto (getNumDofs sk) (mAccs p) (length (mAccs p)).
Proof.
  unfold constraint_rows.
  generalize (length (mAccs p)) as n.
  induction n as [|n IH]; [reflexivity|].
  rewrite seq_S, flat_map_app, length_app, IH. simpl.
  rewrite app_nil_r, constraint_rows_trial_length. reflexivity.
Qed.

(** [getConstraintSize()] counts the trailing block of one trial only:
    it falls short of the rows produced by one block of [dofs] rows for
    every trial after the first. *)
Lemma getConstraintSize_rows (p : t s_t) (sk : Skeleton s_t) :
  mIncludePoses p = true ->
  getConstraintSize p sk + length (mAccs p) * getNumDofs sk
  = length (constraint_rows p sk) + getNumDofs sk.
Proof.
  intros Hp. rewrite constraint_rows_length.
  unfold getConstraintSize. rewrite Hp.
  generalize (length (mAccs p)) as n.
  induction n as [|n IH]; [simpl; lia|].
  rewrite fold_left_seq_S. simpl rows_upto. lia.
Qed.

(** Filling a buffer entry by entry from the cursor: all the values fit,
    or a write falls past the end. *)
Lemma fill_fits (rows buf : Vec s_t) (c : nat) :
  c + length rows <= length buf ->
  fold_left fill_step rows (Some (buf, c))
  = Some (firstn c buf ++ rows ++ skipn (c + length rows) buf, c + length rows).
Proof.
  revert buf c; induction rows as [|a rows IH]; intros buf c Hc;
    cbn [fold_left length] in *.
  - rewrite !Nat.add_0_r, firstn_skipn. reflexivity.
  - unfold fill_step at 2. unfold write_at.
    destruct (c <? length buf) eqn:E; [|apply Nat.ltb_ge in E; lia].
    rewrite IH by (rewrite set_nth_length; lia).
    replace (c + 1) with (S c) by lia.
    rewrite firstn_set_nth_S by lia.
    rewrite skipn_set_nth_gt by lia.
    rewrite <- app_assoc. cbn [app].
    replace (S c + length rows) with (c + S (length rows)) by lia.
    reflexivity.
Qed.

Lemma fill_overflows (rows buf : Vec s_t) (c : nat) :
  c <= length buf ->
  length buf < c + length rows ->
  fold_left fill_step rows (Some (buf, c))
  = None.
Proof.
  revert buf c; induction rows as [|a rows IH]; intros buf c Hle Hc;
    cbn [fold_left length] in *; [lia|].
  unfold fill_step at 2. unfold write_at.
  destruct (c <? length buf) eqn:E.
  - apply Nat.ltb_lt in E. apply IH; rewrite set_nth_length; lia.
  - clear. induction rows as [|b rows IH]; simpl; auto.
Qed.

(** With one trial (or none of the constraints' rows to write)
    [computeConstraints] fills its vector; with two or more trials of a
    skeleton that has degrees of freedom it writes past the end. *)
Lemma computeConstraints_fits (p : t s_t) (sk : Skeleton s_t) (x : Vec s_t) :
  mIncludePoses p = true ->
  length (mAccs (fst (unflatten (p, sk) x))) = 1 ->
  fst (computeConstraints (p, sk) x)
  = Some (constraint_rows (fst (unflatten (p, sk) x)) (snd (unflatten (p, sk) x))).
Proof.
  intros Hp Hone. unfold computeConstraints. cbn [fst]. rewrite Hp.
  destruct (unflatten (p, sk) x) as [p' sk'] eqn:E. cbn [fst snd] in *.
  assert (Hp' : mIncludePoses p' = true).
  { replace p' with (fst (unflatten (p, sk) x)) by (rewrite E; reflexivity).
    unfold unflatten, unflatten_cursor.
    destruct (_ && _); [exact Hp|].
    repeat match goal with
      | |- context [let '(_, _) := ?e in _] => destruct e
      end.
    exact Hp. }
  pose proof (getConstraintSize_rows p' sk' Hp') as Hrows.
  rewrite Hone in Hrows.
  rewrite fill_fits by (rewrite zeros_length; simpl; lia).
  cbn [option_map fst]. rewrite firstn_0. simpl app.
  rewrite skipn_all2 by (rewrite zeros_length; simpl; lia).
  rewrite app_nil_r. reflexivity.
Qed.

Lemma computeConstraints_overflows (p : t s_t) (sk : Skeleton s_t) (x : Vec s_t) :
  mIncludePoses p = true ->
  mIncludePoses (fst (unflatten (p, sk) x)) = true ->
  2 <= length (mAccs (fst (unflatten (p, sk) x))) ->
  0 < getNumDofs (snd (unflatten (p, sk) x)) ->
  fst (computeConstraints (p, sk) x) = None.
Proof.
  intros Hp Hp' Htwo Hd. unfold computeConstraints. cbn [fst]. rewrite Hp.
  destruct (unflatten (p, sk) x) as [p' sk'] eqn:E. cbn [fst snd] in *.
  pose proof (getConstraintSize_rows p' sk' Hp') as Hrows.
  rewrite fill_overflows; [reflexivity | lia |].
  rewrite zeros_length. simpl. nia.
Qed.
End ConstraintCounts.

Section SparseJacobian.
Context {s_t : Type} `{Scalar s_t}.
Import DynamicsFitProblem.

Lemma TripleRows_app (d r0 r1 r2 : nat) (l l' : list (nat * nat * s_t))
    (dts dts' : list s_t) :
  TripleRows d r0 l dts r1 -> TripleRows d r1 l' dts' r2 ->
  TripleRows d r0 (l ++ l') (dts ++ dts') r2.
Proof.
  induction 1 as [r | r a b dt l dts r' Hb Hl IH]; intros Hl'; simpl.
  - exact Hl'.
  - apply TripleRows_row; auto.
Qed.

Lemma TripleRows_one (d r a b c : nat) (dt : s_t) :
  c = a + d -> b = a + d * 3 \/ b = a + d * 2 ->
  TripleRows d r [(r, a, s_of_Z 1); (r, b, s_of_Z (-1)); (r, c, dt)] [dt] (r + 1).
Proof.
  intros -> Hb. apply TripleRows_row; [exact Hb|].
  replace (r + 1) with (S r) by lia. apply TripleRows_nil.
Qed.

Lemma repeat_snoc {A : Type} (a : A) (n : nat) : repeat a n ++ [a] = repeat a (S n).
Proof.
  induction n as [|n IH]; [reflexivity|]. cbn [repeat app]. rewrite IH. reflexivity.
Qed.

(** A loop that adds one row of three triples per round, all with the
    same time step. *)
Lemma rows_loop (d : nat) (dt : s_t)
    (step : list (nat * nat * s_t) * nat -> nat -> list (nat * nat * s_t) * nat) (n : nat) :
  (forall result r i,
     exists l, step (result, r) i = (result ++ l, r + 1)
               /\ TripleRows d r l [dt] (r + 1)) ->
  forall result r,
  exists l,
    fold_left step (seq 0 n) (result, r) = (result ++ l, r + n)
    /\ TripleRows d r l (repeat dt n) (r + n).
Proof.
  intros Hstep result r. induction n as [|n IH].
  - exists []. simpl. rewrite app_nil_r, Nat.add_0_r. split; [reflexivity|constructor].
  - destruct IH as (l & E & Hl).
    rewrite fold_left_seq_S, E.
    destruct (Hstep (result ++ l) (r + n) n) as (l' & E' & Hl').
    exists (l ++ l'). rewrite E', <- app_assoc.
    replace (r + S n) with (r + n + 1) by lia.
    split; [reflexivity|]. rewrite <- repeat_snoc.
    eapply TripleRows_app; eauto.
Qed.

Lemma sparse_frame_rows (d : nat) (dt : s_t) (result : list (nat * nat * s_t))
    (r c t : nat) :
  exists l,
    sparse_frame d dt (result, r, c) t = (result ++ l, r + d + d, c + d * 3)
    /\ TripleRows d r l (repeat dt (d + d)) (r + d + d).
Proof.
  unfold sparse_frame.
  destruct (rows_loop d dt (sparse_q_row d dt c) d) with (result := result) (r := r)
    as (l1 & E1 & H1).
  { intros res r' i. eexists. split; [reflexivity|].
    apply TripleRows_one; [lia | left; lia]. }
  rewrite E1.
  destruct (rows_loop d dt (sparse_dq_row d dt c) d) with (result := result ++ l1) (r := r + d)
    as (l2 & E2 & H2).
  { intros res r' i. eexists. split; [reflexivity|].
    apply TripleRows_one; [lia | left; lia]. }
  rewrite E2. exists (l1 ++ l2). rewrite app_assoc. split; [reflexivity|].
  rewrite repeat_app.
  eapply TripleRows_app; eauto.
Qed.

Lemma sparse_frames_rows (d : nat) (dt : s_t) (n : nat)
    (result : list (nat * nat * s_t)) (r c : nat) :
  exists l,
    fold_left (sparse_frame d dt) (seq 0 n) (result, r, c)
    = (result ++ l, r + n * (d + d), c + n * (d * 3))
    /\ TripleRows d r l (repeat dt (n * (d + d))) (r + n * (d + d)).
Proof.
  induction n as [|n IH].
  - exists []. simpl. rewrite app_nil_r, !Nat.add_0_r. split; [reflexivity|constructor].
  - destruct IH as (l & E & Hl).
    rewrite fold_left_seq_S, E.
    destruct (sparse_frame_rows d dt (result ++ l) (r + n * (d + d)) (c + n * (d * 3)) n)
      as (l' & E' & Hl').
    exists (l ++ l'). rewrite E', <- app_assoc.
    split; [f_equal; [f_equal|]; lia|].
    replace (S n * (d + d)) with (n * (d + d) + (d + d)) by lia.
    rewrite repeat_app.
    eapply TripleRows_app; [exact Hl|].
    replace (r + (n * (d + d) + (d + d))) with (r + n * (d + d) + d + d) by lia. exact Hl'.
Qed.

Lemma sparse_trial_rows (d : nat) (dt : s_t) (accs : Matrix s_t)
    (result : list (nat * nat * s_t)) (r c : nat) :
  exists l,
    sparse_trial d dt accs (result, r, c)
    = (result ++ l, r + (cols accs * d * 2 + d), c + (cols accs * d * 3 + d * 3))
    /\ TripleRows d r l (repeat dt (cols accs * d * 2 + d)) (r + (cols accs * d * 2 + d)).
Proof.
  unfold sparse_trial.
  destruct (sparse_frames_rows d dt (cols accs) result r c) as (l & E & Hl).
  rewrite E.
  destruct (rows_loop d dt (sparse_last_row d dt (c + cols accs * (d * 3))) d)
    with (result := result ++ l) (r := r + cols accs * (d + d))
    as (l' & E' & Hl').
  { intros res r' i. eexists. split; [reflexivity|].
    apply TripleRows_one; [lia | right; lia]. }
  rewrite E'. exists (l ++ l'). rewrite <- app_assoc.
  split; [f_equal; [f_equal|]; lia|].
  replace (cols accs * d * 2 + d) with (cols accs * (d + d) + d) by lia.
  rewrite repeat_app.
  eapply TripleRows_app; [exact Hl|].
  replace (r + (cols accs * (d + d) + d)) with (r + cols accs * (d + d) + d) by lia.
  exact Hl'.
Qed.

Lemma flat_map_seq_S {B : Type} (f : nat -> list B) (n : nat) :
  flat_map f (seq 0 (S n)) = flat_map f (seq 0 n) ++ f n.
Proof.
  rewrite seq_S, flat_map_app. cbn [plus flat_map]. rewrite app_nil_r. reflexivity.
Qed.

(** Every row of the sparse Jacobian is a group of three triples, [+1],
    [-1] and the time step of the row's trial, and the rows are those
    [computeConstraints] produces, in order. *)
Lemma computeSparseConstraintsJacobian_rows (p : t s_t) (sk : Skeleton s_t) :
  mIncludePoses p = true ->
  TripleRows (getNumDofs sk) 0 (computeSparseConstraintsJacobian p sk)
    (row_timesteps (getNumDofs sk) (trialTimesteps (mInit p)) (mAccs p) (length (mAccs p)))
    (rows_upto (getNumDofs sk) (mAccs p) (length (mAccs p))).
Proof.
  intros Hp. unfold computeSparseConstraintsJacobian. rewrite Hp.
  set (d := getNumDofs sk).
  match goal with
  | |- context [fold_left _ _ ([], 0, ?c)] => generalize c
  end.
  intros c0.
  assert (Hgen : forall n, exists l c,
             fold_left (sparse_trial_at d (trialTimesteps (mInit p)) (mAccs p))
               (seq 0 n) ([], 0, c0)
             = (l, rows_upto d (mAccs p) n, c)
             /\ TripleRows d 0 l
                  (row_timesteps d (trialTimesteps (mInit p)) (mAccs p) n)
                  (rows_upto d (mAccs p) n)).
  { induction n as [|n IH].
    - exists [], c0. split; [reflexivity|constructor].
    - destruct IH as (l & c & E & Hl).
      rewrite fold_left_seq_S, E. unfold sparse_trial_at.
      destruct (sparse_trial_rows d (nth n (trialTimesteps (mInit p)) s_zero)
                  (nth n (mAccs p) []) l (rows_upto d (mAccs p) n) c)
        as (l' & E' & Hl').
      rewrite E'. eexists _, _. split; [reflexivity|].
      unfold row_timesteps. rewrite flat_map_seq_S.
      eapply TripleRows_app; eauto. }
  destruct (Hgen (length (mAccs p))) as (l & c & E & Hl).
  rewrite E. exact Hl.
Qed.

(** In such a list every row index between the first and the last lies
    on exactly three triples, and no other index on any. *)
Lemma TripleRows_count (d r r' : nat) (l : list (nat * nat * s_t)) (dts : list s_t) :
  TripleRows d r l dts r' ->
  r <= r' /\
  forall k, triples_on_row k l = if (r <=? k) && (k <? r') then 3 else 0.
Proof.
  unfold triples_on_row.
  induction 1 as [r | r a b dt l dts r' Hb Hl [Hle IH]].
  - split; [lia|]. intros k. simpl.
    destruct (r <=? k) eqn:E1, (k <? r) eqn:E2; try reflexivity.
    apply Nat.leb_le in E1. apply Nat.ltb_lt in E2. lia.
  - split; [lia|]. intros k. cbn [filter fst snd].
    specialize (IH k).
    destruct (Nat.eqb_spec r k) as [->|Hne].
    + cbn [length]. rewrite IH.
      replace (S k <=? k) with false by (symmetry; apply Nat.leb_gt; lia).
      replace (k <=? k) with true by (symmetry; apply Nat.leb_le; lia).
      replace (k <? r') with true by (symmetry; apply Nat.ltb_lt; lia).
      reflexivity.
    + rewrite IH.
      destruct (S r <=? k) eqn:E1, (r <=? k) eqn:E2; try reflexivity.
      * apply Nat.leb_le in E1. apply Nat.leb_gt in E2. lia.
      * apply Nat.leb_gt in E1. apply Nat.leb_le in E2. lia.
Qed.
End SparseJacobian.

Section ConstraintClaims.
Import DynamicsFitProblem.

(** C3 (defect).  The claim asks [getConstraintSize()] to be the length
    of what [computeConstraints(x)] produces for every number of trials.
    With two trials of three frames and one degree of freedom,
    [getConstraintSize()] is 5 while six constraints are produced (two
    per acceleration frame and one trailing, for each trial): the sixth
    is written past the end of the vector. *)
Theorem getConstraintSize_counts_one_trailing_block :
  getConstraintSize two_trials_problem two_trials_skeleton = 5
  /\ length (constraint_rows two_trials_problem two_trials_skeleton) = 6
  /\ fst (computeConstraints (two_trials_problem, two_trials_skeleton) two_trials_x) = None.
Proof.
  repeat split; vm_compute; reflexivity.
Qed.

(** C7 (defect).  The sparse Jacobian of the same problem has three
    triples on each of its six rows, the last of them on row 5; the dense
    matrix is allocated with [getConstraintSize() = 5] rows, so the
    triples of row 5 lie outside it. *)
Theorem computeConstraintsJacobian_has_too_few_rows :
  length (computeSparseConstraintsJacobian two_trials_problem two_trials_skeleton) = 18
  /\ triples_on_row 5 (computeSparseConstraintsJacobian two_trials_problem two_trials_skeleton)
     = 3
  /\ getConstraintSize two_trials_problem two_trials_skeleton = 5
  /\ computeConstraintsJacobian two_trials_problem two_trials_skeleton = None.
Proof.
  repeat split; vm_compute; reflexivity.
Qed.
End ConstraintClaims.

(** ** C4 and C5: the residual helper *)

Section ResidualHelper.
Context {s_t : Type} `{Scalar s_t} `{Collaborators s_t}.
Import ResidualForceHelper.

(** A loop whose body only reads the skeleton leaves it as it was. *)
Lemma for_each_reads {A B : Type} (l : list A) (acc : B)
    (body : B -> A -> SkelM s_t B) (sk : Skeleton s_t) :
  (forall b a, snd (body b a sk) = sk) ->
  for_each l acc body sk = (fold_left (fun b a => fst (body b a sk)) l acc, sk).
Proof.
  intros Hbody. revert acc. induction l as [|a l IH]; intros acc; simpl.
  - reflexivity.
  - unfold bind. specialize (Hbody acc a).
    destruct (body acc a sk) as [b sk'] eqn:E. simpl in Hbody. subst sk'.
    rewrite IH. reflexivity.
Qed.

Lemma fold_left_map {A B C : Type} (f : C -> B -> C) (g : A -> B) (l : list A) (c : C) :
  fold_left f (map g l) c = fold_left (fun c a => f c (g a)) l c.
Proof.
  revert c; induction l as [|a l IH]; intros c; simpl; auto.
Qed.

(** What [calculateResidual] returns, and the skeleton it leaves. *)
Lemma calculateResidual_run (h : t) (q dq ddq forcesConcat : Vec s_t) (sk : Skeleton s_t) :
  calculateResidual h q dq ddq forcesConcat sk
  = (inverse_dynamics_residual h sk q dq ddq forcesConcat, sk).
Proof.
  unfold calculateResidual, inverse_dynamics_residual, contact_forces.
  unfold bind, gets, modify, ret.
  rewrite for_each_reads by reflexivity.
  rewrite fold_left_map.
  destruct sk; reflexivity.
Qed.

(** C4.  For every [q], [dq], [ddq] and concatenated contact wrenches,
    [calculateResidual] returns exactly the first six entries of
    [M(q) ddq + C(q, dq) - F], where [F] is the sum over the contact bodies
    of the generalized force of each six-entry wrench. *)
Theorem calculateResidual_is_inverse_dynamics_residual
    (h : t) (q dq ddq forcesConcat : Vec s_t) (sk : Skeleton s_t) :
  fst (calculateResidual h q dq ddq forcesConcat sk)
  = head 6
      (vsub (vadd (mat_vec (getNumDofs sk)
                     (getMassMatrix (setAccelerations ddq (setVelocities dq (setPositions q sk))))
                     ddq)
                  (getCoriolisAndGravityForces
                     (setAccelerations ddq (setVelocities dq (setPositions q sk)))))
            (contact_forces h (setAccelerations ddq (setVelocities dq (setPositions q sk)))
               forcesConcat)).
Proof.
  rewrite calculateResidual_run. reflexivity.
Qed.

(** [calculateResidual] and [calculateResidualNorm] leave the skeleton as
    they found it. *)
Lemma calculateResidual_restores (h : t) (q dq ddq forcesConcat : Vec s_t)
    (sk : Skeleton s_t) :
  snd (calculateResidual h q dq ddq forcesConcat sk) = sk.
Proof.
  rewrite calculateResidual_run. reflexivity.
Qed.

Lemma calculateResidualNorm_run (h : t) (q dq ddq forcesConcat : Vec s_t) (useL1 : bool)
    (sk : Skeleton s_t) :
  calculateResidualNorm h q dq ddq forcesConcat useL1 sk
  = (let residual := inverse_dynamics_residual h sk q dq ddq forcesConcat in
     if useL1 then s_add (norm (head 3 residual)) (norm (tail 3 residual))
     else squaredNorm residual, sk).
Proof.
  unfold calculateResidualNorm, bind. rewrite calculateResidual_run.
  destruct useL1; reflexivity.
Qed.

Lemma calculateResidualNorm_restores (h : t) (q dq ddq forcesConcat : Vec s_t)
    (useL1 : bool) (sk : Skeleton s_t) :
  snd (calculateResidualNorm h q dq ddq forcesConcat useL1 sk) = sk.
Proof.
  rewrite calculateResidualNorm_run. reflexivity.
Qed.

(** The state a computation is left in once the three saved vectors are
    written back. *)
Lemma restored_kinematics {A : Type} (m : SkelM s_t A) (pos vel acc : Vec s_t)
    (r : A) (sk : Skeleton s_t) :
  let sk' :=
    snd (bind m (fun _ =>
           bind (modify (setPositions pos)) (fun _ =>
           bind (modify (setVelocities vel)) (fun _ =>
           bind (modify (setAccelerations acc)) (fun _ => ret r)))) sk) in
  getPositions sk' = pos /\ getVelocities sk' = vel /\ getAccelerations sk' = acc.
Proof.
  unfold bind, modify, ret. destruct (m sk) as [a sk1]. simpl. auto.
Qed.

(** The two finite-difference methods restore positions, velocities and
    accelerations. *)
Lemma finiteDifferenceResidualJacobianWrt_restores
    (h : t) (q dq ddq forcesConcat : Vec s_t) (wrt : WithRespectTo s_t) (sk : Skeleton s_t) :
  let sk' := snd (finiteDifferenceResidualJacobianWrt h q dq ddq forcesConcat wrt sk) in
  getPositions sk' = getPositions sk
  /\ getVelocities sk' = getVelocities sk
  /\ getAccelerations sk' = getAccelerations sk.
Proof.
  unfold finiteDifferenceResidualJacobianWrt, bind, gets, modify, ret. cbv zeta.
  match goal with
  | |- context [for_each ?l ?a ?b ?s] => destruct (for_each l a b s) as [probed sk1]
  end.
  simpl. auto.
Qed.

Lemma finiteDifferenceResidualNormGradientWrt_restores
    (h : t) (q dq ddq forcesConcat : Vec s_t) (wrt : WithRespectTo s_t) (useL1 : bool)
    (sk : Skeleton s_t) :
  let sk' :=
    snd (finiteDifferenceResidualNormGradientWrt h q dq ddq forcesConcat wrt useL1 sk) in
  getPositions sk' = getPositions sk
  /\ getVelocities sk' = getVelocities sk
  /\ getAccelerations sk' = getAccelerations sk.
Proof.
  unfold finiteDifferenceResidualNormGradientWrt, bind, gets, modify, ret. cbv zeta.
  match goal with
  | |- context [for_each ?l ?a ?b ?s] => destruct (for_each l a b s) as [probed sk1]
  end.
  simpl. auto.
Qed.

(** [calculateResidualJacobianWrt] restores positions and velocities, and
    leaves the accelerations equal to the velocities the skeleton had. *)
Lemma calculateResidualJacobianWrt_kinematics
    (h : t) (q dq ddq forcesConcat : Vec s_t) (wrt : WithRespectTo s_t) (sk : Skeleton s_t) :
  let sk' := snd (calculateResidualJacobianWrt h q dq ddq forcesConcat wrt sk) in
  getPositions sk' = getPositions sk
  /\ getVelocities sk' = getVelocities sk
  /\ getAccelerations sk' = getVelocities sk.
Proof.
  unfold calculateResidualJacobianWrt. cbv zeta.
  destruct wrt; unfold bind, gets, modify, ret;
    repeat match goal with
      | |- context [for_each ?l ?a ?b ?s] => destruct (for_each l a b s) as [? ?]
      | |- context [finiteDifferenceResidualJacobianWrt ?a ?b ?c ?d ?e ?f ?g] =>
          destruct (finiteDifferenceResidualJacobianWrt a b c d e f g) as [? ?]
      end;
    simpl; auto.
Qed.

Lemma calculateResidualNormGradientWrt_kinematics
    (h : t) (q dq ddq forcesConcat : Vec s_t) (wrt : WithRespectTo s_t) (useL1 : bool)
    (sk : Skeleton s_t) :
  let sk' := snd (calculateResidualNormGradientWrt h q dq ddq forcesConcat wrt useL1 sk) in
  getPositions sk' = getPositions sk
  /\ getVelocities sk' = getVelocities sk
  /\ getAccelerations sk' = getVelocities sk.
Proof.
  unfold calculateResidualNormGradientWrt, bind. cbv zeta.
  rewrite calculateResidual_run.
  pose proof (calculateResidualJacobianWrt_kinematics h q dq ddq forcesConcat wrt sk) as Hk.
  cbv zeta in Hk.
  destruct (calculateResidualJacobianWrt h q dq ddq forcesConcat wrt sk) as [jac sk'].
  destruct useL1; exact Hk.
Qed.
End ResidualHelper.

Section ResidualHelperClaims.
Import ResidualForceHelper.
Open Scope float_scope.

(** C5 (defect).  The claim asks every public method of the helper to
    leave positions, velocities and accelerations as they were.  On a
    skeleton whose velocities are all [1] and whose accelerations are all
    [2], [calculateResidualJacobianWrt] (and with it
    [calculateResidualNormGradientWrt]) returns with the accelerations
    set to the velocities; the other four methods restore all three. *)
Theorem calculateResidualJacobianWrt_overwrites_accelerations :
  getAccelerations moving_skeleton = [2; 2; 2; 2; 2; 2]
  /\ getAccelerations
       (snd (@calculateResidualJacobianWrt float _ free_body no_contacts
               [0; 0; 0; 0; 0; 0] [0; 0; 0; 0; 0; 0] [0; 0; 0; 0; 0; 0] [] POSITION
               moving_skeleton))
     = [1; 1; 1; 1; 1; 1]
  /\ getAccelerations
       (snd (@calculateResidualNormGradientWrt float _ free_body no_contacts
               [0; 0; 0; 0; 0; 0] [0; 0; 0; 0; 0; 0] [0; 0; 0; 0; 0; 0] [] POSITION false
               moving_skeleton))
     = [1; 1; 1; 1; 1; 1]
  /\ snd (@calculateResidual float _ free_body no_contacts
            [0; 0; 0; 0; 0; 0] [0; 0; 0; 0; 0; 0] [0; 0; 0; 0; 0; 0] [] moving_skeleton)
     = moving_skeleton.
Proof.
  repeat split; vm_compute; reflexivity.
Qed.
End ResidualHelperClaims.

(** ** C6 and C8: the loss *)

Section Loss.
Context {s_t : Type} `{Scalar s_t} `{Collaborators s_t}.
Import DynamicsFitProblem.

Lemma same_but_positions_refl (sk : Skeleton s_t) : same_but_positions sk sk.
Proof. reflexivity. Qed.

Lemma same_but_positions_set (v : Vec s_t) (sk sk0 : Skeleton s_t) :
  same_but_positions sk sk0 -> same_but_positions (setPositions v sk) sk0.
Proof.
  unfold same_but_positions. intros E. rewrite <- E. destruct sk; reflexivity.
Qed.

(** The residual does not depend on the positions the skeleton is in
    when the helper is called: they are overwritten with [q]. *)
Lemma inverse_dynamics_residual_positions (h : ResidualForceHelper.t)
    (sk sk0 : Skeleton s_t) (q dq ddq forcesConcat : Vec s_t) :
  same_but_positions sk sk0 ->
  inverse_dynamics_residual h sk q dq ddq forcesConcat
  = inverse_dynamics_residual h sk0 q dq ddq forcesConcat.
Proof.
  unfold same_but_positions, inverse_dynamics_residual. intros E.
  replace (setPositions q sk) with (setPositions q (setPositions [] sk))
    by (destruct sk; reflexivity).
  rewrite E. destruct sk0; reflexivity.
Qed.

Lemma residualNormAt_run (p : t s_t) (trial k : nat) (sk sk0 : Skeleton s_t) :
  same_but_positions sk sk0 ->
  residualNormAt p trial k sk = (fst (residualNormAt p trial k sk0), sk).
Proof.
  intros E. unfold residualNormAt.
  rewrite !calculateResidualNorm_run. cbv zeta. cbn [fst].
  rewrite (inverse_dynamics_residual_positions _ sk sk0) by exact E.
  reflexivity.
Qed.

Lemma loss_frame_run (p : t s_t) (trial k : nat) (acc : LossTerms) (sk sk0 : Skeleton s_t) :
  same_but_positions sk sk0 ->
  exists acc' sk',
    loss_frame p trial acc k sk = (acc', sk')
    /\ same_but_positions sk' sk0
    /\ residualRMS acc'
       = if enters p trial k then added p sk0 trial (residualRMS acc) k
         else residualRMS acc.
Proof.
  intros E. unfold loss_frame, enters, added. cbv zeta.
  unfold bind at 1. unfold modify at 1.
  set (sk1 := setPositions (col (nth trial (mPoses p) []) k) sk).
  assert (E1 : same_but_positions sk1 sk0) by (apply same_but_positions_set; exact E).
  unfold bind at 1.
  destruct ((k <? cols (nth trial (mAccs p) [])) && negb (missingGRF p trial k)).
  - unfold bind at 1. rewrite (residualNormAt_run p trial k sk1 sk0 E1).
    unfold ret at 1. unfold bind, gets, ret.
    match goal with
    | |- context [let '(_, _) := ?e in _] => destruct e
    end.
    eexists _, _. split; [reflexivity|]. split; [exact E1|]. reflexivity.
  - unfold ret at 1. unfold bind, gets, ret.
    match goal with
    | |- context [let '(_, _) := ?e in _] => destruct e
    end.
    eexists _, _. split; [reflexivity|]. split; [exact E1|]. reflexivity.
Qed.

Lemma loss_frames_run (p : t s_t) (trial : nat) (sk0 : Skeleton s_t) (l : list nat) :
  forall (acc : LossTerms) (sk : Skeleton s_t),
  same_but_positions sk sk0 ->
  exists acc' sk',
    for_each l acc (loss_frame p trial) sk = (acc', sk')
    /\ same_but_positions sk' sk0
    /\ residualRMS acc'
       = fold_left (added p sk0 trial) (filter (enters p trial) l) (residualRMS acc).
Proof.
  induction l as [|k l IH]; intros acc sk E.
  - exists acc, sk. simpl. auto.
  - destruct (loss_frame_run p trial k acc sk sk0 E) as (acc1 & sk1 & E1 & S1 & R1).
    destruct (IH acc1 sk1 S1) as (acc2 & sk2 & E2 & S2 & R2).
    exists acc2, sk2. cbn [for_each]. unfold bind. rewrite E1, E2.
    split; [reflexivity|]. split; [exact S2|].
    rewrite R2, R1. cbn [filter].
    destruct (enters p trial k); reflexivity.
Qed.

Lemma loss_trials_run (p : t s_t) (sk0 : Skeleton s_t) (l : list nat) :
  forall (acc : LossTerms) (sk : Skeleton s_t),
  same_but_positions sk sk0 ->
  exists acc' sk',
    for_each l acc
      (fun acc trial =>
         for_each (seq 0 (cols (nth trial (mPoses p) []))) acc (loss_frame p trial)) sk
    = (acc', sk')
    /\ same_but_positions sk' sk0
    /\ residualRMS acc'
       = fold_left
           (fun r frame => added p sk0 (fst frame) r (snd frame))
           (flat_map
              (fun trial =>
                 map (pair trial)
                     (filter (enters p trial) (seq 0 (cols (nth trial (mPoses p) [])))))
              l)
           (residualRMS acc).
Proof.
  induction l as [|trial l IH]; intros acc sk E.
  - exists acc, sk. simpl. auto.
  - destruct (loss_frames_run p trial sk0 (seq 0 (cols (nth trial (mPoses p) []))) acc sk E)
      as (acc1 & sk1 & E1 & S1 & R1).
    destruct (IH acc1 sk1 S1) as (acc2 & sk2 & E2 & S2 & R2).
    exists acc2, sk2. cbn [for_each]. unfold bind. rewrite E1, E2.
    split; [reflexivity|]. split; [exact S2|].
    rewrite R2, R1. cbn [flat_map]. rewrite fold_left_app, fold_left_map.
    reflexivity.
Qed.

(** The residual sum of the loss is taken over the frames that have an
    acceleration sample and are not flagged, and each term is divided by
    the number of all frames with an acceleration sample. *)
Lemma loss_terms_residual (p : t s_t) (sk : Skeleton s_t) :
  residualRMS (fst (loss_terms p sk)) = residual_term p sk (totalAccTimesteps p).
Proof.
  unfold loss_terms, residual_term, unflagged_frames.
  destruct (loss_trials_run p sk (seq 0 (length (mPoses p)))
              (mkLossTerms s_zero s_zero s_zero s_zero s_zero 0) sk
              (same_but_positions_refl sk))
    as (acc & sk' & E & _ & R).
  rewrite E. cbn [fst]. rewrite R. reflexivity.
Qed.

(** [unflatten] does not touch the initialization bundle. *)
Lemma unflatten_mInit (p : t s_t) (sk : Skeleton s_t) (x : Vec s_t) :
  mInit (fst (unflatten (p, sk) x)) = mInit p.
Proof.
  unfold unflatten, unflatten_cursor.
  destruct (_ && _); [reflexivity|].
  repeat match goal with
    | |- context [let '(_, _) := ?e in _] => destruct e
    end.
  reflexivity.
Qed.
End Loss.

Section LossClaims.
Import DynamicsFitProblem.

(** C6 (as amended).  In [computeLoss] the residual-force term is the sum
    of [calculateResidualNorm] over exactly the frames that have an
    acceleration sample and are not flagged [probablyMissingGRF], each
    scaled by the residual weight and divided by the number of all frames
    that have an acceleration sample, flagged or not; a flagged frame adds
    nothing to the sum. *)
Theorem computeLoss_residual_term
    {s_t : Type} `{Scalar s_t} `{Collaborators s_t} (p : t s_t) (sk : Skeleton s_t) :
  residualRMS (fst (loss_terms p sk)) = residual_term p sk (totalAccTimesteps p).
Proof.
  apply loss_terms_residual.
Qed.

Open Scope float_scope.

(** C6 (counterexample).  One trial with two acceleration frames, the
    first flagged: the residual norm of the unflagged frame is 4 and the
    residual weight 0.1.  The loss holds [0.1 * (1/2) * 4 = 0.2]; divided by
    the count of unflagged frames, as the claim has it, the term would be
    [0.1 * (1/1) * 4 = 0.4]. *)
Lemma residual_term_is_divided_by_all_acceleration_frames :
  totalAccTimesteps flagged_problem = 2%nat
  /\ unflagged_frames flagged_problem = [(0%nat, 1%nat)]
  /\ residualRMS (fst (@loss_terms float _ free_body flagged_problem moving_skeleton)) = 2 / 10
  /\ option_map fst
       (outcome_value
          (@computeLoss float _ free_body (flagged_problem, moving_skeleton)
             (flatten flagged_problem moving_skeleton) false))
     = Some (2 / 10)
  /\ @residual_term float _ free_body flagged_problem moving_skeleton
       (length (unflagged_frames flagged_problem)) = 4 / 10
  /\ PrimFloat.eqb (2 / 10) (4 / 10) = false.
Proof.
  repeat split; vm_compute; reflexivity.
Qed.

(** C8.  [computeLoss] and [computeGradient] end the process with exit
    code 1 exactly when [probablyMissingGRF] has fewer entries than
    [poseTrials]; with an entry for every trial both return. *)
Theorem loss_and_gradient_exit_without_contact_flags
    {s_t : Type} `{Scalar s_t} `{Collaborators s_t}
    (p : t s_t) (sk : Skeleton s_t) (x : Vec s_t) (logExplanation : bool) :
  let unpopulated :=
    (length (probablyMissingGRF (mInit p)) <? length (poseTrials (mInit p)))%nat in
  exited_with 1 (computeLoss (p, sk) x logExplanation) = unpopulated
  /\ returned (computeLoss (p, sk) x logExplanation) = negb unpopulated
  /\ exited_with 1 (computeGradient (p, sk) x) = unpopulated
  /\ returned (computeGradient (p, sk) x) = negb unpopulated.
Proof.
  cbv zeta.
  rewrite <- (unflatten_mInit p sk x).
  unfold computeLoss, computeGradient.
  destruct (unflatten (p, sk) x) as [p' sk']. cbn [fst].
  destruct (length (probablyMissingGRF (mInit p')) <? length (poseTrials (mInit p')))%nat.
  - repeat split; reflexivity.
  - repeat match goal with
      | |- context [let '(_, _) := ?e in _] => destruct e
      | |- context [let (_, _) := ?e in _] => destruct e
      end.
    repeat split; reflexivity.
Qed.
End LossClaims.

(** ** C2: the gradient against central differences *)

Section GradientClaims.
Import DynamicsFitProblem.
Open Scope float_scope.

(** C2 (defect).  The claim asks [computeGradient(x)] to match central
    differences of [computeLoss] in every block.  On [marker_problem],
    where the marker offsets are the only block, the loss at the offsets
    [(0,0,0)], [(1,0,0)] and [(2,0,0)] is 1, 10 and 41, and its central
    difference at [(1,0,0)] along the first coordinate is exactly 20, with
    step 1 and with step 2^-10; [computeGradient] returns 18 there (and
    38 at [(2,0,0)], where the central difference is 42).  [computeLoss]
    places the markers by [mMarkers], which [unflatten(x)] has updated;
    [computeGradient] places them by [mMarkerMap], which still holds the
    offsets the problem was constructed with.  [debugVector], the source's
    own comparison, reports the mismatch at the tolerance 1e-6. *)
Theorem computeGradient_reads_the_constructor_marker_offsets :
  let st := (marker_problem, roundtrip_skeleton) in
  let loss := @loss_at float _ free_body st in
  let gradient := @gradient_at float _ free_body st in
  let difference := @central_difference float _ free_body st in
  loss [0; 0; 0] = Some 1
  /\ loss [1; 0; 0] = Some 10
  /\ loss [2; 0; 0] = Some 41
  /\ difference [1; 0; 0] 0%nat 1 = Some 20
  /\ difference [1; 0; 0] 0%nat (1 / 1024) = Some 20
  /\ difference [2; 0; 0] 0%nat (1 / 1024) = Some 42
  /\ gradient [1; 0; 0] = Some [18; 0; 0]
  /\ gradient [2; 0; 0] = Some [38; 0; 0]
  /\ debugVector [20; 0; 0] [18; 0; 0] (s_lit 1 6) = true
  /\ map (fun named => snd (snd named)) (mMarkerMap (fst (unflatten st [1; 0; 0])))
     = [[0; 0; 0]]
  /\ map snd (mMarkers (fst (unflatten st [1; 0; 0]))) = [[1; 0; 0]].
Proof.
  cbv zeta. repeat split; vm_compute; reflexivity.
Qed.
End GradientClaims.

(** ** C10: the weights of [runOptimization] *)

Section Weights.
Import DynamicsFitProblem.

(** What the constructor leaves in the flags and the weights. *)
Lemma create_defaults {s_t : Type} `{Scalar s_t}
    (init : DynamicsInitialization s_t) (skeleton : Skeleton s_t)
    (markerMap : StrMap (Marker s_t)) (trackingMarkers : list String.string)
    (footNodes : list nat) (problem : t s_t) :
  create init skeleton markerMap trackingMarkers footNodes = Some problem ->
  mInit problem = init
  /\ mResidualUseL1 problem = false
  /\ mMarkerUseL1 problem = false
  /\ mLastX problem = [].
Proof.
  unfold create.
  destruct (all_some (map (create_trial init) (seq 0 (length (poseTrials init)))));
    [|discriminate].
  intros E. injection E as <-. repeat split; reflexivity.
Qed.

(** C10.  [runOptimization] sets the residual weight of its problem to
    the square of [residualWeight] when the problem's residual L1 flag is
    false and the marker weight to the square of [markerWeight] when the
    marker L1 flag is false, and passes a weight through only when the
    flag is set; the problem it builds has both flags false, so the
    weights that enter the loss are the squares of the arguments.  (There
    is a problem whenever the constructor returns.) *)
Theorem runOptimization_squares_weights
    {s_t : Type} `{Scalar s_t} `{Collaborators s_t}
    (fitter : DynamicsFitter.t) (init : DynamicsInitialization s_t) (skeleton : Skeleton s_t)
    (residualWeight markerWeight : s_t)
    (includeMasses includeCOMs includeInertias includeBodyScales includePoses
       includeMarkerOffsets : bool) (problem : t s_t) :
  mResidualWeight (DynamicsFitter.setWeights residualWeight markerWeight problem)
  = (if mResidualUseL1 problem then residualWeight
     else s_mul residualWeight residualWeight)
  /\ mMarkerWeight (DynamicsFitter.setWeights residualWeight markerWeight problem)
     = (if mMarkerUseL1 problem then markerWeight else s_mul markerWeight markerWeight)
  /\ option_map (fun configured =>
                   (mResidualUseL1 configured, mMarkerUseL1 configured,
                    mResidualWeight configured, mMarkerWeight configured))
       (DynamicsFitter.runOptimization_problem fitter true init skeleton
          residualWeight markerWeight
          includeMasses includeCOMs includeInertias includeBodyScales includePoses
          includeMarkerOffsets)
     = option_map (fun _ => (false, false, s_mul residualWeight residualWeight,
                             s_mul markerWeight markerWeight))
         (create init skeleton (DynamicsFitter.mMarkerMap fitter)
            (DynamicsFitter.mTrackingMarkers fitter) (DynamicsFitter.mFootNodes fitter)).
Proof.
  split; [reflexivity|]. split; [reflexivity|].
  unfold DynamicsFitter.runOptimization_problem. cbn [negb].
  destruct (create init skeleton _ _ _) as [made|] eqn:E; [|reflexivity].
  destruct (create_defaults _ _ _ _ _ _ E) as (_ & E1 & E2 & _).
  cbn [option_map]. unfold DynamicsFitter.setWeights.
  destruct made. cbn in E1, E2. subst. reflexivity.
Qed.
End Weights.

(** ** C9: foot-ground contacts *)

Section Contacts.
Context {s_t : Type} `{Scalar s_t} `{Collaborators s_t}.
Import DynamicsFitter.

Variable infinity : s_t.

Lemma same_but_positions_setPositions (v : Vec s_t) (sk sk0 : Skeleton s_t) :
  same_but_positions sk sk0 -> setPositions v sk = setPositions v sk0.
Proof.
  unfold same_but_positions. intros E.
  replace (setPositions v sk) with (setPositions v (setPositions [] sk))
    by (destruct sk; reflexivity).
  rewrite E. destruct sk0; reflexivity.
Qed.

Lemma for_each_invariant {A B : Type} (Q : Skeleton s_t -> Prop) (l : list A)
    (body : B -> A -> SkelM s_t B) :
  (forall b a sk, Q sk -> Q (snd (body b a sk))) ->
  forall (acc : B) (sk : Skeleton s_t), Q sk -> Q (snd (for_each l acc body sk)).
Proof.
  intros Hbody. induction l as [|a l IH]; intros acc sk HQ; simpl.
  - exact HQ.
  - unfold bind. specialize (Hbody acc a sk HQ).
    destruct (body acc a sk) as [b sk1]. apply IH. exact Hbody.
Qed.

(** Growing the contact spheres moves the skeleton through the frames and
    changes nothing else. *)
Lemma growContactSpheres_positions (init : DynamicsInitialization s_t) (trial : nat)
    (groundHeight : s_t) (sk : Skeleton s_t) :
  same_but_positions (snd (growContactSpheres infinity init trial groundHeight sk)) sk.
Proof.
  unfold growContactSpheres.
  apply (for_each_invariant (fun sk' => same_but_positions sk' sk));
    [|apply same_but_positions_refl].
  intros sizes k sk1 Hsk1. unfold bind at 1. unfold modify at 1.
  apply (for_each_invariant (fun sk' => same_but_positions sk' sk));
    [|apply same_but_positions_set; exact Hsk1].
  intros sizes' b sk2 Hsk2.
  destruct (footActive _ b); [|exact Hsk2].
  unfold bind at 1.
  rewrite for_each_reads.
  2:{ intros st c. unfold bind, gets. cbn [fst snd].
      destruct (s_ltb _ _); reflexivity. }
  cbn [fst snd].
  match goal with
  | |- context [match snd ?e with _ => _ end] => destruct (snd e)
  end; [|exact Hsk2].
  destruct (s_gtb _ _); exact Hsk2.
Qed.

(** What step 4 records for a frame depends on the skeleton through the
    frame's pose only. *)
Lemma contact_frame_run (init : DynamicsInitialization s_t) (trial : nat)
    (groundHeight : s_t) (sizes : list (list s_t)) (defaultCorners : list (Vec s_t))
    (k : nat) (sk sk0 : Skeleton s_t) :
  same_but_positions sk sk0 ->
  contact_frame init trial groundHeight sizes defaultCorners k sk
  = (fst (contact_frame init trial groundHeight sizes defaultCorners k sk0),
     setPositions (col (nth trial (poseTrials init) []) k) sk).
Proof.
  intros E. unfold contact_frame, bind, modify, gets, ret. cbn [fst snd].
  rewrite (same_but_positions_setPositions _ sk sk0 E). reflexivity.
Qed.

Lemma contact_frames_run (init : DynamicsInitialization s_t) (trial : nat)
    (groundHeight : s_t) (sizes : list (list s_t)) (defaultCorners : list (Vec s_t))
    (sk0 : Skeleton s_t) (l : list nat) :
  forall (out : list (list bool * list bool * list bool * bool)) (sk : Skeleton s_t),
  same_but_positions sk sk0 ->
  fst (for_each l out
         (fun out k =>
            bind (contact_frame init trial groundHeight sizes defaultCorners k)
                 (fun r => ret (out ++ [r]))) sk)
  = out ++ map (fun k => fst (contact_frame init trial groundHeight sizes defaultCorners k sk0)) l.
Proof.
  induction l as [|k l IH]; intros out sk E; cbn [for_each map].
  - rewrite app_nil_r. reflexivity.
  - unfold bind at 1. unfold bind at 1.
    rewrite (contact_frame_run init trial groundHeight sizes defaultCorners k sk sk0 E).
    unfold ret at 1. rewrite IH by (apply same_but_positions_set; exact E).
    rewrite <- app_assoc. reflexivity.
Qed.

(** A trial's analysis, in closed form. *)
Lemma estimateFootGroundContacts_trial_run (init : DynamicsInitialization s_t)
    (trial : nat) (sk : Skeleton s_t) :
  fst (estimateFootGroundContacts_trial infinity init trial sk)
  = record_trial init (trial_sizes infinity init trial sk) (trial_groundHeight infinity init trial)
      (snd (estimateGroundHeight infinity (nth trial (forcePlateTrials init) [])
              (cols (nth trial (poseTrials init) []))))
      (appendDefaultForcePlate infinity init trial (trial_groundHeight infinity init trial))
      (map (fun k =>
              fst (contact_frame init trial (trial_groundHeight infinity init trial)
                     (trial_sizes infinity init trial sk) (trial_defaultCorners infinity init trial) k sk))
           (seq 0 (cols (nth trial (poseTrials init) [])))).
Proof.
  unfold trial_defaultCorners, trial_sizes, trial_groundHeight.
  unfold estimateFootGroundContacts_trial. cbv zeta.
  destruct (estimateGroundHeight infinity (nth trial (forcePlateTrials init) [])
              (cols (nth trial (poseTrials init) []))) as [gh flat] eqn:Egh.
  cbn [fst snd]. unfold bind at 1.
  pose proof (growContactSpheres_positions init trial gh sk) as Hgrow.
  destruct (growContactSpheres infinity init trial gh sk) as [sizes sk1] eqn:Egrow.
  cbn [fst snd] in *.
  set (allDefault := appendDefaultForcePlate infinity init trial gh).
  unfold bind at 1.
  pose proof (contact_frames_run init trial gh sizes (nth trial allDefault []) sk
                (seq 0 (cols (nth trial (poseTrials init) []))) [] sk1 Hgrow) as Hframes.
  destruct (for_each (seq 0 (cols (nth trial (poseTrials init) []))) [] _ sk1)
    as [results sk2].
  cbn [fst snd app] in *. subst results. reflexivity.
Qed.

(** The flags a trial appends to the lists of [init]. *)
Lemma estimateFootGroundContacts_trial_flags (init : DynamicsInitialization s_t)
    (trial : nat) (sk : Skeleton s_t) :
  let init' := fst (estimateFootGroundContacts_trial infinity init trial sk) in
  let frame k :=
    fst (contact_frame init trial (trial_groundHeight infinity init trial) (trial_sizes infinity init trial sk)
           (trial_defaultCorners infinity init trial) k sk) in
  let frames := seq 0 (cols (nth trial (poseTrials init) [])) in
  last (probablyMissingGRF init') [] = map (fun k => snd (frame k)) frames
  /\ last (grfBodyForceActive init') [] = map (fun k => fst (fst (fst (frame k)))) frames.
Proof.
  cbv zeta. rewrite estimateFootGroundContacts_trial_run.
  cbn [record_trial probablyMissingGRF grfBodyForceActive].
  rewrite !last_last, !map_map. split; reflexivity.
Qed.

Lemma fold_left_or {A : Type} (P : A -> bool) (l : list A) :
  forall acc : bool,
  fold_left (fun acc a => if P a then true else acc) l acc = acc || existsb P l.
Proof.
  induction l as [|a l IH]; intros acc; simpl.
  - rewrite orb_false_r. reflexivity.
  - rewrite IH. destruct (P a), acc; reflexivity.
Qed.


(** 4.1 to 4.3 for one ground-reaction body. *)
Lemma contact_body_forceActive (init : DynamicsInitialization s_t) (sk : Skeleton s_t)
    (trial k : nat) (groundHeight : s_t) (sizes : list (list s_t))
    (defaultCorners : list (Vec s_t)) (b : nat) :
  fst (fst (contact_body init sk trial k groundHeight sizes defaultCorners b))
  = footActive (col (nth trial (grfTrials init) []) k) b.
Proof. reflexivity. Qed.


(** Step 4 for one frame, read off the frame's result. *)
Lemma contact_frame_flags (init : DynamicsInitialization s_t) (trial : nat)
    (groundHeight : s_t) (sizes : list (list s_t)) (defaultCorners : list (Vec s_t))
    (k : nat) (sk : Skeleton s_t) :
  let posed := setPositions (col (nth trial (poseTrials init) []) k) sk in
  let perBody :=
    map (contact_body init posed trial k groundHeight sizes defaultCorners)
        (seq 0 (length (grfBodyNodes init))) in
  fst (contact_frame init trial groundHeight sizes defaultCorners k sk)
  = (map (fun r => fst (fst r)) perBody, map (fun r => snd (fst r)) perBody,
     map snd perBody, existsb (fun r => snd r) perBody).
Proof. reflexivity. Qed.



Lemma for_each_app {A B : Type} (body : B -> A -> SkelM s_t B) (l1 l2 : list A) :
  forall (acc : B) (sk : Skeleton s_t),
  for_each (l1 ++ l2) acc body sk
  = for_each l2 (fst (for_each l1 acc body sk)) body (snd (for_each l1 acc body sk)).
Proof.
  induction l1 as [|a l1 IH]; intros acc sk; cbn [app for_each].
  - reflexivity.
  - unfold bind. destruct (body acc a sk) as [acc1 sk1]. apply IH.
Qed.

Lemma for_each_cons {A B : Type} (body : B -> A -> SkelM s_t B) (a : A) (l : list A)
    (acc : B) (sk : Skeleton s_t) :
  for_each (a :: l) acc body sk
  = for_each l (fst (body acc a sk)) body (snd (body acc a sk)).
Proof. cbn [for_each]. unfold bind. destruct (body acc a sk); reflexivity. Qed.

(** The trials' loop appends one entry per trial to the lists of flags and
    leaves the recorded motion alone. *)
Lemma trials_append (l : list nat) :
  forall (init : DynamicsInitialization s_t) (sk : Skeleton s_t),
  let init' := fst (for_each l init (estimateFootGroundContacts_trial infinity) sk) in
  (exists ext, probablyMissingGRF init' = probablyMissingGRF init ++ ext
               /\ length ext = length l)
  /\ (exists ext, grfBodyForceActive init' = grfBodyForceActive init ++ ext
                  /\ length ext = length l)
  /\ poseTrials init' = poseTrials init
  /\ grfTrials init' = grfTrials init
  /\ grfBodyNodes init' = grfBodyNodes init.
Proof.
  induction l as [|k l IH]; intros init sk; cbv zeta; cbn [for_each].
  - repeat split; try (exists []; rewrite app_nil_r; split; reflexivity).
  - unfold bind.
    pose proof (estimateFootGroundContacts_trial_run init k sk) as Hrun.
    destruct (estimateFootGroundContacts_trial infinity init k sk) as [init1 sk1].
    cbn [fst] in Hrun.
    specialize (IH init1 sk1). cbv zeta in IH.
    destruct IH as [[extM [EM LM]] [[extF [EF LF]] [EP [EG EB]]]].
    rewrite EM, EF, EP, EG, EB, Hrun.
    cbn [record_trial probablyMissingGRF grfBodyForceActive poseTrials grfTrials
         grfBodyNodes].
    repeat split.
    + eexists. rewrite <- app_assoc. split; [reflexivity|].
      cbn [app length]. rewrite LM. reflexivity.
    + eexists. rewrite <- app_assoc. split; [reflexivity|].
      cbn [app length]. rewrite LF. reflexivity.
Qed.

Lemma extendAllContactBodies_fields (init : DynamicsInitialization s_t)
    (sk : Skeleton s_t) :
  let init0 := fst (extendAllContactBodies init sk) in
  probablyMissingGRF init0 = probablyMissingGRF init
  /\ grfBodyForceActive init0 = grfBodyForceActive init
  /\ poseTrials init0 = poseTrials init
  /\ grfTrials init0 = grfTrials init
  /\ grfBodyNodes init0 = grfBodyNodes init.
Proof.
  cbv zeta. unfold extendAllContactBodies, bind, gets. cbn [fst snd].
  destruct (for_each (grfBodyNodes init) (contactBodies init) _ sk) as [extended sk1].
  unfold ret. cbn [fst]. repeat split.
Qed.

Lemma estimateFootGroundContacts_run (init : DynamicsInitialization s_t)
    (sk : Skeleton s_t) :
  estimateFootGroundContacts infinity init sk
  = for_each (seq 0 (length (forcePlateTrials init))) (fst (extendAllContactBodies init sk))
      (estimateFootGroundContacts_trial infinity) (snd (extendAllContactBodies init sk)).
Proof.
  unfold estimateFootGroundContacts. unfold bind at 1.
  destruct (extendAllContactBodies init sk); reflexivity.
Qed.

Lemma entering_trial_run (init : DynamicsInitialization s_t) (sk : Skeleton s_t)
    (trial : nat) :
  entering_trial infinity init trial sk
  = for_each (seq 0 trial) (fst (extendAllContactBodies init sk))
      (estimateFootGroundContacts_trial infinity) (snd (extendAllContactBodies init sk)).
Proof.
  unfold entering_trial. unfold bind at 1.
  destruct (extendAllContactBodies init sk); reflexivity.
Qed.

Lemma appendDefaultForcePlate_length (init : DynamicsInitialization s_t) (trial : nat)
    (groundHeight : s_t) :
  length (appendDefaultForcePlate infinity init trial groundHeight)
  = length (defaultForcePlateCorners init) + 1.
Proof.
  unfold appendDefaultForcePlate. cbv zeta.
  destruct (0 <? _); rewrite ?set_nth_length, length_app; reflexivity.
Qed.

(** The loop over the trials appends one default plate per trial and
    leaves the plates and the poses alone. *)
Lemma trials_defaults (l : list nat) :
  forall (init : DynamicsInitialization s_t) (sk : Skeleton s_t),
  let init' := fst (for_each l init (estimateFootGroundContacts_trial infinity) sk) in
  length (defaultForcePlateCorners init')
  = length (defaultForcePlateCorners init) + length l
  /\ forcePlateTrials init' = forcePlateTrials init.
Proof.
  induction l as [|k l IH]; intros init sk; cbv zeta; cbn [for_each].
  - unfold ret. cbn [fst length]. split; [lia|reflexivity].
  - unfold bind.
    pose proof (estimateFootGroundContacts_trial_run init k sk) as Hrun.
    destruct (estimateFootGroundContacts_trial infinity init k sk) as [init1 sk1].
    cbn [fst] in Hrun.
    specialize (IH init1 sk1). cbv zeta in IH. destruct IH as [EL EF].
    rewrite EL, EF, Hrun.
    cbn [record_trial defaultForcePlateCorners forcePlateTrials length].
    rewrite appendDefaultForcePlate_length. split; [lia|reflexivity].
Qed.

(** On an initialization without default plates on entry, the plate that
    step 4 tests for a trial is the one step 3 synthesized for it. *)
Lemma first_call_default_plate (init : DynamicsInitialization s_t) (sk : Skeleton s_t)
    (trial : nat) :
  defaultForcePlateCorners init = [] ->
  trial_defaultCorners infinity (fst (entering_trial infinity init trial sk)) trial
  = synthesizedDefaultPlate infinity init trial.
Proof.
  intros Hfirst. rewrite entering_trial_run.
  destruct (extendAllContactBodies_fields init sk) as [_ [_ [P0 _]]]. cbv zeta in P0.
  assert (D0 : defaultForcePlateCorners (fst (extendAllContactBodies init sk)) = []
               /\ forcePlateTrials (fst (extendAllContactBodies init sk))
                  = forcePlateTrials init).
  { unfold extendAllContactBodies, bind, gets. cbn [fst snd].
    destruct (for_each (grfBodyNodes init) (contactBodies init) _ sk) as [extended sk1].
    unfold ret. cbn [fst with_contactBodies defaultForcePlateCorners forcePlateTrials].
    split; [exact Hfirst|reflexivity]. }
  destruct D0 as [D0 F0].
  destruct (trials_defaults (seq 0 trial) (fst (extendAllContactBodies init sk))
              (snd (extendAllContactBodies init sk))) as [EL EF].
  cbv zeta in EL, EF.
  destruct (trials_append (seq 0 trial) (fst (extendAllContactBodies init sk))
              (snd (extendAllContactBodies init sk))) as [_ [_ [EP _]]].
  cbv zeta in EP.
  destruct (for_each (seq 0 trial) (fst (extendAllContactBodies init sk))
              (estimateFootGroundContacts_trial infinity)
              (snd (extendAllContactBodies init sk))) as [init_k sk_k].
  cbn [fst] in *. rewrite D0, length_seq in EL. cbn [length plus] in EL.
  unfold trial_defaultCorners, synthesizedDefaultPlate, appendDefaultForcePlate,
    trial_groundHeight.
  cbv zeta. rewrite EF, F0, EP, P0.
  set (dc := defaultForcePlate infinity _ _ _).
  assert (Enth : nth trial (defaultForcePlateCorners init_k ++ [dc]) [] = dc).
  { rewrite app_nth2 by lia. rewrite EL, Nat.sub_diag. reflexivity. }
  rewrite Enth.
  destruct (0 <? length dc).
  - apply nth_set_nth_eq. rewrite length_app, EL. cbn [length]. lia.
  - exact Enth.
Qed.

(** The entries of trial [trial] in the result of
    [estimateFootGroundContacts] are the ones its loop body appends when
    it is entered for that trial. *)
Lemma estimateFootGroundContacts_entries (init : DynamicsInitialization s_t)
    (sk : Skeleton s_t) (trial : nat) :
  trial < length (forcePlateTrials init) ->
  let entry := entering_trial infinity init trial sk in
  let appended :=
    fst (estimateFootGroundContacts_trial infinity (fst entry) trial (snd entry)) in
  let final := fst (estimateFootGroundContacts infinity init sk) in
  nth (length (probablyMissingGRF init) + trial) (probablyMissingGRF final) []
  = last (probablyMissingGRF appended) []
  /\ nth (length (grfBodyForceActive init) + trial) (grfBodyForceActive final) []
     = last (grfBodyForceActive appended) []
  /\ poseTrials (fst entry) = poseTrials init
  /\ grfTrials (fst entry) = grfTrials init
  /\ grfBodyNodes (fst entry) = grfBodyNodes init.
Proof.
  intros Htrial. cbv zeta.
  rewrite estimateFootGroundContacts_run, entering_trial_run.
  destruct (extendAllContactBodies_fields init sk) as [M0 [F0 [P0 [G0 B0]]]].
  cbv zeta in M0, F0, P0, G0, B0.
  destruct (extendAllContactBodies init sk) as [init0 sk0]. cbn [fst] in *.
  replace (seq 0 (length (forcePlateTrials init)))
    with (seq 0 trial ++ [trial] ++ seq (S trial) (length (forcePlateTrials init) - S trial)).
  2:{ replace (length (forcePlateTrials init))
        with (trial + (1 + (length (forcePlateTrials init) - S trial))) at 2 by lia.
      rewrite !seq_app. cbn [plus seq]. replace (trial + 1) with (S trial) by lia.
      reflexivity. }
  cbn [fst snd]. rewrite for_each_app.
  destruct (trials_append (seq 0 trial) init0 sk0) as [[extM [EM LM]] [[extF [EF LF]] [EP [EG EB]]]].
  cbv zeta in EM, EF, EP, EG, EB.
  destruct (for_each (seq 0 trial) init0 (estimateFootGroundContacts_trial infinity) sk0)
    as [init_k sk_k].
  cbn [fst snd] in *.
  cbn [app]. rewrite for_each_cons.
  pose proof (estimateFootGroundContacts_trial_run init_k trial sk_k) as Hrun.
  destruct (estimateFootGroundContacts_trial infinity init_k trial sk_k) as [init1 sk1].
  cbn [fst snd] in *.
  destruct (trials_append (seq (S trial) (length (forcePlateTrials init) - S trial))
              init1 sk1) as [[extM' [EM' _]] [[extF' [EF' _]] _]].
  cbv zeta in EM', EF'. rewrite EM', EF'.
  rewrite length_seq in LM, LF.
  rewrite Hrun.
  cbn [record_trial probablyMissingGRF grfBodyForceActive].
  rewrite !last_last, EM, EF, M0, F0, EP, EG, EB, P0, G0, B0.
  repeat split.
  - rewrite <- app_assoc. rewrite app_nth2 by (rewrite length_app; lia).
    rewrite length_app, LM.
    replace (length (probablyMissingGRF init) + trial
             - (length (probablyMissingGRF init) + trial)) with 0 by lia.
    reflexivity.
  - rewrite <- app_assoc. rewrite app_nth2 by (rewrite length_app; lia).
    rewrite length_app, LF.
    replace (length (grfBodyForceActive init) + trial
             - (length (grfBodyForceActive init) + trial)) with 0 by lia.
    reflexivity.
Qed.
End Contacts.

Section ContactClaims.
Import DynamicsFitter.




End ContactClaims.

(** * Further properties *)

(** ** The flattened layout: cursors and what [unflatten] leaves alone *)

Section LayoutCursors.
Context {s_t : Type} `{Scalar s_t}.
Import DynamicsFitProblem.

Lemma put_cursor (dim : nat) (v : Vec s_t) (st : Vec s_t * nat) :
  snd (put dim v st) = snd st + dim.
Proof. destruct st; reflexivity. Qed.

Lemma flatten_frames_cursor (d : nat) (P V A : Matrix s_t) (n : nat) :
  forall st : Vec s_t * nat,
  snd (fold_left (flatten_frame d P V A) (seq 0 n) st) = snd st + n * (d * 3).
Proof.
  induction n as [|n IH]; intros st.
  - simpl. lia.
  - rewrite fold_left_seq_S, (surjective_pairing (fold_left _ _ _)).
    unfold flatten_frame at 1. rewrite !put_cursor. cbn [snd].
    rewrite IH. lia.
Qed.

Lemma flatten_trial_cursor (d : nat) (P V A : Matrix s_t) (st : Vec s_t * nat) :
  snd (flatten_trial d P V A st) = snd st + trial_size d A.
Proof.
  unfold flatten_trial, trial_size. cbv zeta.
  rewrite !put_cursor, flatten_frames_cursor. lia.
Qed.

Lemma flatten_trials_cursor (d : nat) (P V A : list (Matrix s_t)) (n : nat) :
  forall st : Vec s_t * nat,
  snd (fold_left (flatten_trial_at d P V A) (seq 0 n) st) = snd st + trials_offset d A n.
Proof.
  induction n as [|n IH]; intros st.
  - simpl. lia.
  - rewrite fold_left_seq_S. unfold flatten_trial_at at 1.
    rewrite flatten_trial_cursor, IH. cbn [trials_offset]. lia.
Qed.

Lemma flatten_markers_cursor (M : list (Marker s_t)) (n : nat) :
  forall st : Vec s_t * nat,
  snd (fold_left (flatten_marker M) (seq 0 n) st) = snd st + n * 3.
Proof.
  induction n as [|n IH]; intros st.
  - simpl. lia.
  - rewrite fold_left_seq_S. unfold flatten_marker at 1.
    rewrite put_cursor, IH. lia.
Qed.

Lemma if_put_cursor (b : bool) (dim : nat) (v : Vec s_t) (st : Vec s_t * nat) :
  snd (if b then put dim v st else st) = snd st + block_size b dim.
Proof. destruct b; [apply put_cursor|simpl; lia]. Qed.

Lemma flatten_cursor_end (p : t s_t) (sk : Skeleton s_t) :
  snd (flatten_cursor p sk) = getProblemSize p sk.
Proof.
  rewrite getProblemSize_blocks. unfold flatten_cursor. cbv zeta.
  set (st0 := (zeros (getProblemSize p sk), 0)).
  assert (E : forall st : Vec s_t * nat,
             snd (if mIncludePoses p
                  then fold_left (flatten_trial_at (getNumDofs sk) (mPoses p) (mVels p) (mAccs p))
                         (seq 0 (length (mPoses p))) st
                  else st)
             = snd st + block_size (mIncludePoses p)
                          (trials_offset (getNumDofs sk) (mAccs p) (length (mPoses p)))).
  { intros st. destruct (mIncludePoses p); [apply flatten_trials_cursor|simpl; lia]. }
  rewrite E. clear E.
  assert (E : forall st : Vec s_t * nat,
             snd (if mIncludeMarkerOffsets p
                  then fold_left (flatten_marker (mMarkers p)) (seq 0 (length (mMarkers p))) st
                  else st)
             = snd st + block_size (mIncludeMarkerOffsets p) (length (mMarkers p) * 3)).
  { intros st. destruct (mIncludeMarkerOffsets p); [apply flatten_markers_cursor|simpl; lia]. }
  rewrite E. clear E.
  rewrite !if_put_cursor. subst st0. cbn [snd]. lia.
Qed.
End LayoutCursors.

Section UnflattenFacts.
Context {s_t : Type} `{Scalar s_t}.
Import DynamicsFitProblem.

(** What [unflatten] produces when its guard does not fire, block by
    block. *)
Lemma unflatten_blocks (p : t s_t) (sk : Skeleton s_t) (x : Vec s_t) :
  trial_shapes_ok p = true ->
  sameAsLastX p x = false ->
  let G := getNumScaleGroups sk in
  let d := getNumDofs sk in
  let c1 := block_size (mIncludeMasses p) G in
  let c2 := c1 + block_size (mIncludeCOMs p) (G * 3) in
  let c3 := c2 + block_size (mIncludeInertias p) (G * 6) in
  let c4 := c3 + block_size (mIncludeBodyScales p) (getGroupScaleDim sk) in
  let c5 := c4 + block_size (mIncludeMarkerOffsets p) (length (mMarkers p) * 3) in
  exists M' P' V' A',
    unflatten_cursor (p, sk) x
    = (with_state p (mInit p) M' P' V' A' x,
       mkSkeleton d G (getGroupScaleDim sk)
         (getPositions sk) (getVelocities sk) (getAccelerations sk)
         (if mIncludeMasses p then segment x 0 G else getGroupMasses sk)
         (if mIncludeCOMs p then segment x c1 (G * 3) else getGroupCOMs sk)
         (if mIncludeInertias p then segment x c2 (G * 6) else getGroupInertias sk)
         (if mIncludeBodyScales p then segment x c3 (getGroupScaleDim sk)
          else getGroupScales sk),
       getProblemSize p sk)
    /\ length M' = length (mMarkers p)
    /\ (if mIncludeMarkerOffsets p
        then forall i, i < length (mMarkers p) ->
               snd (nth i M' (0, [])) = segment x (c4 + i * 3) 3
        else M' = mMarkers p)
    /\ length P' = length (mPoses p)
    /\ (forall k, cols (nth k A' []) = cols (nth k (mAccs p) []))
    /\ (if mIncludePoses p
        then forall k, k < length (mPoses p) ->
               trial_holds x d (c5 + trials_offset d (mAccs p) k)
                 (nth k P' []) (nth k V' []) (nth k A' [])
        else P' = mPoses p /\ V' = mVels p /\ A' = mAccs p).
Proof.
  intros Hshape Hguard. cbv zeta.
  pose proof (unflatten_cursor_blocks p sk x Hguard) as E. cbv zeta in E.
  rewrite E. clear E.
  destruct (trial_shapes_ok_spec p Hshape) as [HV [HA Hcols]].
  destruct (unflatten_markers_block x (mIncludeMarkerOffsets p) (mMarkers p)
              (block_size (mIncludeMasses p) (getNumScaleGroups sk)
               + block_size (mIncludeCOMs p) (getNumScaleGroups sk * 3)
               + block_size (mIncludeInertias p) (getNumScaleGroups sk * 6)
               + block_size (mIncludeBodyScales p) (getGroupScaleDim sk)))
    as [M' [EM [LM HM]]].
  rewrite EM. cbn [fst snd].
  destruct (unflatten_poses_block x (mIncludePoses p) (getNumDofs sk)
              (block_size (mIncludeMasses p) (getNumScaleGroups sk)
               + block_size (mIncludeCOMs p) (getNumScaleGroups sk * 3)
               + block_size (mIncludeInertias p) (getNumScaleGroups sk * 6)
               + block_size (mIncludeBodyScales p) (getGroupScaleDim sk)
               + block_size (mIncludeMarkerOffsets p) (length (mMarkers p) * 3))
              (mPoses p) (mVels p) (mAccs p) HV HA Hcols)
    as [P' [V' [A' [EP [LP [HAc HP]]]]]].
  exists M', P', V', A'.
  assert (EP' := EP). rewrite EP. cbn [fst snd].
  rewrite getProblemSize_blocks.
  split; [reflexivity|]. split; [exact LM|]. split.
  { destruct (mIncludeMarkerOffsets p) eqn:Eb.
    - apply HM. reflexivity.
    - injection EM as EM _. symmetry. exact EM. }
  split; [exact LP|]. split; [exact HAc|].
  destruct (mIncludePoses p) eqn:Eb.
  - apply HP. reflexivity.
  - injection EP' as _ E1 E2 E3. repeat split; symmetry; assumption.
Qed.

Lemma unflatten_trials_lengths (x : Vec s_t) (d : nat) (P V A : list (Matrix s_t))
    (l : list nat) (c : nat) :
  let r := fold_left (unflatten_trial_at x d) l (c, (P, V, A)) in
  length (fst (fst (snd r))) = length P
  /\ length (snd (fst (snd r))) = length V
  /\ length (snd (snd r)) = length A.
Proof.
  cbv zeta.
  apply (fold_left_preserves
           (fun st : nat * (list (Matrix s_t) * list (Matrix s_t) * list (Matrix s_t)) =>
              length (fst (fst (snd st))) = length P
              /\ length (snd (fst (snd st))) = length V
              /\ length (snd (snd st)) = length A)).
  - intros [c0 [[P0 V0] A0]] k [HP [HV HA]]. cbn [fst snd] in *.
    unfold unflatten_trial_at.
    destruct (unflatten_trial x d (c0, (nth k P0 [], nth k V0 [], nth k A0 [])))
      as [c1 [[ps vs] acs]].
    cbn [fst snd]. rewrite !set_nth_length. auto.
  - cbn [fst snd]. auto.
Qed.

(** Whatever [x] is, [unflatten] keeps the flags, the weights and [mInit],
    and the number of trials of the three trajectories. *)
Lemma unflatten_frame_of_problem (p : t s_t) (sk : Skeleton s_t) (x : Vec s_t) :
  let p' := fst (unflatten (p, sk) x) in
  with_state p' (mInit p) (mMarkers p) (mPoses p) (mVels p) (mAccs p) (mLastX p) = p
  /\ length (mPoses p') = length (mPoses p)
  /\ length (mVels p') = length (mVels p)
  /\ length (mAccs p') = length (mAccs p).
Proof.
  cbv zeta. destruct (sameAsLastX p x) eqn:Hguard.
  - rewrite (unflatten_guarded p sk x Hguard). cbn [fst].
    destruct p; repeat split; reflexivity.
  - unfold unflatten.
    pose proof (unflatten_cursor_blocks p sk x Hguard) as E. cbv zeta in E.
    rewrite E. clear E. cbn [fst].
    split; [destruct p; reflexivity|].
    destruct (mIncludePoses p).
    + destruct (unflatten_trials_lengths x (getNumDofs sk) (mPoses p) (mVels p) (mAccs p)
                  (seq 0 (length (mPoses p)))
                  (snd (if mIncludeMarkerOffsets p
                        then fold_left (unflatten_marker x) (seq 0 (length (mMarkers p)))
                               (mMarkers p,
                                block_size (mIncludeMasses p) (getNumScaleGroups sk)
                                + block_size (mIncludeCOMs p) (getNumScaleGroups sk * 3)
                                + block_size (mIncludeInertias p) (getNumScaleGroups sk * 6)
                                + block_size (mIncludeBodyScales p) (getGroupScaleDim sk))
                        else (mMarkers p,
                              block_size (mIncludeMasses p) (getNumScaleGroups sk)
                              + block_size (mIncludeCOMs p) (getNumScaleGroups sk * 3)
                              + block_size (mIncludeInertias p) (getNumScaleGroups sk * 6)
                              + block_size (mIncludeBodyScales p) (getGroupScaleDim sk)))))
        as [HP [HV HA]].
      cbv zeta in HP, HV, HA. cbn [mPoses mVels mAccs with_state].
      auto.
    + cbn [mPoses mVels mAccs with_state fst snd]. auto.
Qed.
End UnflattenFacts.

Section LayoutProperties.
Import DynamicsFitProblem.

(** X1.  The assertion [cursor == flat.size()] that ends [flatten()] holds
    in every state and for every combination of flags: the cursor stops on
    [getProblemSize()], which is the size of the vector. *)
Theorem flatten_cursor_reaches_the_end
    {s_t : Type} `{Scalar s_t} (p : t s_t) (sk : Skeleton s_t) :
  snd (flatten_cursor p sk) = getProblemSize p sk
  /\ snd (flatten_cursor p sk) = length (fst (flatten_cursor p sk)).
Proof.
  split; [apply flatten_cursor_end|].
  rewrite flatten_cursor_end. symmetry. apply (flatten_size p sk).
Qed.

(** X2.  When the guard of [unflatten(x)] does not fire, the cursor stops
    on [getProblemSize()] whatever the size of [x] is; the assertion
    [cursor == x.size()] that ends [unflatten] therefore holds exactly
    for the vectors of [getProblemSize()] entries. *)
Theorem unflatten_cursor_reaches_problem_size
    {s_t : Type} `{Scalar s_t} (p : t s_t) (sk : Skeleton s_t) (x : Vec s_t) :
  trial_shapes_ok p = true ->
  sameAsLastX p x = false ->
  snd (unflatten_cursor (p, sk) x) = getProblemSize p sk
  /\ (snd (unflatten_cursor (p, sk) x) = length x <-> length x = getProblemSize p sk).
Proof.
  intros Hshape Hguard.
  destruct (unflatten_blocks p sk x Hshape Hguard) as [M' [P' [V' [A' [E _]]]]].
  cbv zeta in E. rewrite E. cbn [snd]. split; [reflexivity|].
  split; intros E'; symmetry; exact E'.
Qed.

Lemma unflatten_cursor_reaches_problem_size_witness :
  snd (unflatten_cursor (roundtrip_problem, roundtrip_skeleton) roundtrip_x)
  = getProblemSize roundtrip_problem roundtrip_skeleton
  /\ (snd (unflatten_cursor (roundtrip_problem, roundtrip_skeleton) roundtrip_x)
      = length roundtrip_x
      <-> length roundtrip_x = getProblemSize roundtrip_problem roundtrip_skeleton).
Proof.
  apply (unflatten_cursor_reaches_problem_size roundtrip_problem roundtrip_skeleton
           roundtrip_x).
  - vm_compute. reflexivity.
  - vm_compute. reflexivity.
Defined.

(** X3.  What [unflatten(x)] decodes, when its guard does not fire: each
    included block of properties is the segment of [x] behind the
    included blocks before it (masses, COMs, inertias, scales, in this
    order), marker [i] receives the three entries at offset [3 i] of the
    marker block, the frames of trial [k] hold the entries behind the
    trials before it, and [x] is remembered as [mLastX]. *)
Theorem unflatten_decodes_the_blocks
    {s_t : Type} `{Scalar s_t} (p : t s_t) (sk : Skeleton s_t) (x : Vec s_t) :
  trial_shapes_ok p = true ->
  sameAsLastX p x = false ->
  let G := getNumScaleGroups sk in
  let d := getNumDofs sk in
  let c1 := block_size (mIncludeMasses p) G in
  let c2 := c1 + block_size (mIncludeCOMs p) (G * 3) in
  let c3 := c2 + block_size (mIncludeInertias p) (G * 6) in
  let c4 := c3 + block_size (mIncludeBodyScales p) (getGroupScaleDim sk) in
  let c5 := c4 + block_size (mIncludeMarkerOffsets p) (length (mMarkers p) * 3) in
  let p' := fst (unflatten (p, sk) x) in
  let sk' := snd (unflatten (p, sk) x) in
  mLastX p' = x
  /\ (mIncludeMasses p = true -> getGroupMasses sk' = segment x 0 G)
  /\ (mIncludeCOMs p = true -> getGroupCOMs sk' = segment x c1 (G * 3))
  /\ (mIncludeInertias p = true -> getGroupInertias sk' = segment x c2 (G * 6))
  /\ (mIncludeBodyScales p = true ->
      getGroupScales sk' = segment x c3 (getGroupScaleDim sk))
  /\ (mIncludeMarkerOffsets p = true ->
      forall i, i < length (mMarkers p) ->
        snd (nth i (mMarkers p') (0, [])) = segment x (c4 + i * 3) 3)
  /\ (mIncludePoses p = true ->
      forall k, k < length (mPoses p) ->
        trial_holds x d (c5 + trials_offset d (mAccs p) k)
          (nth k (mPoses p') []) (nth k (mVels p') []) (nth k (mAccs p') [])).
Proof.
  intros Hshape Hguard. cbv zeta.
  destruct (unflatten_blocks p sk x Hshape Hguard)
    as [M' [P' [V' [A' [E [_ [HM [_ [_ HP]]]]]]]]].
  cbv zeta in E, HM, HP. unfold unflatten. rewrite E. cbn [fst snd].
  cbn [mLastX with_state mMarkers mPoses mVels mAccs getGroupMasses getGroupCOMs
       getGroupInertias getGroupScales].
  split; [reflexivity|].
  split; [intros ->; reflexivity|].
  split; [intros ->; reflexivity|].
  split; [intros ->; reflexivity|].
  split; [intros ->; reflexivity|].
  split.
  - intros Eb. rewrite Eb in HM. exact HM.
  - intros Eb. rewrite Eb in HP. exact HP.
Qed.

Lemma unflatten_decodes_the_blocks_witness :
  let p := roundtrip_problem in
  let sk := roundtrip_skeleton in
  let x := roundtrip_x in
  let p' := fst (unflatten (p, sk) x) in
  let sk' := snd (unflatten (p, sk) x) in
  mLastX p' = x
  /\ (mIncludeMasses p = true -> getGroupMasses sk' = segment x 0 1)
  /\ (mIncludeCOMs p = true -> getGroupCOMs sk' = segment x 1 3)
  /\ (mIncludeInertias p = true -> getGroupInertias sk' = segment x 4 6)
  /\ (mIncludeBodyScales p = true -> getGroupScales sk' = segment x 10 3)
  /\ (mIncludeMarkerOffsets p = true ->
      forall i, i < 1 -> snd (nth i (mMarkers p') (0, [])) = segment x (13 + i * 3) 3)
  /\ (mIncludePoses p = true ->
      forall k, k < 1 ->
        trial_holds x 2 (16 + trials_offset 2 (mAccs p) k)
          (nth k (mPoses p') []) (nth k (mVels p') []) (nth k (mAccs p') [])).
Proof.
  apply (unflatten_decodes_the_blocks roundtrip_problem roundtrip_skeleton roundtrip_x).
  - vm_compute. reflexivity.
  - vm_compute. reflexivity.
Defined.

(** X4.  What [unflatten(x)] never touches, for every [x]: [mInit]; the
    flags, the weights, [mMarkerMap] and every other member besides the
    marker offsets [mMarkers], the three trajectories and [mLastX]; the
    dimensions and the positions, velocities and accelerations of the
    skeleton; and each block of properties whose flag is off. *)
Theorem unflatten_leaves_the_rest_alone
    {s_t : Type} `{Scalar s_t} (p : t s_t) (sk : Skeleton s_t) (x : Vec s_t) :
  let p' := fst (unflatten (p, sk) x) in
  let sk' := snd (unflatten (p, sk) x) in
  mInit p' = mInit p
  /\ with_state p' (mInit p') (mMarkers p) (mPoses p) (mVels p) (mAccs p) (mLastX p) = p
  /\ mMarkerMap p' = mMarkerMap p
  /\ getNumDofs sk' = getNumDofs sk
  /\ getNumScaleGroups sk' = getNumScaleGroups sk
  /\ getGroupScaleDim sk' = getGroupScaleDim sk
  /\ getPositions sk' = getPositions sk
  /\ getVelocities sk' = getVelocities sk
  /\ getAccelerations sk' = getAccelerations sk
  /\ (mIncludeMasses p = false -> getGroupMasses sk' = getGroupMasses sk)
  /\ (mIncludeCOMs p = false -> getGroupCOMs sk' = getGroupCOMs sk)
  /\ (mIncludeInertias p = false -> getGroupInertias sk' = getGroupInertias sk)
  /\ (mIncludeBodyScales p = false -> getGroupScales sk' = getGroupScales sk)
  /\ (mIncludeMarkerOffsets p = false -> mMarkers p' = mMarkers p)
  /\ (mIncludePoses p = false ->
      mPoses p' = mPoses p /\ mVels p' = mVels p /\ mAccs p' = mAccs p).
Proof.
  cbv zeta.
  split; [apply unflatten_mInit|].
  split; [rewrite unflatten_mInit; apply (unflatten_frame_of_problem p sk x)|].
  split.
  { destruct (unflatten_frame_of_problem p sk x) as [Hframe _]. cbv zeta in Hframe.
    rewrite <- Hframe at 2. reflexivity. }
  destruct (sameAsLastX p x) eqn:Hguard.
  - rewrite (unflatten_guarded p sk x Hguard). cbn [fst snd].
    repeat split; reflexivity.
  - unfold unflatten.
    pose proof (unflatten_cursor_blocks p sk x Hguard) as E. cbv zeta in E.
    rewrite E. clear E. cbn [fst snd].
    cbn [getNumDofs getNumScaleGroups getGroupScaleDim getPositions getVelocities
         getAccelerations getGroupMasses getGroupCOMs getGroupInertias getGroupScales
         with_state mMarkers mPoses mVels mAccs].
    do 6 (split; [reflexivity|]).
    do 5 (split; [intros Eb; rewrite Eb; reflexivity|]).
    intros Eb. rewrite Eb. repeat split.
Qed.

Lemma unflatten_leaves_the_rest_alone_witness :
  let st := unflatten (masses_only, roundtrip_skeleton) [negative_zero] in
  mInit (fst st) = mInit masses_only
  /\ getGroupCOMs (snd st) = getGroupCOMs roundtrip_skeleton
  /\ mPoses (fst st) = mPoses masses_only
  /\ mVels (fst st) = mVels masses_only
  /\ mAccs (fst st) = mAccs masses_only.
Proof.
  cbv zeta.
  pose proof (unflatten_leaves_the_rest_alone masses_only roundtrip_skeleton
                [negative_zero]) as Hrest.
  cbv zeta in Hrest.
  destruct Hrest as (HI & _ & _ & _ & _ & _ & _ & _ & _ & _ & HC & _ & _ & _ & HP).
  split; [exact HI|]. split; [apply HC; reflexivity | apply HP; reflexivity].
Defined.

(** X5.  A vector that compares equal to itself (no entry is a NaN) is
    unflattened once: after [unflatten(x)] a second [unflatten(x)] changes
    nothing, in the problem or in the skeleton. *)
Theorem unflatten_twice_is_unflatten_once
    {s_t : Type} `{Scalar s_t} (p : t s_t) (sk : Skeleton s_t) (x : Vec s_t) :
  cwiseEqual_all x x = true ->
  unflatten (unflatten (p, sk) x) x = unflatten (p, sk) x.
Proof.
  intros Hx. destruct (sameAsLastX p x) eqn:Hguard.
  - rewrite (unflatten_guarded p sk x Hguard). apply unflatten_guarded. exact Hguard.
  - rewrite (surjective_pairing (unflatten (p, sk) x)).
    apply unflatten_guarded.
    unfold unflatten.
    pose proof (unflatten_cursor_blocks p sk x Hguard) as E. cbv zeta in E.
    rewrite E. clear E. cbn [fst snd].
    unfold sameAsLastX. cbn [mLastX with_state].
    rewrite Nat.eqb_refl, Hx. reflexivity.
Qed.

Lemma unflatten_twice_is_unflatten_once_witness :
  unflatten (unflatten (roundtrip_problem, roundtrip_skeleton) roundtrip_x) roundtrip_x
  = unflatten (roundtrip_problem, roundtrip_skeleton) roundtrip_x.
Proof.
  apply (unflatten_twice_is_unflatten_once roundtrip_problem roundtrip_skeleton roundtrip_x).
  vm_compute. reflexivity.
Defined.
End LayoutProperties.

(** ** The shape of the trajectories is an invariant *)

Section TrajectoryShapes.
Context {s_t : Type} `{Scalar s_t}.
Import DynamicsFitProblem.

Lemma trial_shapes_ok_intro (p : t s_t) :
  length (mVels p) = length (mPoses p) ->
  length (mAccs p) = length (mPoses p) ->
  (forall k, k < length (mPoses p) ->
     cols (nth k (mPoses p) []) = cols (nth k (mAccs p) []) + 2
     /\ cols (nth k (mVels p) []) = cols (nth k (mAccs p) []) + 1) ->
  trial_shapes_ok p = true.
Proof.
  intros HV HA Hcols. unfold trial_shapes_ok.
  rewrite HV, HA, !Nat.eqb_refl. cbn [andb].
  apply forallb_forall. intros k Hk. apply in_seq in Hk.
  destruct (Hcols k) as [E1 E2]; [lia|].
  rewrite E1, E2, !Nat.eqb_refl. reflexivity.
Qed.

Lemma forallb_seq_nth {A : Type} (f : A -> bool) (l : list A) (d : A) :
  forallb f l = forallb (fun i => f (nth i l d)) (seq 0 (length l)).
Proof.
  apply Bool.eq_iff_eq_true. rewrite !forallb_forall. split.
  - intros Hl i Hi. apply in_seq in Hi. apply Hl. apply nth_In. lia.
  - intros Hi a Ha. destruct (In_nth l a d Ha) as [i [Hlt E]].
    rewrite <- E. apply Hi. apply in_seq. lia.
Qed.

Lemma nth_map_lt {A B : Type} (f : A -> B) (l : list A) (i : nat) (d : A) (d' : B) :
  i < length l -> nth i (map f l) d' = f (nth i l d).
Proof.
  intros Hi.
  rewrite (nth_indep _ d' (f d)) by (rewrite length_map; exact Hi).
  apply map_nth.
Qed.

Lemma all_some_map {A B : Type} (f : A -> option B) (l : list A) (r : list B)
    (da : A) (db : B) :
  all_some (map f l) = Some r ->
  length r = length l
  /\ forall k, k < length l -> f (nth k l da) = Some (nth k r db).
Proof.
  revert r. induction l as [|a l IH]; intros r; cbn [map all_some].
  - intros E. injection E as <-. split; [reflexivity|]. cbn. intros k Hk. lia.
  - destruct (f a) as [b|] eqn:Ea; [|discriminate].
    destruct (all_some (map f l)) as [r'|]; cbn [option_map]; [|discriminate].
    intros E. injection E as <-.
    destruct (IH r' eq_refl) as [Hlen Hnth].
    split; [cbn [length]; rewrite Hlen; reflexivity|].
    intros [|k] Hk; cbn [nth]; [exact Ea|].
    apply Hnth. cbn [length] in Hk. lia.
Qed.

Lemma all_some_None {A : Type} (l : list (option A)) :
  In None l -> all_some l = None.
Proof.
  induction l as [|[a|] l IH]; cbn [all_some In].
  - intros [].
  - intros [E|Hin]; [discriminate|]. rewrite (IH Hin). reflexivity.
  - reflexivity.
Qed.

Lemma all_some_total {A : Type} (l : list (option A)) :
  ~ In None l -> exists r, all_some l = Some r.
Proof.
  induction l as [|[a|] l IH]; cbn [all_some In]; intros Hno.
  - eexists. reflexivity.
  - destruct IH as [r E]; [tauto|]. rewrite E. eexists. reflexivity.
  - exfalso. apply Hno. left. reflexivity.
Qed.

(** A trial is differenced exactly when it has at least two frames. *)
Lemma create_trial_spec (init : DynamicsInitialization s_t) (i : nat) :
  let n := cols (nth i (poseTrials init) []) in
  (2 <= n ->
   exists poses vels accs,
     create_trial init i = Some (poses, vels, accs)
     /\ cols poses = n /\ cols vels = n - 1 /\ cols accs = n - 2)
  /\ (n < 2 -> create_trial init i = None).
Proof.
  cbv zeta. unfold create_trial. split; intros Hn.
  - replace ((Z.of_nat (cols (nth i (poseTrials init) [])) - 1 <? 0)%Z
             || (Z.of_nat (cols (nth i (poseTrials init) [])) - 2 <? 0)%Z)
      with false
      by (symmetry; apply orb_false_iff; split; apply Z.ltb_ge; lia).
    eexists _, _, _. split; [reflexivity|].
    unfold cols in *. rewrite !length_map, !length_seq. lia.
  - replace ((Z.of_nat (cols (nth i (poseTrials init) [])) - 1 <? 0)%Z
             || (Z.of_nat (cols (nth i (poseTrials init) [])) - 2 <? 0)%Z)
      with true; [reflexivity|].
    symmetry. apply orb_true_iff. right. apply Z.ltb_lt. lia.
Qed.

Lemma create_trajectories (init : DynamicsInitialization s_t) (skeleton : Skeleton s_t)
    (markerMap : StrMap (Marker s_t)) (trackingMarkers : list String.string)
    (footNodes : list nat) (p : t s_t) :
  create init skeleton markerMap trackingMarkers footNodes = Some p ->
  length (mPoses p) = length (poseTrials init)
  /\ length (mVels p) = length (poseTrials init)
  /\ length (mAccs p) = length (poseTrials init)
  /\ forall k, k < length (poseTrials init) ->
       2 <= cols (nth k (poseTrials init) [])
       /\ cols (nth k (mPoses p) []) = cols (nth k (poseTrials init) [])
       /\ cols (nth k (mVels p) []) = cols (nth k (poseTrials init) []) - 1
       /\ cols (nth k (mAccs p) []) = cols (nth k (poseTrials init) []) - 2.
Proof.
  unfold create.
  destruct (all_some (map (create_trial init) (seq 0 (length (poseTrials init)))))
    as [trials|] eqn:E; [|discriminate].
  intros Ep. injection Ep as <-. cbn [mPoses mVels mAccs].
  destruct (all_some_map (create_trial init) _ trials 0 ([], [], []) E) as [Hlen Hnth].
  rewrite length_seq in Hlen, Hnth.
  rewrite !length_map, Hlen.
  split; [reflexivity|]. split; [reflexivity|]. split; [reflexivity|].
  intros k Hk.
  assert (Ek : create_trial init k = Some (nth k trials ([], [], []))).
  { rewrite <- (Hnth k Hk). rewrite seq_nth by exact Hk. reflexivity. }
  destruct (create_trial_spec init k) as [Hsome Hnone]. cbv zeta in Hsome, Hnone.
  destruct (Nat.lt_ge_cases (cols (nth k (poseTrials init) [])) 2) as [Hlt|Hge].
  { rewrite (Hnone Hlt) in Ek. discriminate. }
  destruct (Hsome Hge) as (poses & vels & accs & E' & C1 & C2 & C3).
  rewrite E' in Ek. injection Ek as Ek.
  split; [exact Hge|].
  rewrite !(nth_map_lt _ trials k ([], [], [])) by (rewrite Hlen; exact Hk).
  rewrite <- Ek. cbn [fst snd]. repeat split; assumption.
Qed.

(** The constructor returns exactly when no trial is refused. *)
Lemma create_returns (init : DynamicsInitialization s_t) (skeleton : Skeleton s_t)
    (markerMap : StrMap (Marker s_t)) (trackingMarkers : list String.string)
    (footNodes : list nat) :
  (forallb (fun poses => 2 <=? cols poses) (poseTrials init) = true ->
   exists p, create init skeleton markerMap trackingMarkers footNodes = Some p)
  /\ (forallb (fun poses => 2 <=? cols poses) (poseTrials init) = false ->
      create init skeleton markerMap trackingMarkers footNodes = None).
Proof.
  unfold create. split.
  - intros Hall. rewrite forallb_forall in Hall.
    destruct (all_some_total (map (create_trial init) (seq 0 (length (poseTrials init)))))
      as [trials E].
    + intros Hin. apply in_map_iff in Hin. destruct Hin as [k [Ek Hk]].
      apply in_seq in Hk.
      destruct (proj1 (create_trial_spec init k)) as (? & ? & ? & E & _).
      { apply Nat.leb_le. apply Hall. apply nth_In. lia. }
      rewrite E in Ek. discriminate.
    + rewrite E. eexists. reflexivity.
  - intros Hall.
    assert (Hex : exists poses, In poses (poseTrials init) /\ cols poses < 2).
    { clear - Hall. induction (poseTrials init) as [|m l IH]; [discriminate|].
      cbn [forallb] in Hall. apply andb_false_iff in Hall.
      destruct Hall as [Hm|Hl].
      - exists m. split; [left; reflexivity|]. apply Nat.leb_gt in Hm. exact Hm.
      - destruct (IH Hl) as [poses [Hin Hc]]. exists poses. split; [right; exact Hin|exact Hc]. }
    destruct Hex as [poses [Hin Hc]].
    destruct (@In_nth (Matrix s_t) _ _ [] Hin) as [k [Hk Ek]].
    rewrite all_some_None; [reflexivity|].
    apply in_map_iff. exists k. split.
    + apply (proj2 (create_trial_spec init k)). cbv zeta. rewrite Ek. exact Hc.
    + apply in_seq. lia.
Qed.
End TrajectoryShapes.

Section TrajectoryShapeProperties.
Import DynamicsFitProblem.

(** X6.  The constructor returns when every trial of [poseTrials] has
    at least two frames, and on a skeleton that has degrees of freedom
    only then (Eigen refuses the negative column count of a shorter
    trial).  When it returns it has given the
    trajectories their shape: one list entry per trial in each of
    [mPoses], [mVels] and [mAccs], every frame of the input in [mPoses],
    and in every trial two frames of positions and one of velocities more
    than of accelerations. *)
Theorem constructor_shapes_the_trajectories
    {s_t : Type} `{Scalar s_t}
    (init : DynamicsInitialization s_t) (skeleton : Skeleton s_t)
    (markerMap : StrMap (Marker s_t)) (trackingMarkers : list String.string)
    (footNodes : list nat) :
  let made := create init skeleton markerMap trackingMarkers footNodes in
  (forallb (fun poses => 2 <=? cols poses) (poseTrials init) = true ->
   exists p,
     made = Some p
     /\ trial_shapes_ok p = true
     /\ length (mPoses p) = length (poseTrials init)
     /\ forall k, k < length (poseTrials init) ->
          cols (nth k (mPoses p) []) = cols (nth k (poseTrials init) []))
  /\ (0 < getNumDofs skeleton ->
      forallb (fun poses => 2 <=? cols poses) (poseTrials init) = false -> made = None).
Proof.
  cbv zeta.
  destruct (create_returns init skeleton markerMap trackingMarkers footNodes)
    as [Hsome Hnone].
  split; [|intros _; exact Hnone].
  intros Hall. destruct (Hsome Hall) as [p E]. exists p.
  destruct (create_trajectories init skeleton markerMap trackingMarkers footNodes p E)
    as [LP [LV [LA Hcols]]].
  split; [exact E|]. split; [|split; [exact LP|]].
  - apply trial_shapes_ok_intro.
    + rewrite LP, LV. reflexivity.
    + rewrite LP, LA. reflexivity.
    + intros k Hk. rewrite LP in Hk.
      destruct (Hcols k Hk) as [Hge [C1 [C2 C3]]].
      rewrite C1, C2, C3. lia.
  - intros k Hk. apply (Hcols k Hk).
Qed.

Lemma constructor_shapes_the_trajectories_witness :
  (exists p,
     create (@ramp_init float _) ramp_skeleton [] [] [] = Some p
     /\ trial_shapes_ok p = true
     /\ length (mPoses p) = length (poseTrials (@ramp_init float _))
     /\ forall k, k < length (poseTrials (@ramp_init float _)) ->
          cols (nth k (mPoses p) []) = cols (nth k (poseTrials (@ramp_init float _)) []))
  /\ create (@short_init float _) ramp_skeleton [] [] [] = None.
Proof.
  split.
  - apply (proj1 (constructor_shapes_the_trajectories ramp_init ramp_skeleton [] [] [])).
    reflexivity.
  - apply (proj2 (constructor_shapes_the_trajectories short_init ramp_skeleton [] [] [])).
    + cbn. lia.
    + reflexivity.
Defined.

(** X7.  [unflatten] keeps the shape of the trajectories, for every [x]:
    it overwrites frames in place and adds or drops none. *)
Theorem unflatten_keeps_the_shape
    {s_t : Type} `{Scalar s_t} (p : t s_t) (sk : Skeleton s_t) (x : Vec s_t) :
  trial_shapes_ok p = true ->
  trial_shapes_ok (fst (unflatten (p, sk) x)) = true.
Proof.
  intros Hshape. destruct (sameAsLastX p x) eqn:Hguard.
  - rewrite (unflatten_guarded p sk x Hguard). exact Hshape.
  - destruct (unflatten_frame_of_problem p sk x) as [_ [LP [LV LA]]].
    cbv zeta in LP, LV, LA.
    destruct (trial_shapes_ok_spec p Hshape) as [HV [HA Hcols]].
    destruct (unflatten_blocks p sk x Hshape Hguard)
      as [M' [P' [V' [A' [E [_ [_ [_ [HAc HP]]]]]]]]].
    cbv zeta in E, HAc, HP.
    apply trial_shapes_ok_intro.
    + rewrite LV, LP. exact HV.
    + rewrite LA, LP. exact HA.
    + rewrite LP. unfold unflatten. rewrite E. cbn [fst mPoses mVels mAccs with_state].
      intros k Hk. destruct (mIncludePoses p).
      * destruct (HP k Hk) as [C1 [C2 _]]. split; assumption.
      * destruct HP as [-> [-> ->]]. apply Hcols. exact Hk.
Qed.

Lemma unflatten_keeps_the_shape_witness :
  trial_shapes_ok (fst (unflatten (roundtrip_problem, roundtrip_skeleton) roundtrip_x))
  = true.
Proof.
  apply (unflatten_keeps_the_shape roundtrip_problem roundtrip_skeleton roundtrip_x).
  vm_compute. reflexivity.
Defined.
End TrajectoryShapeProperties.

(** ** Constraints of a single trial, and the sparse Jacobian in general *)

Section ConstraintFacts.
Context {s_t : Type} `{Scalar s_t}.
Import DynamicsFitProblem.

Lemma TripleRows_length (d r r' : nat) (l : list (nat * nat * s_t)) (dts : list s_t) :
  TripleRows d r l dts r' -> length l + 3 * r = 3 * r' /\ length dts + r = r'.
Proof.
  induction 1 as [r|r a b dt l dts r' Hb Hrows IH].
  - simpl. lia.
  - cbn [length]. lia.
Qed.

Lemma rows_upto_one (d : nat) (accs : list (Matrix s_t)) :
  rows_upto d accs 1 = cols (nth 0 accs []) * d * 2 + d.
Proof. reflexivity. Qed.
End ConstraintFacts.

Section ConstraintProperties.
Import DynamicsFitProblem.

(** X8.  With poses included and a single trial, [computeConstraints(x)]
    fills its vector exactly: every one of the [getConstraintSize()]
    entries is written once, in the order frame by frame (the position
    rows, then the velocity rows) and then the trailing block, so that
    the assertion [cursor == constraints.size()] holds. *)
Theorem computeConstraints_fills_its_vector
    {s_t : Type} `{Scalar s_t} (p : t s_t) (sk : Skeleton s_t) (x : Vec s_t) :
  mIncludePoses p = true ->
  length (mAccs p) = 1 ->
  let p' := fst (unflatten (p, sk) x) in
  let sk' := snd (unflatten (p, sk) x) in
  fst (computeConstraints (p, sk) x) = Some (constraint_rows p' sk')
  /\ length (constraint_rows p' sk') = getConstraintSize p' sk'
  /\ snd (computeConstraints (p, sk) x) = unflatten (p, sk) x.
Proof.
  intros Hposes Hone. cbv zeta.
  destruct (unflatten_frame_of_problem p sk x) as [Hframe [_ [_ LA]]].
  cbv zeta in Hframe, LA.
  assert (Hposes' : mIncludePoses (fst (unflatten (p, sk) x)) = true).
  { rewrite <- Hposes. rewrite <- Hframe at 2. reflexivity. }
  split; [|split].
  - apply computeConstraints_fits; [exact Hposes|]. rewrite LA. exact Hone.
  - pose proof (getConstraintSize_rows (fst (unflatten (p, sk) x))
                  (snd (unflatten (p, sk) x)) Hposes') as E.
    rewrite LA, Hone in E. lia.
  - unfold computeConstraints. cbn [fst]. rewrite Hposes.
    destruct (unflatten (p, sk) x). reflexivity.
Qed.

Lemma computeConstraints_fills_its_vector_witness :
  let p' := fst (unflatten (roundtrip_problem, roundtrip_skeleton) roundtrip_x) in
  let sk' := snd (unflatten (roundtrip_problem, roundtrip_skeleton) roundtrip_x) in
  fst (computeConstraints (roundtrip_problem, roundtrip_skeleton) roundtrip_x)
  = Some (constraint_rows p' sk')
  /\ length (constraint_rows p' sk') = getConstraintSize p' sk'
  /\ snd (computeConstraints (roundtrip_problem, roundtrip_skeleton) roundtrip_x)
     = unflatten (roundtrip_problem, roundtrip_skeleton) roundtrip_x.
Proof.
  apply (computeConstraints_fills_its_vector roundtrip_problem roundtrip_skeleton
           roundtrip_x).
  - vm_compute. reflexivity.
  - vm_compute. reflexivity.
Defined.

(** X9.  For any number of trials, [computeSparseConstraintsJacobian()]
    emits its triples row by row: the rows are numbered from 0 in the
    order of [computeConstraints], each row holds exactly three triples
    ([+1] on a column, [-1] on the column of the same coordinate one frame
    later, and on the column of the derivative the time step of the trial
    the row belongs to), no triple lies on another row, and there are
    three times as many triples as constraints.  With poses excluded
    there is no triple. *)
Theorem sparse_jacobian_rows
    {s_t : Type} `{Scalar s_t} (p : t s_t) (sk : Skeleton s_t) :
  let J := computeSparseConstraintsJacobian p sk in
  let rows := length (constraint_rows p sk) in
  let timesteps :=
    row_timesteps (getNumDofs sk) (trialTimesteps (mInit p)) (mAccs p)
      (length (mAccs p)) in
  (mIncludePoses p = false -> J = [])
  /\ (mIncludePoses p = true ->
      TripleRows (getNumDofs sk) 0 J timesteps rows
      /\ length timesteps = rows
      /\ (forall k, triples_on_row k J = if k <? rows then 3 else 0)
      /\ length J = 3 * rows).
Proof.
  cbv zeta. split.
  - intros Hposes. unfold computeSparseConstraintsJacobian. rewrite Hposes. reflexivity.
  - intros Hposes.
    pose proof (computeSparseConstraintsJacobian_rows p sk Hposes) as Hrows.
    rewrite <- constraint_rows_length in Hrows.
    pose proof (TripleRows_length _ _ _ _ _ Hrows) as [Hl Hd].
    split; [exact Hrows|]. split; [lia|]. split.
    + intros k. destruct (TripleRows_count _ _ _ _ _ Hrows) as [_ Hcount].
      rewrite Hcount. reflexivity.
    + lia.
Qed.

Lemma sparse_jacobian_rows_witness :
  let J := computeSparseConstraintsJacobian two_trials_problem two_trials_skeleton in
  let rows := length (constraint_rows two_trials_problem two_trials_skeleton) in
  let timesteps :=
    row_timesteps (getNumDofs two_trials_skeleton)
      (trialTimesteps (mInit two_trials_problem)) (mAccs two_trials_problem)
      (length (mAccs two_trials_problem)) in
  TripleRows (getNumDofs two_trials_skeleton) 0 J timesteps rows
  /\ length timesteps = rows
  /\ (forall k, triples_on_row k J = if k <? rows then 3 else 0)
  /\ length J = 3 * rows.
Proof.
  apply (proj2 (sparse_jacobian_rows two_trials_problem two_trials_skeleton)).
  reflexivity.
Defined.
End ConstraintProperties.

(** ** The residual helper: what is restored, and what the result depends on *)

Section ResidualHelperProperties.
Import ResidualForceHelper.

(** X11.  [calculateResidual] and [calculateResidualNorm] hand the
    skeleton back exactly as they found it, and the two finite-difference
    methods restore its positions, velocities and accelerations, for every
    input and every implementation of the skeleton's dynamics. *)
Theorem residual_helper_restores_the_skeleton
    {s_t : Type} `{Scalar s_t} `{Collaborators s_t}
    (h : t) (q dq ddq forcesConcat : Vec s_t) (wrt : WithRespectTo s_t) (useL1 : bool)
    (sk : Skeleton s_t) :
  snd (calculateResidual h q dq ddq forcesConcat sk) = sk
  /\ snd (calculateResidualNorm h q dq ddq forcesConcat useL1 sk) = sk
  /\ (let sk' := snd (finiteDifferenceResidualJacobianWrt h q dq ddq forcesConcat wrt sk) in
      getPositions sk' = getPositions sk
      /\ getVelocities sk' = getVelocities sk
      /\ getAccelerations sk' = getAccelerations sk)
  /\ (let sk' :=
        snd (finiteDifferenceResidualNormGradientWrt h q dq ddq forcesConcat wrt useL1 sk) in
      getPositions sk' = getPositions sk
      /\ getVelocities sk' = getVelocities sk
      /\ getAccelerations sk' = getAccelerations sk).
Proof.
  split; [apply calculateResidual_restores|].
  split; [apply calculateResidualNorm_restores|].
  split.
  - apply finiteDifferenceResidualJacobianWrt_restores.
  - apply finiteDifferenceResidualNormGradientWrt_restores.
Qed.

(** X12.  The residual does not depend on the positions, velocities and
    accelerations the skeleton happens to be in when [calculateResidual]
    or [calculateResidualNorm] is called: only the arguments [q], [dq]
    and [ddq] enter. *)
Theorem residual_ignores_the_current_kinematics
    {s_t : Type} `{Scalar s_t} `{Collaborators s_t}
    (h : t) (q dq ddq forcesConcat pos vel acc : Vec s_t) (useL1 : bool)
    (sk : Skeleton s_t) :
  let moved := setAccelerations acc (setVelocities vel (setPositions pos sk)) in
  fst (calculateResidual h q dq ddq forcesConcat moved)
  = fst (calculateResidual h q dq ddq forcesConcat sk)
  /\ fst (calculateResidualNorm h q dq ddq forcesConcat useL1 moved)
     = fst (calculateResidualNorm h q dq ddq forcesConcat useL1 sk).
Proof.
  cbv zeta.
  rewrite !calculateResidual_run, !calculateResidualNorm_run. cbn [fst].
  assert (E : inverse_dynamics_residual h
                (setAccelerations acc (setVelocities vel (setPositions pos sk)))
                q dq ddq forcesConcat
              = inverse_dynamics_residual h sk q dq ddq forcesConcat)
    by (destruct sk; reflexivity).
  rewrite E. split; reflexivity.
Qed.
End ResidualHelperProperties.

(** ** Foot-ground contacts: the lists, the skeleton and the flags *)

Section ContactsMore.
Context {s_t : Type} `{Scalar s_t} `{Collaborators s_t}.
Import DynamicsFitter.

Variable infinity : s_t.

Lemma fold_left_snoc {A B : Type} (f : A -> B) (l : list A) :
  forall acc : list B,
  fold_left (fun b a => b ++ [f a]) l acc = acc ++ map f l.
Proof.
  induction l as [|a l IH]; intros acc; cbn [fold_left map].
  - rewrite app_nil_r. reflexivity.
  - rewrite IH, <- app_assoc. reflexivity.
Qed.

(** Step 0 reads the skeleton and appends one list of contact bodies per
    ground-reaction body. *)
Lemma extendAllContactBodies_run (init : DynamicsInitialization s_t) (sk : Skeleton s_t) :
  extendAllContactBodies init sk
  = (with_contactBodies init
       (contactBodies init
        ++ map (fun rootBody =>
                  extendContactBodies sk (grfBodyNodes init) (getNumBodyNodes sk)
                    [rootBody] [])
               (grfBodyNodes init)),
     sk).
Proof.
  unfold extendAllContactBodies. unfold bind at 1. unfold gets at 1. cbn [fst snd].
  unfold bind at 1.
  rewrite for_each_reads by reflexivity.
  unfold ret at 1. cbn [fst snd]. f_equal. f_equal.
  cbv [bind gets ret fst snd].
  apply fold_left_snoc.
Qed.

Lemma trial_positions_only (init : DynamicsInitialization s_t) (trial : nat)
    (sk : Skeleton s_t) :
  same_but_positions (snd (estimateFootGroundContacts_trial infinity init trial sk)) sk.
Proof.
  unfold estimateFootGroundContacts_trial. cbv zeta.
  destruct (estimateGroundHeight infinity _ _) as [gh flat].
  unfold bind at 1.
  pose proof (growContactSpheres_positions infinity init trial gh sk) as Hgrow.
  destruct (growContactSpheres infinity init trial gh sk) as [sizes sk1].
  cbn [fst snd] in *.
  unfold bind at 1.
  match goal with
  | |- context [for_each ?l ?acc ?body sk1] =>
      pose proof (for_each_invariant (fun sk' => same_but_positions sk' sk) l body) as Hinv;
      specialize (fun Hb => Hinv Hb acc sk1 Hgrow);
      destruct (for_each l acc body sk1) as [results sk2]
  end.
  unfold ret. cbn [fst snd] in *. apply Hinv.
  intros out k sk' Hsk'. unfold bind at 1.
  rewrite (contact_frame_run init trial gh sizes _ k sk' sk Hsk').
  unfold ret. cbn [snd]. apply same_but_positions_set. exact Hsk'.
Qed.

Lemma estimateFootGroundContacts_positions_only (init : DynamicsInitialization s_t)
    (sk : Skeleton s_t) :
  same_but_positions (snd (estimateFootGroundContacts infinity init sk)) sk.
Proof.
  rewrite estimateFootGroundContacts_run, extendAllContactBodies_run. cbn [fst snd].
  apply (for_each_invariant (fun sk' => same_but_positions sk' sk));
    [|apply same_but_positions_refl].
  intros init' k sk' Hsk'.
  unfold same_but_positions in *. rewrite <- Hsk'.
  apply (trial_positions_only init' k sk').
Qed.

(** The lists of [init] after a run of the trials' loop over [l]. *)
Lemma trials_lists (l : list nat) :
  forall (init : DynamicsInitialization s_t) (sk : Skeleton s_t),
  let init' := fst (for_each l init (estimateFootGroundContacts_trial infinity) sk) in
  (length (grfBodyContactSphereRadius init')
   = length (grfBodyContactSphereRadius init) + length l
   /\ length (groundHeight init') = length (groundHeight init) + length l
   /\ length (flatGround init') = length (flatGround init) + length l
   /\ length (defaultForcePlateCorners init')
      = length (defaultForcePlateCorners init) + length l)
  /\ (length (grfBodyForceActive init') = length (grfBodyForceActive init) + length l
      /\ length (grfBodySphereInContact init')
         = length (grfBodySphereInContact init) + length l
      /\ length (grfBodyOffForcePlate init')
         = length (grfBodyOffForcePlate init) + length l
      /\ length (probablyMissingGRF init') = length (probablyMissingGRF init) + length l)
  /\ (poseTrials init' = poseTrials init
      /\ trialTimesteps init' = trialTimesteps init
      /\ grfTrials init' = grfTrials init
      /\ forcePlateTrials init' = forcePlateTrials init
      /\ grfBodyNodes init' = grfBodyNodes init
      /\ contactBodies init' = contactBodies init).
Proof.
  induction l as [|k l IH]; intros init sk; cbv zeta.
  - cbn [for_each length]. unfold ret. cbn [fst]. rewrite !Nat.add_0_r.
    repeat split; reflexivity.
  - rewrite for_each_cons.
    pose proof (estimateFootGroundContacts_trial_run infinity init k sk) as Hrun.
    destruct (estimateFootGroundContacts_trial infinity init k sk) as [init1 sk1].
    cbn [fst snd] in *.
    specialize (IH init1 sk1). cbv zeta in IH.
    destruct IH as [[R1 [R2 [R3 R4]]] [[F1 [F2 [F3 F4]]] [E1 [E2 [E3 [E4 [E5 E6]]]]]]].
    rewrite R1, R2, R3, R4, F1, F2, F3, F4, E1, E2, E3, E4, E5, E6, Hrun.
    cbn [record_trial grfBodyContactSphereRadius groundHeight flatGround
         defaultForcePlateCorners grfBodyForceActive grfBodySphereInContact
         grfBodyOffForcePlate probablyMissingGRF poseTrials trialTimesteps grfTrials
         forcePlateTrials grfBodyNodes contactBodies length].
    rewrite appendDefaultForcePlate_length, !length_app. cbn [length].
    repeat split; lia.
Qed.

(** The pose the skeleton is left in by a loop over frames. *)
Lemma contact_frames_last (init : DynamicsInitialization s_t) (trial : nat)
    (groundHeight : s_t) (sizes : list (list s_t)) (defaultCorners : list (Vec s_t))
    (n : nat) (out : list (list bool * list bool * list bool * bool)) (sk : Skeleton s_t) :
  getPositions
    (snd (for_each (seq 0 (S n)) out
            (fun out k =>
               bind (contact_frame init trial groundHeight sizes defaultCorners k)
                    (fun r => ret (out ++ [r]))) sk))
  = col (nth trial (poseTrials init) []) n.
Proof.
  rewrite seq_S, for_each_app. cbn [plus]. rewrite for_each_cons.
  cbn [for_each]. unfold ret at 1. cbn [snd].
  unfold bind at 1.
  match goal with
  | |- context [contact_frame ?i ?t ?g ?s ?d ?k ?sk0] =>
      rewrite (contact_frame_run i t g s d k sk0 sk0 (same_but_positions_refl sk0))
  end.
  unfold ret. cbn [snd]. destruct (snd _); reflexivity.
Qed.

Lemma trial_final_pose (init : DynamicsInitialization s_t) (trial : nat)
    (sk : Skeleton s_t) :
  0 < cols (nth trial (poseTrials init) []) ->
  getPositions (snd (estimateFootGroundContacts_trial infinity init trial sk))
  = col (nth trial (poseTrials init) []) (cols (nth trial (poseTrials init) []) - 1).
Proof.
  intros Hframes. unfold estimateFootGroundContacts_trial. cbv zeta.
  destruct (estimateGroundHeight infinity _ _) as [gh flat].
  unfold bind at 1.
  destruct (growContactSpheres infinity init trial gh sk) as [sizes sk1].
  unfold bind at 1.
  destruct (cols (nth trial (poseTrials init) [])) as [|n] eqn:En; [lia|].
  pose proof (contact_frames_last init trial gh sizes
                (nth trial (appendDefaultForcePlate infinity init trial gh) []) n [] sk1)
    as Hlast.
  destruct (for_each (seq 0 (S n)) [] _ sk1) as [results sk2].
  unfold ret. cbn [snd] in *. rewrite Hlast. f_equal. lia.
Qed.
End ContactsMore.

Section ContactFacts.
Context {s_t : Type} `{Scalar s_t} `{Collaborators s_t}.
Import DynamicsFitter DynamicsFitProblem.

Variable infinity : s_t.

(** Everything [estimateFootGroundContacts] leaves in [init]. *)
Lemma estimateFootGroundContacts_lists (init : DynamicsInitialization s_t)
    (sk : Skeleton s_t) :
  let final := fst (estimateFootGroundContacts infinity init sk) in
  let n := length (forcePlateTrials init) in
  (length (grfBodyContactSphereRadius final) = length (grfBodyContactSphereRadius init) + n
   /\ length (groundHeight final) = length (groundHeight init) + n
   /\ length (flatGround final) = length (flatGround init) + n
   /\ length (defaultForcePlateCorners final) = length (defaultForcePlateCorners init) + n)
  /\ (length (grfBodyForceActive final) = length (grfBodyForceActive init) + n
      /\ length (grfBodySphereInContact final) = length (grfBodySphereInContact init) + n
      /\ length (grfBodyOffForcePlate final) = length (grfBodyOffForcePlate init) + n
      /\ length (probablyMissingGRF final) = length (probablyMissingGRF init) + n)
  /\ (poseTrials final = poseTrials init
      /\ trialTimesteps final = trialTimesteps init
      /\ grfTrials final = grfTrials init
      /\ forcePlateTrials final = forcePlateTrials init
      /\ grfBodyNodes final = grfBodyNodes init
      /\ contactBodies final
         = contactBodies init
           ++ map (fun rootBody =>
                     extendContactBodies sk (grfBodyNodes init) (getNumBodyNodes sk)
                       [rootBody] [])
                  (grfBodyNodes init)).
Proof.
  cbv zeta. rewrite estimateFootGroundContacts_run, extendAllContactBodies_run.
  cbn [fst snd].
  pose proof (trials_lists infinity (seq 0 (length (forcePlateTrials init)))
                (with_contactBodies init
                   (contactBodies init
                    ++ map (fun rootBody =>
                              extendContactBodies sk (grfBodyNodes init)
                                (getNumBodyNodes sk) [rootBody] [])
                           (grfBodyNodes init))) sk) as Hl.
  cbv zeta in Hl. rewrite length_seq in Hl. exact Hl.
Qed.

(** The check at the head of [computeLoss] and [computeGradient]. *)
Lemma computeLoss_returned (p : DynamicsFitProblem.t s_t) (sk : Skeleton s_t) (x : Vec s_t)
    (logExplanation : bool) :
  returned (computeLoss (p, sk) x logExplanation)
  = (length (poseTrials (mInit p)) <=? length (probablyMissingGRF (mInit p)))
  /\ returned (computeGradient (p, sk) x)
     = (length (poseTrials (mInit p)) <=? length (probablyMissingGRF (mInit p))).
Proof.
  rewrite <- (unflatten_mInit p sk x).
  unfold computeLoss, computeGradient.
  destruct (unflatten (p, sk) x) as [p' sk']. cbn [fst].
  rewrite Nat.leb_antisym.
  destruct (length (probablyMissingGRF (mInit p')) <? length (poseTrials (mInit p'))).
  - split; reflexivity.
  - repeat match goal with
      | |- context [let '(_, _) := ?e in _] => destruct e
      | |- context [let (_, _) := ?e in _] => destruct e
      end.
    split; reflexivity.
Qed.

(** The bodies the breadth-first search collects are the root or bodies
    that are not ground-reaction bodies, and the collected list only
    grows at its end. *)
Lemma extendContactBodies_spec (sk : Skeleton s_t) (grf : list nat) (root : nat)
    (steps : nat) :
  forall queue extended : list nat,
  (forall b, In b (queue ++ extended) -> b = root \/ ~ In b grf) ->
  (forall b, In b (extendContactBodies sk grf steps queue extended) ->
     b = root \/ ~ In b grf)
  /\ exists rest, extendContactBodies sk grf steps queue extended = extended ++ rest.
Proof.
  induction steps as [|steps IH]; intros queue extended Hinv; cbn [extendContactBodies].
  - split.
    + intros b Hb. apply Hinv. apply in_or_app. right. exact Hb.
    + exists []. rewrite app_nil_r. reflexivity.
  - destruct queue as [|cursor queue].
    + split.
      * intros b Hb. apply Hinv. exact Hb.
      * exists []. rewrite app_nil_r. reflexivity.
    + cbv zeta.
      match goal with
      | |- context [extendContactBodies sk grf steps ?q ?e] =>
          destruct (IH q e) as [Hin [rest Hrest]]
      end.
      * intros b Hb. rewrite <- app_assoc in Hb.
        apply in_app_or in Hb. destruct Hb as [Hb|Hb].
        { apply Hinv. right. apply in_or_app. left. exact Hb. }
        apply in_app_or in Hb. destruct Hb as [Hb|Hb].
        { apply filter_In in Hb. destruct Hb as [_ Hb]. right. intros Hgrf.
          apply negb_true_iff in Hb.
          assert (Ht : existsb (Nat.eqb b) grf = true).
          { apply existsb_exists. exists b. split; [exact Hgrf|apply Nat.eqb_refl]. }
          rewrite Ht in Hb. discriminate. }
        apply in_app_or in Hb. destruct Hb as [Hb|Hb].
        { apply Hinv. right. apply in_or_app. right. exact Hb. }
        { destruct Hb as [<-|[]]. apply Hinv. left. reflexivity. }
      * split; [exact Hin|].
        exists ([cursor] ++ rest). rewrite Hrest, <- app_assoc. reflexivity.
Qed.
End ContactFacts.

Section ContactProperties.
Import DynamicsFitter.

(** X13.  [estimateFootGroundContacts] appends one entry per trial of
    [forcePlateTrials] to each of the eight lists it fills (sphere radii,
    ground height, flat-ground flag, default plate, and the four lists of
    flags), behind whatever the lists held before; the entry of
    [probablyMissingGRF] for a trial has one flag per frame of that
    trial's poses; and the recorded motion, forces and plates are left as
    they were. *)
Theorem estimateFootGroundContacts_fills_its_lists
    {s_t : Type} `{Scalar s_t} `{Collaborators s_t} (infinity : s_t)
    (init : DynamicsInitialization s_t) (sk : Skeleton s_t) :
  let final := fst (estimateFootGroundContacts infinity init sk) in
  let n := length (forcePlateTrials init) in
  (length (grfBodyContactSphereRadius final) = length (grfBodyContactSphereRadius init) + n
   /\ length (groundHeight final) = length (groundHeight init) + n
   /\ length (flatGround final) = length (flatGround init) + n
   /\ length (defaultForcePlateCorners final) = length (defaultForcePlateCorners init) + n
   /\ length (grfBodyForceActive final) = length (grfBodyForceActive init) + n
   /\ length (grfBodySphereInContact final) = length (grfBodySphereInContact init) + n
   /\ length (grfBodyOffForcePlate final) = length (grfBodyOffForcePlate init) + n
   /\ length (probablyMissingGRF final) = length (probablyMissingGRF init) + n)
  /\ (forall trial, trial < n ->
        length (nth (length (probablyMissingGRF init) + trial) (probablyMissingGRF final) [])
        = cols (nth trial (poseTrials init) []))
  /\ (poseTrials final = poseTrials init
      /\ trialTimesteps final = trialTimesteps init
      /\ grfTrials final = grfTrials init
      /\ forcePlateTrials final = forcePlateTrials init
      /\ grfBodyNodes final = grfBodyNodes init).
Proof.
  cbv zeta.
  destruct (estimateFootGroundContacts_lists infinity init sk)
    as [[R1 [R2 [R3 R4]]] [[F1 [F2 [F3 F4]]] [E1 [E2 [E3 [E4 [E5 _]]]]]]].
  cbv zeta in *.
  split; [repeat split; assumption|].
  split; [|repeat split; assumption].
  intros trial Htrial.
  destruct (estimateFootGroundContacts_entries infinity init sk trial Htrial)
    as [EM [_ [EP _]]].
  cbv zeta in EM, EP. rewrite EM.
  destruct (estimateFootGroundContacts_trial_flags infinity
              (fst (entering_trial infinity init trial sk)) trial
              (snd (entering_trial infinity init trial sk))) as [Eflags _].
  cbv zeta in Eflags. rewrite Eflags, length_map, length_seq, EP. reflexivity.
Qed.

(** X14.  A problem constructed on an initialization that went through
    [estimateFootGroundContacts] passes the check at the head of
    [computeLoss] and [computeGradient] exactly when the flag lists it
    started with and the trials of [forcePlateTrials] together cover the
    trials of [poseTrials]; on an initialization with fewer force-plate
    trials than pose trials and empty flag lists, both calls still end the
    process. *)
Theorem contacts_then_loss
    {s_t : Type} `{Scalar s_t} `{Collaborators s_t} (infinity : s_t)
    (init : DynamicsInitialization s_t) (sk skeleton : Skeleton s_t)
    (markerMap : StrMap (Marker s_t)) (trackingMarkers : list String.string)
    (footNodes : list nat) (x : Vec s_t) (logExplanation : bool)
    (problem : DynamicsFitProblem.t s_t) :
  let final := fst (estimateFootGroundContacts infinity init sk) in
  let covered :=
    length (poseTrials init)
    <=? length (probablyMissingGRF init) + length (forcePlateTrials init) in
  DynamicsFitProblem.create final skeleton markerMap trackingMarkers footNodes
  = Some problem ->
  returned (DynamicsFitProblem.computeLoss (problem, skeleton) x logExplanation) = covered
  /\ returned (DynamicsFitProblem.computeGradient (problem, skeleton) x) = covered.
Proof.
  cbv zeta. intros Emade.
  destruct (estimateFootGroundContacts_lists infinity init sk)
    as [_ [[_ [_ [_ F4]]] [E1 _]]].
  cbv zeta in F4, E1.
  destruct (computeLoss_returned problem skeleton x logExplanation) as [HL HG].
  destruct (create_defaults _ _ _ _ _ _ Emade) as [Einit _].
  rewrite HL, HG, Einit, F4, E1. split; reflexivity.
Qed.

Lemma contacts_then_loss_witness :
  let final :=
    fst (@estimateFootGroundContacts float _ free_body PrimFloat.infinity stepping_init
           stepping_skeleton) in
  let problem :=
    constructed (DynamicsFitProblem.create final stepping_skeleton [] [] []) I in
  returned (@DynamicsFitProblem.computeLoss float _ free_body
              (problem, stepping_skeleton) [] false) = true
  /\ returned (@DynamicsFitProblem.computeGradient float _ free_body
                 (problem, stepping_skeleton) []) = true.
Proof.
  cbv zeta.
  apply (@contacts_then_loss float _ free_body PrimFloat.infinity stepping_init
           stepping_skeleton stepping_skeleton [] [] [] [] false).
  reflexivity.
Defined.

(** X15.  [estimateFootGroundContacts] changes nothing in the skeleton
    but its positions, and it does not put the positions back: when the
    last trial has frames, the skeleton is left in the pose of that
    trial's last frame. *)
Theorem estimateFootGroundContacts_leaves_the_last_pose
    {s_t : Type} `{Scalar s_t} `{Collaborators s_t} (infinity : s_t)
    (init : DynamicsInitialization s_t) (sk : Skeleton s_t) :
  let after := snd (estimateFootGroundContacts infinity init sk) in
  same_but_positions after sk
  /\ forall last,
       length (forcePlateTrials init) = S last ->
       0 < cols (nth last (poseTrials init) []) ->
       getPositions after
       = col (nth last (poseTrials init) []) (cols (nth last (poseTrials init) []) - 1).
Proof.
  cbv zeta. split; [apply estimateFootGroundContacts_positions_only|].
  intros last Hn Hframes.
  rewrite estimateFootGroundContacts_run, Hn, seq_S, for_each_app. cbn [plus].
  rewrite for_each_cons. cbn [for_each]. unfold ret. cbn [snd].
  rewrite <- entering_trial_run.
  assert (Htrial : last < length (forcePlateTrials init)) by lia.
  destruct (estimateFootGroundContacts_entries infinity init sk last Htrial)
    as [_ [_ [EP _]]].
  cbv zeta in EP.
  rewrite trial_final_pose by (rewrite EP; exact Hframes).
  rewrite EP. reflexivity.
Qed.

Lemma estimateFootGroundContacts_leaves_the_last_pose_witness :
  let init := @stepping_init float _ in
  getPositions
    (snd (@estimateFootGroundContacts float _ free_body PrimFloat.infinity init
            stepping_skeleton))
  = col (nth 0 (poseTrials init) []) (cols (nth 0 (poseTrials init) []) - 1).
Proof.
  apply (proj2 (@estimateFootGroundContacts_leaves_the_last_pose float _ free_body
                  PrimFloat.infinity stepping_init stepping_skeleton) 0).
  - reflexivity.
  - vm_compute. lia.
Defined.
End ContactProperties.

Section ContactFlagFacts.
Context {s_t : Type} `{Scalar s_t} `{Collaborators s_t}.
Import DynamicsFitter.

Variable infinity : s_t.

Lemma existsb_of_map {A B : Type} (f : B -> bool) (g : A -> B) (l : list A) :
  existsb f (map g l) = existsb (fun a => f (g a)) l.
Proof. induction l as [|a l IH]; [reflexivity|]. cbn [map existsb]. rewrite IH. reflexivity. Qed.

(** The flag of a frame is the disjunction over the ground-reaction
    bodies of their [contactIsSus]. *)
Lemma trial_flag_value (init : DynamicsInitialization s_t) (trial : nat)
    (sk : Skeleton s_t) (k : nat) :
  k < cols (nth trial (poseTrials init) []) ->
  nth k (last (probablyMissingGRF
                 (fst (estimateFootGroundContacts_trial infinity init trial sk))) [])
      false
  = existsb
      (fun b =>
         snd (contact_body init (setPositions (col (nth trial (poseTrials init) []) k) sk)
                trial k (trial_groundHeight infinity init trial)
                (trial_sizes infinity init trial sk)
                (trial_defaultCorners infinity init trial) b))
      (seq 0 (length (grfBodyNodes init))).
Proof.
  intros Hk.
  destruct (estimateFootGroundContacts_trial_flags infinity init trial sk) as [E _].
  cbv zeta in E. rewrite E. clear E.
  rewrite (nth_indep _ false (snd (fst (contact_frame init trial
             (trial_groundHeight infinity init trial) (trial_sizes infinity init trial sk)
             (trial_defaultCorners infinity init trial) 0 sk))))
    by (rewrite length_map, length_seq; exact Hk).
  rewrite (map_nth (fun k => snd (fst (contact_frame init trial
             (trial_groundHeight infinity init trial) (trial_sizes infinity init trial sk)
             (trial_defaultCorners infinity init trial) k sk)))).
  rewrite seq_nth by exact Hk. cbn [plus].
  rewrite contact_frame_flags. cbn [snd].
  apply existsb_of_map.
Qed.

Lemma contact_body_flag (init : DynamicsInitialization s_t) (sk : Skeleton s_t)
    (trial k : nat) (groundHeight : s_t) (sizes : list (list s_t))
    (defaultCorners : list (Vec s_t)) (b : nat) :
  snd (contact_body init sk trial k groundHeight sizes defaultCorners b)
  = existsb
      (fun c => s_ltb (heightAboveGround sk groundHeight
                         (nth c (nth b (contactBodies init) []) 0))
                      (at_ (nth b sizes []) c))
      (seq 0 (length (nth b (contactBodies init) [])))
    && negb (footActive (col (nth trial (grfTrials init) []) k) b)
    && negb (anyInPlate sk (nth b (contactBodies init) [])
               (nth trial (forcePlateTrials init) []) defaultCorners).
Proof.
  unfold contact_body. cbn [snd].
  rewrite (fold_left_or
             (fun c => s_ltb (heightAboveGround sk groundHeight
                                (nth c (nth b (contactBodies init) []) 0))
                             (at_ (nth b sizes []) c))).
  cbn [orb].
  destruct (existsb _ _ && negb _); reflexivity.
Qed.
End ContactFlagFacts.

Section ContactFlagProperties.
Import DynamicsFitter.

(** X16.  On an initialization that holds no default plates on entry, a
    frame is flagged [probablyMissingGRF] only for a reason: if the flag
    of a frame of a trial is true, then some ground-reaction body has no
    active measured force in that frame, the sphere of one of its contact
    bodies reaches the ground, and none of its contact bodies is over a
    force plate that has corners or over the default plate synthesized for
    the trial. *)
Theorem flagged_frames_have_a_suspicious_contact
    {s_t : Type} `{Scalar s_t} `{Collaborators s_t} (infinity : s_t)
    (init : DynamicsInitialization s_t) (sk : Skeleton s_t) (trial k : nat) :
  let entry := entering_trial infinity init trial sk in
  let init_k := fst entry in
  let groundHeight := trial_groundHeight infinity init_k trial in
  let sizes := trial_sizes infinity init_k trial (snd entry) in
  let defaultCorners := synthesizedDefaultPlate infinity init trial in
  let posed := setPositions (col (nth trial (poseTrials init) []) k) (snd entry) in
  defaultForcePlateCorners init = [] ->
  trial < length (forcePlateTrials init) ->
  k < cols (nth trial (poseTrials init) []) ->
  nth k (nth (length (probablyMissingGRF init) + trial)
           (probablyMissingGRF (fst (estimateFootGroundContacts infinity init sk))) [])
      false = true ->
  exists b c,
    b < length (grfBodyNodes init)
    /\ c < length (nth b (contactBodies init_k) [])
    /\ footActive (col (nth trial (grfTrials init) []) k) b = false
    /\ s_ltb (heightAboveGround posed groundHeight (nth c (nth b (contactBodies init_k) []) 0))
             (at_ (nth b sizes []) c) = true
    /\ anyInPlate posed (nth b (contactBodies init_k) [])
         (nth trial (forcePlateTrials init_k) []) defaultCorners = false.
Proof.
  cbv zeta. intros Hfirst Htrial Hk Hflag.
  destruct (estimateFootGroundContacts_entries infinity init sk trial Htrial)
    as [EM [_ [EP [EG EB]]]].
  cbv zeta in EM, EP, EG, EB. rewrite EM in Hflag.
  rewrite trial_flag_value in Hflag by (rewrite EP; exact Hk).
  apply existsb_exists in Hflag. destruct Hflag as [b [Hb Hsus]].
  apply in_seq in Hb. rewrite contact_body_flag in Hsus.
  apply andb_true_iff in Hsus. destruct Hsus as [Hsus Hplate].
  apply andb_true_iff in Hsus. destruct Hsus as [Hcontact Hforce].
  apply existsb_exists in Hcontact. destruct Hcontact as [c [Hc Hdist]].
  apply in_seq in Hc.
  rewrite (first_call_default_plate infinity init sk trial Hfirst) in Hplate.
  exists b, c. rewrite EB in Hb. rewrite EP, EG in *.
  split; [lia|]. split; [lia|].
  split; [apply negb_true_iff; exact Hforce|].
  split; [exact Hdist|]. apply negb_true_iff. exact Hplate.
Qed.

Lemma flagged_frames_have_a_suspicious_contact_witness :
  let init := @two_plate_init float _ in
  let entry :=
    @entering_trial float _ free_body PrimFloat.infinity init 0 stepping_skeleton in
  let init_k := fst entry in
  let groundHeight := trial_groundHeight PrimFloat.infinity init_k 0 in
  let sizes := @trial_sizes float _ free_body PrimFloat.infinity init_k 0 (snd entry) in
  let defaultCorners :=
    @synthesizedDefaultPlate float _ free_body PrimFloat.infinity init 0 in
  let posed := setPositions (col (nth 0 (poseTrials init) []) 1) (snd entry) in
  length defaultCorners = 4
  /\ exists b c,
       b < length (grfBodyNodes init)
       /\ c < length (nth b (contactBodies init_k) [])
       /\ footActive (col (nth 0 (grfTrials init) []) 1) b = false
       /\ s_ltb (@heightAboveGround float _ free_body posed groundHeight
                   (nth c (nth b (contactBodies init_k) []) 0))
                (at_ (nth b sizes []) c) = true
       /\ @anyInPlate float free_body posed (nth b (contactBodies init_k) [])
            (nth 0 (forcePlateTrials init_k) []) defaultCorners = false.
Proof.
  cbv zeta. split; [vm_compute; reflexivity|].
  apply (@flagged_frames_have_a_suspicious_contact float _ free_body
           PrimFloat.infinity two_plate_init stepping_skeleton 0 1).
  - reflexivity.
  - vm_compute. lia.
  - vm_compute. lia.
  - vm_compute. reflexivity.
Defined.
End ContactFlagProperties.

Section ContactBodyProperties.
Import DynamicsFitter.

(** X17.  The contact bodies that step 0 of [estimateFootGroundContacts]
    attaches to a ground-reaction body never include another
    ground-reaction body: every one of them is the body itself or a body
    that is not in [grfBodyNodes]; and on a skeleton that has bodies the
    list starts with the ground-reaction body itself.  The lists are
    appended behind the ones [contactBodies] held on entry. *)
Theorem contact_bodies_exclude_other_grf_bodies
    {s_t : Type} `{Scalar s_t} `{Collaborators s_t} (infinity : s_t)
    (init : DynamicsInitialization s_t) (sk : Skeleton s_t) (i : nat) :
  i < length (grfBodyNodes init) ->
  let rootBody := nth i (grfBodyNodes init) 0 in
  let bodies :=
    nth (length (contactBodies init) + i)
        (contactBodies (fst (estimateFootGroundContacts infinity init sk))) [] in
  (forall b, In b bodies -> b = rootBody \/ ~ In b (grfBodyNodes init))
  /\ (0 < getNumBodyNodes sk -> hd_error bodies = Some rootBody).
Proof.
  intros Hi. cbv zeta.
  destruct (estimateFootGroundContacts_lists infinity init sk)
    as [_ [_ [_ [_ [_ [_ [_ EC]]]]]]].
  cbv zeta in EC. rewrite EC. clear EC.
  rewrite app_nth2_plus.
  rewrite (nth_map_lt _ _ i 0) by exact Hi.
  split.
  - apply (extendContactBodies_spec sk (grfBodyNodes init) (nth i (grfBodyNodes init) 0)
             (getNumBodyNodes sk) [nth i (grfBodyNodes init) 0] []).
    intros b [<-|[]]. left. reflexivity.
  - intros Hbodies. destruct (getNumBodyNodes sk) as [|steps]; [lia|].
    cbn [extendContactBodies app].
    match goal with
    | |- context [extendContactBodies sk ?g steps ?q ?e] =>
        destruct (extendContactBodies_spec sk g (nth i (grfBodyNodes init) 0) steps q e)
          as [_ [rest ->]]
    end.
    + intros b Hb. apply in_app_or in Hb. destruct Hb as [Hb|Hb].
      * apply filter_In in Hb. destruct Hb as [_ Hb]. right. intros Hgrf.
        apply negb_true_iff in Hb.
        assert (Ht : existsb (Nat.eqb b) (grfBodyNodes init) = true).
        { apply existsb_exists. exists b. split; [exact Hgrf|apply Nat.eqb_refl]. }
        rewrite Ht in Hb. discriminate.
      * destruct Hb as [<-|[]]. left. reflexivity.
    + reflexivity.
Qed.

Lemma contact_bodies_exclude_other_grf_bodies_witness :
  let init := @stepping_init float _ in
  let bodies :=
    nth (length (contactBodies init) + 0)
        (contactBodies
           (fst (@estimateFootGroundContacts float _ free_body PrimFloat.infinity init
                   stepping_skeleton))) [] in
  (forall b, In b bodies -> b = nth 0 (grfBodyNodes init) 0 \/ ~ In b (grfBodyNodes init))
  /\ (0 < @getNumBodyNodes float free_body stepping_skeleton ->
      hd_error bodies = Some (nth 0 (grfBodyNodes init) 0)).
Proof.
  apply (@contact_bodies_exclude_other_grf_bodies float _ free_body PrimFloat.infinity
           stepping_init stepping_skeleton 0).
  vm_compute. lia.
Defined.
End ContactBodyProperties.

(** ** Comparing gradients: [debugVector] and [debugErrors] *)

Section DebugFacts.
Context {s_t : Type} `{Scalar s_t}.
Import DynamicsFitProblem.

Lemma fold_left_or_from {A : Type} (P : A -> bool) (l : list A) (acc : bool) :
  fold_left (fun acc a => if P a then true else acc) l acc = acc || existsb P l.
Proof.
  revert acc. induction l as [|a l IH]; intros acc; simpl.
  - rewrite orb_false_r. reflexivity.
  - rewrite IH. destruct (P a), acc; reflexivity.
Qed.

Lemma debugVector_existsb (fd analytical : Vec s_t) (tol : s_t) :
  debugVector fd analytical tol = existsb (in_error fd analytical tol) (seq 0 (length fd)).
Proof.
  unfold debugVector. cbv zeta.
  exact (fold_left_or_from (in_error fd analytical tol) (seq 0 (length fd)) false).
Qed.

Lemma at_segment (v : Vec s_t) (c dim i : nat) :
  i < dim -> at_ (segment v c dim) i = at_ v (c + i).
Proof.
  intros Hi. unfold at_, segment.
  rewrite nth_firstn. apply Nat.ltb_lt in Hi. rewrite Hi.
  apply nth_skipn.
Qed.

Lemma existsb_ext_seq (f g : nat -> bool) (s n : nat) :
  (forall i, s <= i < s + n -> f i = g i) -> existsb f (seq s n) = existsb g (seq s n).
Proof.
  revert s. induction n as [|n IH]; intros s Hfg; [reflexivity|].
  cbn [seq existsb]. rewrite Hfg by lia. f_equal. apply IH. intros i Hi. apply Hfg. lia.
Qed.

Lemma existsb_seq_shift_from (f : nat -> bool) (c n : nat) :
  forall s, existsb (fun i => f (c + i)) (seq s n) = existsb f (seq (c + s) n).
Proof.
  induction n as [|n IH]; intros s; [reflexivity|].
  cbn [seq existsb]. rewrite IH. replace (c + S s) with (S (c + s)) by lia. reflexivity.
Qed.

Lemma existsb_seq_shift (f : nat -> bool) (c n : nat) :
  existsb (fun i => f (c + i)) (seq 0 n) = existsb f (seq c n).
Proof. rewrite existsb_seq_shift_from, Nat.add_0_r. reflexivity. Qed.

(** A block of [debugErrors] looks at the entries of its segment. *)
Lemma debugVector_segment (fd analytical : Vec s_t) (tol : s_t) (c dim : nat) :
  c + dim <= length fd ->
  debugVector (segment fd c dim) (segment analytical c dim) tol
  = existsb (in_error fd analytical tol) (seq c dim).
Proof.
  intros Hlen. rewrite debugVector_existsb.
  assert (L : length (segment fd c dim) = dim).
  { unfold segment. rewrite length_firstn, length_skipn. lia. }
  rewrite L, <- (existsb_seq_shift (in_error fd analytical tol) c dim).
  apply existsb_ext_seq. intros i Hi. unfold in_error.
  rewrite !at_segment by lia. reflexivity.
Qed.

Lemma debug_block_covered (fd analytical : Vec s_t) (tol : s_t) (dim : nat)
    (st : nat * bool) :
  covered fd analytical tol st -> covered fd analytical tol (debug_block fd analytical tol dim st).
Proof.
  destruct st as [c b]. unfold covered, debug_block. cbn [fst snd].
  intros Hst Hlen. rewrite Hst by lia.
  rewrite debugVector_segment by lia.
  rewrite seq_app, existsb_app. reflexivity.
Qed.

Lemma debug_block_cursor (fd analytical : Vec s_t) (tol : s_t) (dim : nat)
    (st : nat * bool) :
  fst (debug_block fd analytical tol dim st) = fst st + dim.
Proof. destruct st; reflexivity. Qed.

Lemma debug_frames_cursor (fd analytical : Vec s_t) (tol : s_t) (d n : nat) :
  forall st : nat * bool,
  fst (fold_left (fun st (_ : nat) =>
                    debug_block fd analytical tol d
                      (debug_block fd analytical tol d (debug_block fd analytical tol d st)))
                 (seq 0 n) st)
  = fst st + n * (d * 3).
Proof.
  induction n as [|n IH]; intros st.
  - simpl. lia.
  - rewrite fold_left_seq_S, !debug_block_cursor, IH. lia.
Qed.

Lemma debug_trials_cursor (fd analytical : Vec s_t) (tol : s_t) (d : nat)
    (A : list (Matrix s_t)) (n : nat) :
  forall st : nat * bool,
  fst (fold_left
         (fun st trial =>
            let st :=
              fold_left (fun st (_ : nat) =>
                           debug_block fd analytical tol d
                             (debug_block fd analytical tol d
                                (debug_block fd analytical tol d st)))
                        (seq 0 (cols (nth trial A []))) st in
            debug_block fd analytical tol d
              (debug_block fd analytical tol d (debug_block fd analytical tol d st)))
         (seq 0 n) st)
  = fst st + trials_offset d A n.
Proof.
  induction n as [|n IH]; intros st.
  - simpl. lia.
  - rewrite fold_left_seq_S. cbv zeta.
    rewrite !debug_block_cursor, debug_frames_cursor, IH.
    cbn [trials_offset]. unfold trial_size. lia.
Qed.

Lemma debug_markers_cursor (fd analytical : Vec s_t) (tol : s_t) (n : nat) :
  forall st : nat * bool,
  fst (fold_left (fun st (_ : nat) => debug_block fd analytical tol 3 st) (seq 0 n) st)
  = fst st + n * 3.
Proof.
  induction n as [|n IH]; intros st.
  - simpl. lia.
  - rewrite fold_left_seq_S, debug_block_cursor, IH. lia.
Qed.

(** [debugErrors] as a whole: the cursor ends on [getProblemSize()], and
    the flag covers the entries below it. *)
Lemma debugErrors_existsb (p : t s_t) (sk : Skeleton s_t) (fd analytical : Vec s_t)
    (tol : s_t) :
  getProblemSize p sk <= length fd ->
  debugErrors p sk fd analytical tol
  = existsb (in_error fd analytical tol) (seq 0 (getProblemSize p sk)).
Proof.
  intros Hlen. unfold debugErrors. cbv zeta.
  set (check := debug_block fd analytical tol).
  match goal with
  | |- snd ?final = _ =>
      assert (Hc : fst final = getProblemSize p sk);
      [|assert (Hcov : covered fd analytical tol final)]
  end.
  - rewrite getProblemSize_blocks.
    assert (E : forall st : nat * bool,
               fst (if mIncludePoses p
                    then fold_left
                           (fun st trial =>
                              let st :=
                                fold_left
                                  (fun st (_ : nat) =>
                                     check (getNumDofs sk)
                                       (check (getNumDofs sk) (check (getNumDofs sk) st)))
                                  (seq 0 (cols (nth trial (mAccs p) []))) st in
                              check (getNumDofs sk)
                                (check (getNumDofs sk) (check (getNumDofs sk) st)))
                           (seq 0 (length (mPoses p))) st
                    else st)
               = fst st + block_size (mIncludePoses p)
                            (trials_offset (getNumDofs sk) (mAccs p) (length (mPoses p)))).
    { intros st. destruct (mIncludePoses p); [apply debug_trials_cursor|simpl; lia]. }
    rewrite E. clear E.
    assert (E : forall st : nat * bool,
               fst (if mIncludeMarkerOffsets p
                    then fold_left (fun st (_ : nat) => check 3 st)
                           (seq 0 (length (mMarkers p))) st
                    else st)
               = fst st + block_size (mIncludeMarkerOffsets p) (length (mMarkers p) * 3)).
    { intros st. destruct (mIncludeMarkerOffsets p); [apply debug_markers_cursor|simpl; lia]. }
    rewrite E. clear E.
    assert (E : forall (b : bool) (dim : nat) (st : nat * bool),
               fst (if b then check dim st else st) = fst st + block_size b dim).
    { intros b dim st. destruct b; [apply debug_block_cursor|simpl; lia]. }
    rewrite !E. cbn [fst]. lia.
  - assert (Hb : forall (b : bool) (dim : nat) (st : nat * bool),
               covered fd analytical tol st ->
               covered fd analytical tol (if b then check dim st else st)).
    { intros b dim st Hst. destruct b; [apply debug_block_covered|]; exact Hst. }
    assert (H0 : covered fd analytical tol (0, false)) by (intros _; reflexivity).
    destruct (mIncludePoses p).
    + apply fold_left_preserves.
      * intros st trial Hst. cbv zeta.
        do 3 apply debug_block_covered.
        apply fold_left_preserves; [|exact Hst].
        intros st' _ Hst'. do 3 apply debug_block_covered. exact Hst'.
      * destruct (mIncludeMarkerOffsets p).
        -- apply fold_left_preserves; [intros st' _ Hst'; apply debug_block_covered; exact Hst'|].
           do 4 apply Hb. exact H0.
        -- do 4 apply Hb. exact H0.
    + destruct (mIncludeMarkerOffsets p).
      * apply fold_left_preserves; [intros st' _ Hst'; apply debug_block_covered; exact Hst'|].
        do 4 apply Hb. exact H0.
      * do 4 apply Hb. exact H0.
  - unfold covered in Hcov. rewrite Hc in Hcov. apply Hcov. exact Hlen.
Qed.
End DebugFacts.

Section DebugFloats.
Import DynamicsFitProblem.
Import SpecFloat FloatOps FloatAxioms.

(** Comparisons and differences in binary64 when an operand is not a
    number. *)
Lemma nan_spec (x : float) : PrimFloat.is_nan x = true -> Prim2SF x = S754_nan.
Proof. intros Hx. unfold Prim2SF. rewrite Hx. reflexivity. Qed.

Lemma ltb_nan_r (x y : float) : Prim2SF y = S754_nan -> PrimFloat.ltb x y = false.
Proof.
  intros Hy. rewrite ltb_spec, Hy. unfold SFltb.
  destruct (Prim2SF x) as [s| s| |s m e]; try destruct s; reflexivity.
Qed.

Lemma ltb_nan_l (x y : float) : Prim2SF x = S754_nan -> PrimFloat.ltb x y = false.
Proof. intros Hx. rewrite ltb_spec, Hx. reflexivity. Qed.

Lemma s_abs_nan (x : float) : Prim2SF x = S754_nan -> Prim2SF (s_abs x) = S754_nan.
Proof.
  intros Hx. unfold s_abs. cbn [s_ltb float_Scalar].
  rewrite (ltb_nan_l x _ Hx). exact Hx.
Qed.

Lemma sub_nan_l (x y : float) :
  Prim2SF x = S754_nan -> Prim2SF (PrimFloat.sub x y) = S754_nan.
Proof. intros Hx. rewrite sub_spec, Hx. reflexivity. Qed.

Lemma infinity_spec (x : float) :
  PrimFloat.is_nan x = false -> PrimFloat.is_infinity x = true ->
  exists s, Prim2SF x = S754_infinity s.
Proof.
  intros Hn Hi. unfold PrimFloat.is_infinity in Hi. rewrite eqb_spec, abs_spec in Hi.
  destruct (Prim2SF x) as [s| s| |s m e] eqn:E.
  - cbn in Hi. discriminate.
  - exists s. reflexivity.
  - cbn in Hi. discriminate.
  - cbn in Hi. discriminate.
Qed.

(** [(x - y) / x] is not a number when [x] is infinite. *)
Lemma quotient_nan (x y : float) (s : bool) :
  Prim2SF x = S754_infinity s ->
  Prim2SF (PrimFloat.div (PrimFloat.sub x y) x) = S754_nan.
Proof.
  intros Hx. rewrite div_spec, sub_spec, Hx.
  destruct (Prim2SF y) as [s'| s'| |s' m e]; destruct s; try destruct s'; reflexivity.
Qed.

Lemma s_abs_infinity (x : float) (s : bool) :
  Prim2SF x = S754_infinity s -> Prim2SF (s_abs x) = S754_infinity false.
Proof.
  intros Hx. unfold s_abs. cbn [s_ltb s_zero s_opp float_Scalar].
  rewrite ltb_spec, Hx.
  replace (Prim2SF PrimFloat.zero) with (S754_zero false) by (vm_compute; reflexivity).
  destruct s; cbn.
  - rewrite opp_spec, Hx. reflexivity.
  - exact Hx.
Qed.

(** An entry of [fd] that is not a finite number is never in error. *)
Lemma in_error_not_finite (fd analytical : Vec float) (tol : float) (i : nat) :
  PrimFloat.is_finite (at_ fd i) = false -> in_error fd analytical tol i = false.
Proof.
  unfold PrimFloat.is_finite. intros Hf. apply negb_false_iff in Hf.
  unfold in_error, s_gtb. cbn [s_ltb s_sub s_div s_one float_Scalar].
  destruct (PrimFloat.is_nan (at_ fd i)) eqn:Hn.
  - pose proof (nan_spec _ Hn) as Hx.
    rewrite (ltb_nan_r _ _ (s_abs_nan _ Hx)).
    apply ltb_nan_r. apply s_abs_nan. apply sub_nan_l. exact Hx.
  - cbn [orb] in Hf. destruct (infinity_spec _ Hn Hf) as [s Hx].
    replace (PrimFloat.ltb PrimFloat.one (s_abs (at_ fd i))) with true.
    + apply ltb_nan_r. apply s_abs_nan. apply (quotient_nan _ _ s Hx).
    + rewrite ltb_spec, (s_abs_infinity _ s Hx). vm_compute. reflexivity.
Qed.
End DebugFloats.

Section DebugProperties.
Import DynamicsFitProblem.

(** X18.  In binary64, [debugVector(fd, analytical, name, tol)] never
    reports an entry of [fd] that is a NaN or an infinity, whatever
    [analytical] and [tol] are: it returns true only when some finite
    entry of [fd] is in error, and on a finite-difference vector without
    a finite entry it reports no error at all. *)
Theorem debugVector_passes_nan_and_infinity (fd analytical : Vec float) (tol : float) :
  (debugVector fd analytical tol = true ->
   exists i, i < length fd /\ PrimFloat.is_finite (at_ fd i) = true)
  /\ ((forall i, i < length fd -> PrimFloat.is_finite (at_ fd i) = false) ->
      debugVector fd analytical tol = false).
Proof.
  assert (Hsome : debugVector fd analytical tol = true ->
                  exists i, i < length fd /\ PrimFloat.is_finite (at_ fd i) = true).
  { rewrite debugVector_existsb. intros Herr.
    apply existsb_exists in Herr. destruct Herr as [i [Hi Herr]].
    apply in_seq in Hi. exists i. split; [lia|].
    destruct (PrimFloat.is_finite (at_ fd i)) eqn:Hf; [reflexivity|].
    rewrite (in_error_not_finite fd analytical tol i Hf) in Herr. discriminate. }
  split; [exact Hsome|].
  intros Hall. apply not_true_is_false. intros Herr.
  destruct (Hsome Herr) as [i [Hi Hf]]. rewrite (Hall i Hi) in Hf. discriminate.
Qed.

Lemma debugVector_passes_nan_and_infinity_witness :
  debugVector [PrimFloat.nan; PrimFloat.infinity; PrimFloat.neg_infinity]
    [PrimFloat.zero; PrimFloat.zero; PrimFloat.zero] PrimFloat.zero = false.
Proof.
  apply (proj2 (debugVector_passes_nan_and_infinity
                  [PrimFloat.nan; PrimFloat.infinity; PrimFloat.neg_infinity]
                  [PrimFloat.zero; PrimFloat.zero; PrimFloat.zero] PrimFloat.zero)).
  intros i Hi. cbn [length] in Hi.
  destruct i as [|[|[|i]]]; [reflexivity|reflexivity|reflexivity|lia].
Defined.

(** X19.  [debugErrors(fd, analytical, tol)] compares the two vectors
    entry for entry: on vectors of [getProblemSize()] entries its blocks
    cover every index exactly once, whatever the flags and the number of
    trials, so that it reports an error exactly when [debugVector] does on
    the whole vectors. *)
Theorem debugErrors_covers_every_entry
    {s_t : Type} `{Scalar s_t} (p : t s_t) (sk : Skeleton s_t)
    (fd analytical : Vec s_t) (tol : s_t) :
  length fd = getProblemSize p sk ->
  length analytical = getProblemSize p sk ->
  debugErrors p sk fd analytical tol = debugVector fd analytical tol.
Proof.
  intros Hfd _.
  rewrite debugErrors_existsb by lia.
  rewrite debugVector_existsb, Hfd. reflexivity.
Qed.

Lemma debugErrors_covers_every_entry_witness :
  debugErrors roundtrip_problem roundtrip_skeleton roundtrip_x
    (flatten roundtrip_problem roundtrip_skeleton) (PrimFloat.of_uint63 1)
  = debugVector roundtrip_x (flatten roundtrip_problem roundtrip_skeleton)
      (PrimFloat.of_uint63 1)
  /\ debugVector roundtrip_x (flatten roundtrip_problem roundtrip_skeleton)
       (PrimFloat.of_uint63 1) = true.
Proof.
  split; [|vm_compute; reflexivity].
  apply (debugErrors_covers_every_entry roundtrip_problem roundtrip_skeleton).
  - vm_compute. reflexivity.
  - vm_compute. reflexivity.
Defined.
End DebugProperties.

(** ** The best iterate *)

Section BestIterate.
Import DynamicsFitProblem.
Open Scope R_scope.

Lemma s_abs_Rabs (a : R) : s_abs a = Rabs a.
Proof.
  unfold s_abs. cbn [s_ltb s_zero s_opp R_Scalar]. unfold R_ltb, Rabs.
  destruct (Rlt_dec a 0), (Rcase_abs a); try reflexivity; lra.
Qed.

Lemma intermediate_callback_R (p : t R) (best : BestObjective R) (iter : Z)
    (obj_value inf_pr : R) :
  intermediate_callback p best iter obj_value inf_pr
  = if Rlt_dec obj_value (mBestObjectiveValue best)
    then if Rlt_dec (Rabs inf_pr) 1
         then (true, mkBest iter obj_value (mLastX p))
         else (true, best)
    else (true, best).
Proof.
  unfold intermediate_callback. rewrite s_abs_Rabs.
  cbn [s_ltb s_one R_Scalar]. unfold R_ltb.
  destruct (Rlt_dec obj_value _), (Rlt_dec (Rabs inf_pr) 1); reflexivity.
Qed.

(** X20.  Over the real numbers, [intermediate_callback] keeps the best
    feasible iterate of a run: after any sequence of reports the
    remembered objective value is no larger than the value it started with
    and no larger than the objective of any report whose primal
    infeasibility is below 1 in magnitude; what is remembered is either
    what it started with or the iteration, the objective and [mLastX] of
    one such report; and the callback never asks the solver to stop. *)
Theorem intermediate_callback_keeps_the_best
    (best : BestObjective R) (reports : list (t R * Z * R * R)) :
  let best' := run_callbacks best reports in
  mBestObjectiveValue best' <= mBestObjectiveValue best
  /\ (forall p iter obj_value inf_pr,
        In (p, iter, obj_value, inf_pr) reports ->
        Rabs inf_pr < 1 ->
        mBestObjectiveValue best' <= obj_value)
  /\ (best' = best
      \/ exists p iter obj_value inf_pr,
           In (p, iter, obj_value, inf_pr) reports
           /\ Rabs inf_pr < 1
           /\ obj_value < mBestObjectiveValue best
           /\ best' = mkBest iter obj_value (mLastX p))
  /\ (forall p b iter obj_value inf_pr,
        fst (intermediate_callback p b iter obj_value inf_pr) = true).
Proof.
  cbv zeta. split; [|split; [|split]].
  - revert best. induction reports as [|[[[p iter] obj] inf] reports IH]; intros best.
    + cbn. lra.
    + cbn [run_callbacks fold_left]. fold (run_callbacks
        (snd (intermediate_callback p best iter obj inf)) reports).
      specialize (IH (snd (intermediate_callback p best iter obj inf))).
      rewrite intermediate_callback_R in *.
      destruct (Rlt_dec obj (mBestObjectiveValue best)), (Rlt_dec (Rabs inf) 1);
        cbn [snd mBestObjectiveValue] in *; lra.
  - revert best. induction reports as [|[[[p iter] obj] inf] reports IH];
      intros best q it o i Hin Hfeasible.
    + destruct Hin.
    + cbn [run_callbacks fold_left]. fold (run_callbacks
        (snd (intermediate_callback p best iter obj inf)) reports).
      destruct Hin as [E|Hin].
      * injection E as -> -> -> ->.
        assert (Hmono : forall b rs, mBestObjectiveValue (run_callbacks b rs)
                                     <= mBestObjectiveValue b).
        { intros b rs. revert b.
          induction rs as [|[[[p' iter'] obj'] inf'] rs IHrs]; intros b.
          - cbn. lra.
          - cbn [run_callbacks fold_left]. fold (run_callbacks
              (snd (intermediate_callback p' b iter' obj' inf')) rs).
            specialize (IHrs (snd (intermediate_callback p' b iter' obj' inf'))).
            rewrite intermediate_callback_R in *.
            destruct (Rlt_dec obj' (mBestObjectiveValue b)), (Rlt_dec (Rabs inf') 1);
              cbn [snd mBestObjectiveValue] in *; lra. }
        specialize (Hmono (snd (intermediate_callback q best it o i)) reports).
        rewrite intermediate_callback_R in *.
        destruct (Rlt_dec o (mBestObjectiveValue best)), (Rlt_dec (Rabs i) 1);
          cbn [snd mBestObjectiveValue] in *; lra.
      * apply (IH _ q it o i Hin Hfeasible).
  - revert best. induction reports as [|[[[p iter] obj] inf] reports IH]; intros best.
    + left. reflexivity.
    + cbn [run_callbacks fold_left]. fold (run_callbacks
        (snd (intermediate_callback p best iter obj inf)) reports).
      specialize (IH (snd (intermediate_callback p best iter obj inf))).
      rewrite intermediate_callback_R in *.
      destruct (Rlt_dec obj (mBestObjectiveValue best)) as [Hlt|Hge];
        [destruct (Rlt_dec (Rabs inf) 1) as [Hf|Hnf]|]; cbn [snd] in IH |- *.
      * destruct IH as [->|[q [it [o [i [Hin [Hfi [Hlt' ->]]]]]]]].
        -- right. exists p, iter, obj, inf. repeat split; auto. left. reflexivity.
        -- right. exists q, it, o, i. cbn [mBestObjectiveValue] in Hlt'.
           repeat split; auto; [right; exact Hin|lra].
      * destruct IH as [->|[q [it [o [i [Hin [Hfi [Hlt' ->]]]]]]]].
        -- left. reflexivity.
        -- right. exists q, it, o, i. repeat split; auto. right. exact Hin.
      * destruct IH as [->|[q [it [o [i [Hin [Hfi [Hlt' ->]]]]]]]].
        -- left. reflexivity.
        -- right. exists q, it, o, i. repeat split; auto. right. exact Hin.
  - intros p b iter obj inf. rewrite intermediate_callback_R.
    destruct (Rlt_dec obj (mBestObjectiveValue b)), (Rlt_dec (Rabs inf) 1); reflexivity.
Qed.

Lemma intermediate_callback_keeps_the_best_witness :
  let p := @ramp_problem R _ in
  mBestObjectiveValue
    (run_callbacks (mkBest 0%Z 10 []) [(p, 1%Z, 5, 1 / 2); (p, 2%Z, 7, 0)]) <= 5.
Proof.
  cbv zeta.
  pose proof (intermediate_callback_keeps_the_best (mkBest 0%Z 10 [])
                [(ramp_problem, 1%Z, 5, 1 / 2);
                 (ramp_problem, 2%Z, 7, 0)]) as Hbest.
  cbv zeta in Hbest. destruct Hbest as (_ & Hreports & _).
  apply (Hreports (ramp_problem) 1%Z 5 (1 / 2)).
  - left. reflexivity.
  - rewrite Rabs_right by lra. lra.
Defined.
End BestIterate.

(** ** The bounds handed to the solver *)

Section BoundFacts.
Import DynamicsFitProblem.
Open Scope R_scope.

Lemma set_nth_ordered (a b : Vec R) (i : nat) (x y : R) :
  Forall2 Rle a b -> x <= y -> Forall2 Rle (set_nth i x a) (set_nth i y b).
Proof.
  intros Hab Hxy. revert i.
  induction Hab as [|a0 b0 a b H0 Hab IH]; intros i.
  - destruct i; constructor.
  - destruct i as [|i]; cbn [set_nth]; constructor; auto.
Qed.

Lemma write_segment_ordered (a b v w : Vec R) (c dim : nat) :
  Forall2 Rle a b -> (forall i, at_ v i <= at_ w i) ->
  Forall2 Rle (write_segment a c dim v) (write_segment b c dim w).
Proof.
  intros Hab Hvw. unfold write_segment.
  generalize (seq 0 dim). intros l. revert a b Hab.
  induction l as [|i l IH]; intros a b Hab; cbn [fold_left].
  - exact Hab.
  - apply IH. apply set_nth_ordered; [exact Hab|apply Hvw].
Qed.

Lemma put_ordered (dim : nat) (v w : Vec R) (lo hi : Vec R * nat) :
  (forall i, at_ v i <= at_ w i) ->
  ordered lo hi -> ordered (put dim v lo) (put dim w hi).
Proof.
  intros Hvw [Hc Hle]. destruct lo as [a c], hi as [b c']. cbn [fst snd] in *. subst c'.
  unfold ordered, put. cbn [fst snd]. split; [reflexivity|].
  apply write_segment_ordered; assumption.
Qed.

Lemma fold_left_ordered {A : Type} (f g : Vec R * nat -> A -> Vec R * nat) (l : list A) :
  (forall a lo hi, ordered lo hi -> ordered (f lo a) (g hi a)) ->
  forall lo hi, ordered lo hi -> ordered (fold_left f l lo) (fold_left g l hi).
Proof.
  intros Hstep. induction l as [|a l IH]; intros lo hi Hord; cbn [fold_left].
  - exact Hord.
  - apply IH. apply Hstep. exact Hord.
Qed.

Lemma ones_times_ordered (i : nat) :
  at_ (ones_times (s_of_Z (-5))) i <= at_ (ones_times (s_of_Z 5)) i.
Proof.
  unfold ones_times, vscale_r, at_. cbn [map s_mul s_one s_of_Z R_Scalar].
  destruct i as [|[|[|i]]]; cbn [nth]; lra.
Qed.

Lemma bounds_ordered `{Limits R} (p : t R) (sk : Skeleton R) :
  (forall i, at_ (getGroupMassesLowerBound sk) i <= at_ (getGroupMassesUpperBound sk) i) ->
  (forall i, at_ (getGroupCOMLowerBound sk) i <= at_ (getGroupCOMUpperBound sk) i) ->
  (forall i, at_ (getGroupInertiasLowerBound sk) i
             <= at_ (getGroupInertiasUpperBound sk) i) ->
  (forall i, at_ (getGroupScalesLowerBound sk) i <= at_ (getGroupScalesUpperBound sk) i) ->
  (forall i, at_ (getPositionLowerLimits sk) i <= at_ (getPositionUpperLimits sk) i) ->
  (forall i, at_ (getVelocityLowerLimits sk) i <= at_ (getVelocityUpperLimits sk) i) ->
  (forall i, at_ (getAccelerationLowerLimits sk) i
             <= at_ (getAccelerationUpperLimits sk) i) ->
  ordered (flattenLowerBound_cursor p sk) (flattenUpperBound_cursor p sk).
Proof.
  intros Hm Hc Hi Hs Hq Hv Ha.
  unfold flattenLowerBound_cursor, flattenUpperBound_cursor. cbv zeta.
  assert (Hif : forall (b : bool) dim v w lo hi,
             (forall i, at_ v i <= at_ w i) -> ordered lo hi ->
             ordered (if b then put dim v lo else lo) (if b then put dim w hi else hi)).
  { intros b dim v w lo hi Hvw Hord. destruct b; [apply put_ordered|]; assumption. }
  assert (H0 : ordered (zeros (getProblemSize p sk), 0%nat) (zeros (getProblemSize p sk), 0%nat)).
  { split; [reflexivity|]. cbn [fst]. unfold zeros.
    induction (getProblemSize p sk); cbn [repeat]; constructor; [cbn; lra|assumption]. }
  assert (Hmk : forall lo hi, ordered lo hi ->
             ordered
               (if mIncludeMarkerOffsets p
                then fold_left (fun st (_ : nat) => put 3 (ones_times (s_of_Z (-5))) st)
                       (seq 0 (length (mMarkers p))) lo
                else lo)
               (if mIncludeMarkerOffsets p
                then fold_left (fun st (_ : nat) => put 3 (ones_times (s_of_Z 5)) st)
                       (seq 0 (length (mMarkers p))) hi
                else hi)).
  { intros lo hi Hord. destruct (mIncludeMarkerOffsets p); [|exact Hord].
    apply fold_left_ordered; [|exact Hord].
    intros _ lo' hi' Hord'. apply put_ordered; [apply ones_times_ordered|exact Hord']. }
  destruct (mIncludePoses p).
  - apply fold_left_ordered.
    + intros trial lo hi Hord. unfold flatten_bound_trial. cbv zeta.
      do 3 (apply put_ordered; [assumption|]).
      apply fold_left_ordered; [|exact Hord].
      intros _ lo' hi' Hord'. cbv zeta. do 3 (apply put_ordered; [assumption|]).
      exact Hord'.
    + apply Hmk. do 4 (apply Hif; [assumption|]). exact H0.
  - apply Hmk. do 4 (apply Hif; [assumption|]). exact H0.
Qed.
End BoundFacts.

Section BoundSizes.
Context {s_t : Type} `{Scalar s_t} `{DynamicsFitProblem.Limits s_t}.
Import DynamicsFitProblem.

Lemma bound_trials_cursor (d : nat) (q v a : Vec s_t) (A : list (Matrix s_t)) (n : nat) :
  forall st : Vec s_t * nat,
  snd (fold_left (flatten_bound_trial d q v a A) (seq 0 n) st) = snd st + trials_offset d A n
  /\ length (fst (fold_left (flatten_bound_trial d q v a A) (seq 0 n) st)) = length (fst st).
Proof.
  assert (Hframes : forall m (st : Vec s_t * nat),
             snd (fold_left (fun st (_ : nat) => put d a (put d v (put d q st))) (seq 0 m) st)
             = snd st + m * (d * 3)
             /\ length (fst (fold_left (fun st (_ : nat) => put d a (put d v (put d q st)))
                                       (seq 0 m) st))
                = length (fst st)).
  { induction m as [|m IHm]; intros st.
    - simpl. split; [lia|reflexivity].
    - rewrite fold_left_seq_S. destruct (IHm st) as [Ec El].
      split; [rewrite !put_cursor, Ec; lia|].
      do 3 apply put_size. exact El. }
  induction n as [|n IH]; intros st.
  - simpl. split; [lia|reflexivity].
  - rewrite fold_left_seq_S. destruct (IH st) as [Ec El].
    unfold flatten_bound_trial at 1 3. cbv zeta.
    destruct (Hframes (cols (nth n A [])) (fold_left (flatten_bound_trial d q v a A) (seq 0 n) st))
      as [Fc Fl].
    split.
    + rewrite !put_cursor, Fc, Ec. cbn [trials_offset]. unfold trial_size. lia.
    + do 3 apply put_size. rewrite Fl. exact El.
Qed.

Lemma bound_markers_cursor (v : Vec s_t) (n : nat) :
  forall st : Vec s_t * nat,
  snd (fold_left (fun st (_ : nat) => put 3 v st) (seq 0 n) st) = snd st + n * 3
  /\ length (fst (fold_left (fun st (_ : nat) => put 3 v st) (seq 0 n) st))
     = length (fst st).
Proof.
  induction n as [|n IH]; intros st.
  - simpl. split; [lia|reflexivity].
  - rewrite fold_left_seq_S. destruct (IH st) as [Ec El].
    split; [rewrite put_cursor, Ec; lia|].
    apply put_size. exact El.
Qed.

Lemma if_put_both (b : bool) (dim : nat) (v : Vec s_t) (st : Vec s_t * nat) :
  snd (if b then put dim v st else st) = snd st + block_size b dim
  /\ length (fst (if b then put dim v st else st)) = length (fst st).
Proof.
  split; [apply if_put_cursor|]. apply if_put_size. reflexivity.
Qed.

Lemma bound_cursor_generic (p : t s_t) (sk : Skeleton s_t)
    (m c i s mk q v a : Vec s_t) :
  let st := (zeros (getProblemSize p sk), 0) in
  let st := if mIncludeMasses p then put (getNumScaleGroups sk) m st else st in
  let st := if mIncludeCOMs p then put (getNumScaleGroups sk * 3) c st else st in
  let st := if mIncludeInertias p then put (getNumScaleGroups sk * 6) i st else st in
  let st := if mIncludeBodyScales p then put (getGroupScaleDim sk) s st else st in
  let st := if mIncludeMarkerOffsets p
            then fold_left (fun st (_ : nat) => put 3 mk st) (seq 0 (length (mMarkers p))) st
            else st in
  let st := if mIncludePoses p
            then fold_left (flatten_bound_trial (getNumDofs sk) q v a (mAccs p))
                   (seq 0 (length (mPoses p))) st
            else st in
  snd st = getProblemSize p sk /\ length (fst st) = getProblemSize p sk.
Proof.
  cbv zeta.
  set (st0 := (zeros (getProblemSize p sk), 0)).
  assert (E : forall st : Vec s_t * nat,
             snd (if mIncludePoses p
                  then fold_left (flatten_bound_trial (getNumDofs sk) q v a (mAccs p))
                         (seq 0 (length (mPoses p))) st
                  else st)
             = snd st + block_size (mIncludePoses p)
                          (trials_offset (getNumDofs sk) (mAccs p) (length (mPoses p)))
             /\ length (fst (if mIncludePoses p
                             then fold_left
                                    (flatten_bound_trial (getNumDofs sk) q v a (mAccs p))
                                    (seq 0 (length (mPoses p))) st
                             else st))
                = length (fst st)).
  { intros st. destruct (mIncludePoses p); [apply bound_trials_cursor|].
    simpl. split; [lia|reflexivity]. }
  assert (E' : forall st : Vec s_t * nat,
             snd (if mIncludeMarkerOffsets p
                  then fold_left (fun st (_ : nat) => put 3 mk st)
                         (seq 0 (length (mMarkers p))) st
                  else st)
             = snd st + block_size (mIncludeMarkerOffsets p) (length (mMarkers p) * 3)
             /\ length (fst (if mIncludeMarkerOffsets p
                             then fold_left (fun st (_ : nat) => put 3 mk st)
                                    (seq 0 (length (mMarkers p))) st
                             else st))
                = length (fst st)).
  { intros st. destruct (mIncludeMarkerOffsets p); [apply bound_markers_cursor|].
    simpl. split; [lia|reflexivity]. }
  match goal with
  | |- snd (if _ then _ else ?st) = _ /\ _ => destruct (E st) as [-> ->]
  end.
  match goal with
  | |- snd (if _ then _ else ?st) + _ = _ /\ _ => destruct (E' st) as [-> ->]
  end.
  repeat match goal with
  | |- context [snd (if ?b then put ?dim ?w ?st else ?st)] =>
      destruct (if_put_both b dim w st) as [-> ->]
  end.
  subst st0. cbn [fst snd]. rewrite zeros_length. split; [|reflexivity].
  rewrite getProblemSize_blocks. lia.
Qed.
End BoundSizes.

Section BoundProperties.
Import DynamicsFitProblem.
Open Scope R_scope.

(** X21.  [flattenUpperBound()] and [flattenLowerBound()] fill vectors of
    [getProblemSize()] entries up to their last entry (their assertions
    [cursor == flat.size()] hold), for every combination of flags and
    every number of trials.  Over the real numbers, when each lower limit
    of the skeleton is below its upper limit, every entry of the lower
    bound is below the same entry of the upper bound; the marker offsets
    are bounded by -5 and 5. *)
Theorem bounds_are_ordered `{Limits R} (p : t R) (sk : Skeleton R) :
  (forall i, at_ (getGroupMassesLowerBound sk) i <= at_ (getGroupMassesUpperBound sk) i) ->
  (forall i, at_ (getGroupCOMLowerBound sk) i <= at_ (getGroupCOMUpperBound sk) i) ->
  (forall i, at_ (getGroupInertiasLowerBound sk) i
             <= at_ (getGroupInertiasUpperBound sk) i) ->
  (forall i, at_ (getGroupScalesLowerBound sk) i <= at_ (getGroupScalesUpperBound sk) i) ->
  (forall i, at_ (getPositionLowerLimits sk) i <= at_ (getPositionUpperLimits sk) i) ->
  (forall i, at_ (getVelocityLowerLimits sk) i <= at_ (getVelocityUpperLimits sk) i) ->
  (forall i, at_ (getAccelerationLowerLimits sk) i
             <= at_ (getAccelerationUpperLimits sk) i) ->
  Forall2 Rle (flattenLowerBound p sk) (flattenUpperBound p sk)
  /\ (length (flattenLowerBound p sk) = getProblemSize p sk
      /\ snd (flattenLowerBound_cursor p sk) = getProblemSize p sk)
  /\ (length (flattenUpperBound p sk) = getProblemSize p sk
      /\ snd (flattenUpperBound_cursor p sk) = getProblemSize p sk).
Proof.
  intros Hm Hc Hi Hs Hq Hv Ha.
  split; [apply (bounds_ordered p sk Hm Hc Hi Hs Hq Hv Ha)|].
  split.
  - destruct (bound_cursor_generic p sk
                (getGroupMassesLowerBound sk) (getGroupCOMLowerBound sk)
                (getGroupInertiasLowerBound sk) (getGroupScalesLowerBound sk)
                (ones_times (s_of_Z (-5)))
                (getPositionLowerLimits sk) (getVelocityLowerLimits sk)
                (getAccelerationLowerLimits sk)) as [Ec El].
    split; [exact El|exact Ec].
  - destruct (bound_cursor_generic p sk
                (getGroupMassesUpperBound sk) (getGroupCOMUpperBound sk)
                (getGroupInertiasUpperBound sk) (getGroupScalesUpperBound sk)
                (ones_times (s_of_Z 5))
                (getPositionUpperLimits sk) (getVelocityUpperLimits sk)
                (getAccelerationUpperLimits sk)) as [Ec El].
    split; [exact El|exact Ec].
Qed.

Lemma bounds_are_ordered_witness :
  let p := @ramp_problem R _ in
  let sk := @ramp_skeleton R _ in
  Forall2 Rle (@flattenLowerBound R _ unit_limits p sk)
              (@flattenUpperBound R _ unit_limits p sk)
  /\ (length (@flattenLowerBound R _ unit_limits p sk) = getProblemSize p sk
      /\ snd (@flattenLowerBound_cursor R _ unit_limits p sk) = getProblemSize p sk)
  /\ (length (@flattenUpperBound R _ unit_limits p sk) = getProblemSize p sk
      /\ snd (@flattenUpperBound_cursor R _ unit_limits p sk) = getProblemSize p sk).
Proof.
  apply (@bounds_are_ordered unit_limits
           (@ramp_problem R _) (@ramp_skeleton R _)).
  all: intros i; cbn; destruct i as [|[|i]]; cbn; try lra; destruct i; cbn; lra.
Defined.
End BoundProperties.

(** ** The ground and the default force plate *)

Section GroundFacts.
Context {s_t : Type} `{Scalar s_t}.
Import DynamicsFitter.

Variable infinity : s_t.

(** Once a corner has set the ground height, no later corner changes it. *)
Lemma corners_keep_the_height (l : list (Vec s_t)) :
  forall (groundHeight : s_t) (flatGround : bool),
  exists flatGround',
    fold_left
      (fun st corner =>
         let '(noGroundCorners, groundHeight, flatGround) := st in
         if (noGroundCorners : bool)
         then (false, at_ corner 1, flatGround)
         else if (s_abs (groundHeight - at_ corner 1) <? s_lit 1 8)%s
              then (noGroundCorners, groundHeight, false)
              else st)
      l (false, groundHeight, flatGround)
    = (false, groundHeight, flatGround').
Proof.
  induction l as [|corner l IH]; intros gh flat; cbn [fold_left].
  - exists flat. reflexivity.
  - destruct (s_abs (gh - at_ corner 1) <? s_lit 1 8)%s; apply IH.
Qed.

Lemma estimateGroundHeight_of_corners (plates : list (ForcePlate s_t)) (frames : nat)
    (corner : Vec s_t) (rest : list (Vec s_t)) :
  flat_map (@corners s_t) plates = corner :: rest ->
  fst (estimateGroundHeight infinity plates frames) = at_ corner 1.
Proof.
  intros E. unfold estimateGroundHeight. rewrite E. cbn [fold_left].
  destruct (corners_keep_the_height rest (at_ corner 1) true) as [flat' ->].
  reflexivity.
Qed.
End GroundFacts.

Section GroundOverTheReals.
Import DynamicsFitter.
Open Scope R_scope.

Lemma fold_left_flat_map {A B C : Type} (f : C -> B -> C) (g : A -> list B) (l : list A) :
  forall c : C,
  fold_left f (flat_map g l) c = fold_left (fun c a => fold_left f (g a) c) l c.
Proof.
  induction l as [|a l IH]; intros c; cbn [flat_map fold_left]; [reflexivity|].
  rewrite fold_left_app. apply IH.
Qed.

Lemma fold_left_ext_eq {A B : Type} (f g : B -> A -> B) (l : list A) (b : B) :
  (forall b a, f b a = g b a) -> fold_left f l b = fold_left g l b.
Proof.
  intros Hfg. revert b. induction l as [|a l IH]; intros b; cbn [fold_left]; [reflexivity|].
  rewrite Hfg. apply IH.
Qed.

Lemma lower_step (g h : R) :
  lower (false, g) h = if Rlt_dec h g then (false, h) else (false, g).
Proof.
  unfold lower. cbn [s_ltb R_Scalar]. unfold R_ltb. destruct (Rlt_dec h g); reflexivity.
Qed.

Lemma lower_started (heights : list R) :
  forall g : R,
  let r := fold_left lower heights (false, g) in
  fst r = false /\ snd r <= g /\ (forall h, In h heights -> snd r <= h)
  /\ (snd r = g \/ In (snd r) heights).
Proof.
  induction heights as [|h0 heights IH]; intros g; cbv zeta; cbn [fold_left].
  - cbn. repeat split; [lra|intros h []|left; reflexivity].
  - rewrite lower_step.
    destruct (Rlt_dec h0 g) as [Hlt|Hge].
    + destruct (IH h0) as [E1 [E2 [E3 E4]]]. cbv zeta in *.
      split; [exact E1|]. split; [lra|]. split.
      * intros h [<-|Hin]; [exact E2|apply E3; exact Hin].
      * right. destruct E4 as [->|Hin]; [left; reflexivity|right; exact Hin].
    + destruct (IH g) as [E1 [E2 [E3 E4]]]. cbv zeta in *.
      split; [exact E1|]. split; [exact E2|]. split.
      * intros h [<-|Hin]; [lra|apply E3; exact Hin].
      * destruct E4 as [E|Hin]; [left; exact E|right; right; exact Hin].
Qed.

Lemma lower_fresh (heights : list R) (g : R) :
  let r := fold_left lower heights (true, g) in
  (heights = [] -> r = (true, g))
  /\ (forall h, In h heights -> snd r <= h)
  /\ (heights <> [] -> fst r = false /\ In (snd r) heights).
Proof.
  cbv zeta. destruct heights as [|h0 heights]; cbn [fold_left].
  - split; [reflexivity|]. split; [intros h []|intros Hne; contradiction].
  - change (lower (true, g) h0) with (false, h0).
    destruct (lower_started heights h0) as [E1 [E2 [E3 E4]]]. cbv zeta in *.
    split; [discriminate|]. split.
    + intros h [<-|Hin]; [exact E2|apply E3; exact Hin].
    + intros _. split; [exact E1|].
      destruct E4 as [->|Hin]; [left; reflexivity|right; exact Hin].
Qed.

(** The heights of the centers of pressure of a trial, frame by frame. *)
Lemma estimateGroundHeight_of_pressure (infinity : R) (plates : list (ForcePlate R))
    (frames : nat) :
  flat_map (@corners R) plates = [] ->
  estimateGroundHeight infinity plates frames
  = (snd (fold_left lower
            (flat_map (fun k => map (fun plate => at_ (nth k (centersOfPressure plate) []) 1)
                                    plates)
                      (seq 0 frames))
            (true, infinity)),
     true).
Proof.
  intros E. unfold estimateGroundHeight. rewrite E. cbn [fold_left].
  rewrite fold_left_flat_map.
  match goal with
  | |- (let '(_, g) := ?a in (g, true)) = (snd ?b, true) => replace a with b
  end.
  - destruct (fold_left _ _ _). reflexivity.
  - apply fold_left_ext_eq. intros st k. rewrite fold_left_map. reflexivity.
Qed.
End GroundOverTheReals.

Section DefaultPlateOverTheReals.
Import DynamicsFitter.
Open Scope R_scope.

Lemma box_step_spec (st : R * R * R * R) (cop : Vec R) :
  box_within st (box_step st cop) /\ box_covers (box_step st cop) cop.
Proof.
  destruct st as [[[minX maxX] minZ] maxZ].
  unfold box_step, box_within, box_covers, s_gtb. cbn [s_ltb R_Scalar]. unfold R_ltb.
  destruct (Rlt_dec (at_ cop 0) minX), (Rlt_dec maxX (at_ cop 0)),
           (Rlt_dec (at_ cop 2) minZ), (Rlt_dec maxZ (at_ cop 2)); lra.
Qed.

Lemma box_within_covers (st st' : R * R * R * R) (cop : Vec R) :
  box_within st st' -> box_covers st cop -> box_covers st' cop.
Proof.
  destruct st as [[[a b] c] d], st' as [[[a' b'] c'] d'].
  unfold box_within, box_covers. lra.
Qed.

Lemma box_within_trans (s1 s2 s3 : R * R * R * R) :
  box_within s1 s2 -> box_within s2 s3 -> box_within s1 s3.
Proof.
  destruct s1 as [[[a b] c] d], s2 as [[[a' b'] c'] d'], s3 as [[[a'' b''] c''] d''].
  unfold box_within. lra.
Qed.

Lemma box_fold (cops : list (Vec R)) :
  forall st,
  box_within st (fold_left box_step cops st)
  /\ forall cop, In cop cops -> box_covers (fold_left box_step cops st) cop.
Proof.
  induction cops as [|c cops IH]; intros st; cbn [fold_left].
  - split; [destruct st as [[[a b] c] d]; unfold box_within; lra|intros cop []].
  - destruct (box_step_spec st c) as [Hw Hc].
    destruct (IH (box_step st c)) as [Hw' Hc'].
    split; [eapply box_within_trans; eassumption|].
    intros cop [<-|Hin]; [|apply Hc'; exact Hin].
    eapply box_within_covers; eassumption.
Qed.

(** The box that step 3.2 grows is the fold of [box_step] over the
    centers of pressure of all plates in all frames. *)
Lemma defaultForcePlate_box (infinity : R) (plates : list (ForcePlate R)) (frames : nat)
    (groundHeight : R) :
  existsb (fun forcePlate => (length (corners forcePlate) =? 0)%nat) plates = true ->
  defaultForcePlate infinity plates frames groundHeight
  = let '(minX, maxX, minZ, maxZ) :=
      fold_left box_step
        (flat_map (fun k => map (fun plate => nth k (centersOfPressure plate) []) plates)
                  (seq 0 frames))
        (infinity, - infinity, infinity, - infinity) in
    [[minX - 10 / 100; groundHeight; minZ - 10 / 100];
     [minX - 10 / 100; groundHeight; maxZ + 10 / 100];
     [maxX + 10 / 100; groundHeight; maxZ + 10 / 100];
     [maxX + 10 / 100; groundHeight; minZ - 10 / 100]].
Proof.
  intros Hneed. unfold defaultForcePlate. rewrite Hneed. cbv zeta.
  match goal with
  | |- context [fold_left ?f (seq 0 frames) ?i] =>
      replace (fold_left f (seq 0 frames) i)
        with (fold_left box_step
                (flat_map (fun k => map (fun plate => nth k (centersOfPressure plate) [])
                                        plates)
                          (seq 0 frames)) i)
  end.
  - destruct (fold_left _ _ _) as [[[minX maxX] minZ] maxZ]. reflexivity.
  - rewrite fold_left_flat_map.
    apply fold_left_ext_eq. intros st k. rewrite fold_left_map.
    apply fold_left_ext_eq. intros [[[a b] c] d] plate. reflexivity.
Qed.
End DefaultPlateOverTheReals.

Section GroundProperties.
Import DynamicsFitter.
Open Scope R_scope.

(** X22.  The ground height of a trial (steps 1.1 and 1.2 of
    [estimateFootGroundContacts]), over the real numbers: when a force
    plate of the trial has corners, it is the height of the first corner
    of the first such plate and the later corners do not change it;
    otherwise it is the lowest height among the centers of pressure of all
    plates in all frames: no center of pressure is below it, and it is the
    height of one of them if there is any, [infinity] if there is
    none. *)
Theorem ground_height_of_a_trial (infinity : R) (plates : list (ForcePlate R))
    (frames : nat) :
  let groundHeight := fst (estimateGroundHeight infinity plates frames) in
  let heights :=
    flat_map (fun k => map (fun plate => at_ (nth k (centersOfPressure plate) []) 1) plates)
             (seq 0 frames) in
  (forall corner rest,
     flat_map (@corners R) plates = corner :: rest -> groundHeight = at_ corner 1)
  /\ (flat_map (@corners R) plates = [] ->
      (forall h, In h heights -> groundHeight <= h)
      /\ (heights <> [] -> In groundHeight heights)
      /\ (heights = [] -> groundHeight = infinity)).
Proof.
  cbv zeta. split.
  - intros corner rest E. apply (estimateGroundHeight_of_corners infinity plates frames _ _ E).
  - intros E. rewrite (estimateGroundHeight_of_pressure infinity plates frames E).
    cbn [fst].
    destruct (lower_fresh
                (flat_map (fun k => map (fun plate => at_ (nth k (centersOfPressure plate) []) 1)
                                        plates) (seq 0 frames)) infinity)
      as [Hempty [Hlow Hin]].
    cbv zeta in *. split; [exact Hlow|]. split.
    + intros Hne. apply Hin. exact Hne.
    + intros Hnil. rewrite (Hempty Hnil). reflexivity.
Qed.

Lemma ground_height_of_a_trial_witness :
  fst (estimateGroundHeight 100 [@stepping_plate R _] 2) = at_ (map IZR [-1; 0; -1]%Z) 1
  /\ In (fst (estimateGroundHeight 100 [@bare_plate R _] 2))
        (flat_map
           (fun k => map (fun plate => at_ (nth k (centersOfPressure plate) []) 1)
                         [@bare_plate R _])
           (seq 0 2)).
Proof.
  split.
  - apply (proj1 (ground_height_of_a_trial 100 [stepping_plate] 2)
             (map IZR [-1; 0; -1]%Z)
             (map (map IZR) [[-1; 0; 1]; [1; 0; 1]; [1; 0; -1]]%Z)).
    reflexivity.
  - apply (proj2 (ground_height_of_a_trial 100 [bare_plate] 2)).
    + reflexivity.
    + discriminate.
Defined.

(** X23.  The default force plate of a trial (step 3), over the real
    numbers: when every plate of the trial has corners there is none;
    when a plate lacks corners it is a rectangle of four corners at the
    ground height that contains the center of pressure of every plate in
    every frame (the code pads the bounding box of the centers of pressure
    by 0.1 on each side; rounding can eat into the padding but not into
    the box). *)
Theorem default_plate_covers_the_pressure (infinity : R) (plates : list (ForcePlate R))
    (frames : nat) (groundHeight : R) :
  let needed := existsb (fun plate => (length (corners plate) =? 0)%nat) plates in
  let plate := defaultForcePlate infinity plates frames groundHeight in
  (needed = false -> plate = [])
  /\ (needed = true ->
      exists minX maxX minZ maxZ,
        plate = [[minX; groundHeight; minZ]; [minX; groundHeight; maxZ];
                 [maxX; groundHeight; maxZ]; [maxX; groundHeight; minZ]]
        /\ forall k forcePlate,
             (k < frames)%nat -> In forcePlate plates ->
             let cop := nth k (centersOfPressure forcePlate) [] in
             minX <= at_ cop 0 <= maxX /\ minZ <= at_ cop 2 <= maxZ).
Proof.
  cbv zeta. split.
  - intros Hnone. unfold defaultForcePlate. rewrite Hnone. reflexivity.
  - intros Hneed. rewrite (defaultForcePlate_box infinity plates frames groundHeight Hneed).
    destruct (box_fold
                (flat_map (fun k => map (fun plate => nth k (centersOfPressure plate) [])
                                        plates) (seq 0 frames))
                (infinity, - infinity, infinity, - infinity)) as [_ Hcov].
    destruct (fold_left box_step _ _) as [[[minX maxX] minZ] maxZ].
    exists (minX - 10 / 100), (maxX + 10 / 100), (minZ - 10 / 100), (maxZ + 10 / 100).
    split; [reflexivity|].
    intros k forcePlate Hk Hin.
    assert (Hc : box_covers (minX, maxX, minZ, maxZ) (nth k (centersOfPressure forcePlate) [])).
    { apply Hcov. apply in_flat_map. exists k. split; [apply in_seq; lia|].
      apply in_map_iff. exists forcePlate. split; [reflexivity|exact Hin]. }
    unfold box_covers in Hc. lra.
Qed.

Lemma default_plate_covers_the_pressure_witness :
  defaultForcePlate 100 [@stepping_plate R _] 2 0 = []
  /\ exists minX maxX minZ maxZ,
       defaultForcePlate 100 [@bare_plate R _] 2 0
       = [[minX; 0; minZ]; [minX; 0; maxZ]; [maxX; 0; maxZ]; [maxX; 0; minZ]]
       /\ forall k forcePlate,
            (k < 2)%nat -> In forcePlate [@bare_plate R _] ->
            let cop := nth k (centersOfPressure forcePlate) [] in
            minX <= at_ cop 0 <= maxX /\ minZ <= at_ cop 2 <= maxZ.
Proof.
  split.
  - apply (proj1 (default_plate_covers_the_pressure 100 [stepping_plate] 2 0)).
    reflexivity.
  - apply (proj2 (default_plate_covers_the_pressure 100 [bare_plate] 2 0)).
    reflexivity.
Defined.
End GroundProperties.

(** ** The contact spheres *)

Section SphereFacts.
Import DynamicsFitter.
Open Scope R_scope.

Lemma for_each_result {A B : Type} (Q : B -> Prop) (l : list A)
    (body : B -> A -> SkelM R B) :
  (forall b a sk, Q b -> Q (fst (body b a sk))) ->
  forall (acc : B) (sk : Skeleton R), Q acc -> Q (fst (for_each l acc body sk)).
Proof.
  intros Hbody. induction l as [|a l IH]; intros acc sk HQ; cbn [for_each].
  - exact HQ.
  - unfold bind. specialize (Hbody acc a sk HQ).
    destruct (body acc a sk) as [b sk1]. apply IH. exact Hbody.
Qed.

Lemma set_nth_Forall {A : Type} (P : A -> Prop) (l : list A) (i : nat) (a : A) :
  Forall P l -> P a -> Forall P (set_nth i a l).
Proof.
  intros Hl Ha. revert i. induction Hl as [|x l Hx Hl IH]; intros i.
  - destruct i; constructor.
  - destruct i; cbn [set_nth]; constructor; auto.
Qed.

Lemma set_nth_Forall2 {A B : Type} (P : A -> B -> Prop) (l : list A) (l' : list B)
    (i : nat) (a : A) :
  Forall2 P l l' ->
  (forall y, nth_error l' i = Some y -> P a y) ->
  Forall2 P (set_nth i a l) l'.
Proof.
  intros Hl. revert i. induction Hl as [|x y l l' Hxy Hl IH]; intros i Ha.
  - destruct i; constructor.
  - destruct i; cbn [set_nth]; constructor; auto.
Qed.

Lemma Forall2_nth_error {A B : Type} (P : A -> B -> Prop) (l : list A) (l' : list B)
    (i : nat) (d : A) (y : B) :
  Forall2 P l l' -> nth_error l' i = Some y -> P (nth i l d) y.
Proof.
  intros Hl. revert i. induction Hl as [|x y0 l l' Hxy Hl IH]; intros i Hi.
  - destruct i; discriminate.
  - destruct i; cbn in *.
    + injection Hi as <-. exact Hxy.
    + apply IH. exact Hi.
Qed.

Lemma at_nonneg (radii : list R) (c : nat) :
  Forall (fun r => 0 <= r) radii -> 0 <= at_ radii c.
Proof.
  intros Hr. unfold at_. revert c. induction Hr as [|r radii H0 Hr IH]; intros c.
  - destruct c; cbn; lra.
  - destruct c; cbn; [exact H0|apply IH].
Qed.

Lemma growContactSpheres_sound `{Collaborators R} (infinity : R)
    (init : DynamicsInitialization R) (trial : nat) (groundHeight : R) (sk : Skeleton R) :
  Forall2 sound (fst (growContactSpheres infinity init trial groundHeight sk))
          (contactBodies init).
Proof.
  unfold growContactSpheres. cbv zeta.
  apply (for_each_result (fun sizes => Forall2 sound sizes (contactBodies init))).
  - intros sizes k sk1 Hsizes. unfold bind at 1. unfold modify at 1. cbn [fst snd].
    apply (for_each_result (fun sizes => Forall2 sound sizes (contactBodies init)));
      [|exact Hsizes].
    intros sizes' b sk2 Hsizes'.
    destruct (footActive _ b); [|exact Hsizes'].
    unfold bind at 1.
    destruct (for_each _ _ _ sk2) as [[dist closest] sk3]. cbn [fst snd].
    destruct closest as [closestBody|]; [|exact Hsizes'].
    unfold s_gtb. cbn [s_ltb R_Scalar]. unfold R_ltb.
    destruct (Rlt_dec _ dist) as [Hgrow|_]; [|exact Hsizes'].
    unfold ret. cbn [fst].
    apply set_nth_Forall2; [exact Hsizes'|].
    intros bodies Hbodies.
    pose proof (Forall2_nth_error sound sizes' (contactBodies init) b [] bodies
                  Hsizes' Hbodies) as [Hlen Hpos].
    split.
    + rewrite set_nth_length. exact Hlen.
    + apply set_nth_Forall; [exact Hpos|].
      pose proof (at_nonneg (nth b sizes' []) closestBody Hpos). lra.
  - induction (contactBodies init) as [|bodies l IH]; cbn [map]; constructor; [|exact IH].
    split; [apply length_map|].
    induction bodies; cbn [map]; constructor; [cbn; lra|assumption].
Qed.
End SphereFacts.

Section SphereProperties.
Import DynamicsFitter.
Open Scope R_scope.

(** X24.  The contact spheres that a trial of [estimateFootGroundContacts]
    records, over the real numbers: every ground-reaction body gets one
    radius per contact body, and no radius is negative (a sphere starts at
    0 and is only ever replaced by a larger radius). *)
Theorem contact_spheres_are_sound `{Collaborators R} (infinity : R)
    (init : DynamicsInitialization R) (trial : nat) (sk : Skeleton R) :
  Forall2 (fun radii bodies =>
             length radii = length bodies /\ Forall (fun r => 0 <= r) radii)
    (last (grfBodyContactSphereRadius
             (fst (estimateFootGroundContacts_trial infinity init trial sk))) [])
    (contactBodies init).
Proof.
  rewrite estimateFootGroundContacts_trial_run.
  cbn [record_trial grfBodyContactSphereRadius]. rewrite last_last.
  apply (growContactSpheres_sound infinity init trial
           (trial_groundHeight infinity init trial) sk).
Qed.
End SphereProperties.

(** ** The constraints read the entries of [x] that the sparse Jacobian names *)

Section LinearConstraints.
Context {s_t : Type} `{Scalar s_t}.
Import DynamicsFitProblem.

Lemma RowValues_app (x : Vec s_t) (d r0 r1 r2 : nat) (l l' : list (nat * nat * s_t))
    (vs vs' : list s_t) :
  RowValues x d r0 l vs r1 -> RowValues x d r1 l' vs' r2 ->
  RowValues x d r0 (l ++ l') (vs ++ vs') r2.
Proof.
  induction 1 as [r | r a b dt l vs r' Hl IH]; intros Hl'; cbn [app].
  - exact Hl'.
  - apply RowValues_row. apply IH. exact Hl'.
Qed.

Lemma RowValues_one (x : Vec s_t) (d r a b c : nat) (dt v : s_t) :
  c = (a + d) ->
  v = (at_ x c * dt - (at_ x b - at_ x a))%s ->
  RowValues x d r [(r, a, s_of_Z 1); (r, b, s_of_Z (-1)); (r, c, dt)] [v] (r + 1).
Proof.
  intros -> ->. apply RowValues_row.
  replace (r + 1) with (S r) by lia. apply RowValues_nil.
Qed.

(** In such a list the triples of a row are the three of its group, and
    the row's value is computed from the entries of [x] in their columns. *)
Lemma RowValues_rows (x : Vec s_t) (d r r' : nat) (l : list (nat * nat * s_t))
    (vs : list s_t) :
  RowValues x d r l vs r' ->
  r <= r' /\ length vs = r' - r
  /\ (forall k, k < r -> row_triples k l = [])
  /\ forall k, r <= k < r' ->
       exists a b dt,
         row_triples k l = [(k, a, s_of_Z 1); (k, b, s_of_Z (-1)); (k, a + d, dt)]
         /\ nth (k - r) vs s_zero = (at_ x (a + d) * dt - (at_ x b - at_ x a))%s.
Proof.
  unfold row_triples.
  induction 1 as [r | r a b dt l vs r' Hl (Hle & Hlen & Hbelow & Hrows)].
  - split; [lia|]. split; [cbn; lia|]. split; [reflexivity|]. intros k Hk. lia.
  - split; [lia|]. split; [cbn [length]; lia|]. split.
    + intros k Hk. cbn [filter fst snd].
      replace (r =? k) with false by (symmetry; apply Nat.eqb_neq; lia).
      apply Hbelow. lia.
    + intros k Hk. cbn [filter fst snd].
      destruct (Nat.eq_dec k r) as [->|Hne].
      * rewrite Nat.eqb_refl, Nat.sub_diag, (Hbelow r) by lia. cbn [nth].
        exists a, b, dt. split; reflexivity.
      * replace (r =? k) with false by (symmetry; apply Nat.eqb_neq; lia).
        destruct (Hrows k) as (a' & b' & dt' & E & Ev); [lia|].
        exists a', b', dt'. split; [exact E|].
        replace (k - r) with (S (k - S r)) by lia. cbn [nth]. exact Ev.
Qed.

(** A loop that adds one row and one value per round. *)
Lemma values_loop (x : Vec s_t) (d : nat)
    (step : list (nat * nat * s_t) * nat -> nat -> list (nat * nat * s_t) * nat)
    (val : nat -> s_t) (n : nat) :
  (forall result r i,
     (i < n) ->
     exists l, step (result, r) i = (result ++ l, (r + 1))
               /\ RowValues x d r l [val i] (r + 1)) ->
  forall result r,
  exists l,
    fold_left step (seq 0 n) (result, r) = (result ++ l, (r + n))
    /\ RowValues x d r l (map val (seq 0 n)) (r + n).
Proof.
  intros Hstep result r. induction n as [|n IH].
  - exists []. cbn. rewrite app_nil_r, Nat.add_0_r. split; [reflexivity|constructor].
  - destruct IH as (l & E & Hl); [intros res r0 i Hi; apply Hstep; lia|].
    rewrite fold_left_seq_S, E.
    destruct (Hstep (result ++ l) (r + n) n) as (l' & E' & Hl'); [lia|].
    exists (l ++ l'). rewrite E', <- app_assoc.
    replace (r + S n) with (r + n + 1) by lia.
    split; [reflexivity|].
    rewrite seq_S, map_app. cbn [plus map].
    eapply RowValues_app; eauto.
Qed.

Lemma coeff_at (m : Matrix s_t) (i t : nat) : coeff m i t = at_ (col m t) i.
Proof. reflexivity. Qed.

(** The entries of [x] that the frames of a trial hold. *)
Lemma trial_holds_coeffs (x : Vec s_t) (d c : nat) (P V A : Matrix s_t) :
  trial_holds x d c P V A ->
  (forall t i, (t <= cols A) -> (i < d) ->
     coeff P i t = at_ x (c + t * (d * 3) + i)
     /\ coeff V i t = at_ x (c + t * (d * 3) + d + i))
  /\ (forall t i, (t < cols A) -> (i < d) ->
        coeff A i t = at_ x (c + t * (d * 3) + d * 2 + i))
  /\ (forall i, (i < d) ->
        coeff P i (cols A + 1) = at_ x (c + cols A * (d * 3) + d * 2 + i)).
Proof.
  intros (HcP & HcV & Hin & HPn & HVn & HPn1).
  split; [|split].
  - intros t i Ht Hi. rewrite !coeff_at.
    destruct (Nat.eq_dec t (cols A)) as [->|Hne].
    + rewrite HPn, HVn, !at_segment by exact Hi.
      split; f_equal; lia.
    + destruct (Hin t) as (E1 & E2 & _); [lia|].
      rewrite E1, E2, !at_segment by exact Hi.
      split; f_equal; lia.
  - intros t i Ht Hi. rewrite coeff_at.
    destruct (Hin t) as (_ & _ & E3); [lia|].
    rewrite E3, at_segment by exact Hi. f_equal; lia.
  - intros i Hi. rewrite coeff_at, HPn1, at_segment by exact Hi. f_equal; lia.
Qed.

Lemma sparse_frame_values (x : Vec s_t) (d : nat) (dt : s_t) (P V A : Matrix s_t)
    (result : list (nat * nat * s_t)) (r c t : nat) :
  (forall i, (i < d) ->
     coeff P i t = at_ x (c + i)
     /\ coeff V i t = at_ x (c + d + i)
     /\ coeff A i t = at_ x (c + d * 2 + i)
     /\ coeff P i (t + 1) = at_ x (c + d * 3 + i)
     /\ coeff V i (t + 1) = at_ x (c + d * 3 + d + i)) ->
  exists l,
    sparse_frame d dt (result, r, c) t = (result ++ l, (r + d + d), (c + d * 3))
    /\ RowValues x d r l
         (map (fun i => (coeff V i t * dt - (coeff P i (t + 1) - coeff P i t))%s) (seq 0 d)
          ++ map (fun i => (coeff A i t * dt - (coeff V i (t + 1) - coeff V i t))%s) (seq 0 d))
         (r + d + d).
Proof.
  intros Hx. unfold sparse_frame.
  destruct (values_loop x d (sparse_q_row d dt c)
              (fun i => (coeff V i t * dt - (coeff P i (t + 1) - coeff P i t))%s) d)
    with (result := result) (r := r) as (l1 & E1 & H1).
  { intros res r' i Hi. eexists. split; [reflexivity|].
    destruct (Hx i Hi) as (EP & EV & _ & EP1 & _).
    apply RowValues_one; [lia|]. rewrite EP, EV, EP1. reflexivity. }
  rewrite E1.
  destruct (values_loop x d (sparse_dq_row d dt c)
              (fun i => (coeff A i t * dt - (coeff V i (t + 1) - coeff V i t))%s) d)
    with (result := result ++ l1) (r := (r + d)) as (l2 & E2 & H2).
  { intros res r' i Hi. eexists. split; [reflexivity|].
    destruct (Hx i Hi) as (_ & EV & EA & _ & EV1).
    apply RowValues_one; [lia|]. rewrite EV, EA, EV1. reflexivity. }
  rewrite E2. exists (l1 ++ l2). rewrite app_assoc. split; [reflexivity|].
  eapply RowValues_app; eauto.
Qed.

Lemma sparse_frames_values (x : Vec s_t) (d : nat) (dt : s_t) (P V A : Matrix s_t) (c0 : nat) :
  trial_holds x d c0 P V A ->
  forall n, (n <= cols A) ->
  forall (result : list (nat * nat * s_t)) (r : nat),
  exists l,
    fold_left (sparse_frame d dt) (seq 0 n) (result, r, c0)
    = (result ++ l, (r + n * (d + d)), (c0 + n * (d * 3)))
    /\ RowValues x d r l
         (flat_map
            (fun t =>
               map (fun i => (coeff V i t * dt - (coeff P i (t + 1) - coeff P i t))%s) (seq 0 d)
               ++ map (fun i => (coeff A i t * dt - (coeff V i (t + 1) - coeff V i t))%s)
                      (seq 0 d))
            (seq 0 n))
         (r + n * (d + d)).
Proof.
  intros Hh. destruct (trial_holds_coeffs x d c0 P V A Hh) as (HPV & HA & _).
  induction n as [|n IH]; intros Hn result r.
  - exists []. cbn. rewrite app_nil_r, !Nat.add_0_r. split; [reflexivity|constructor].
  - destruct (IH ltac:(lia) result r) as (l & E & Hl).
    rewrite fold_left_seq_S, E.
    destruct (sparse_frame_values x d dt P V A (result ++ l)
                (r + n * (d + d)) (c0 + n * (d * 3)) n) as (l' & E' & Hl').
    { intros i Hi.
      destruct (HPV n i ltac:(lia) Hi) as [EP EV].
      destruct (HPV (n + 1) i ltac:(lia) Hi) as [EP1 EV1].
      rewrite EP, EV, EP1, EV1, (HA n i) by lia.
      repeat split; f_equal; lia. }
    exists (l ++ l'). rewrite E', <- app_assoc.
    split; [f_equal; [f_equal|]; lia|].
    rewrite flat_map_seq_S.
    eapply RowValues_app; [exact Hl|].
    replace (r + S n * (d + d)) with (r + n * (d + d) + d + d) by lia. exact Hl'.
Qed.

Lemma sparse_trial_values (x : Vec s_t) (d : nat) (dt : s_t) (P V A : Matrix s_t)
    (result : list (nat * nat * s_t)) (r c : nat) :
  trial_holds x d c P V A ->
  exists l,
    sparse_trial d dt A (result, r, c)
    = (result ++ l, (r + (cols A * d * 2 + d)), (c + trial_size d A))
    /\ RowValues x d r l (constraint_rows_trial d dt P V A) (r + (cols A * d * 2 + d)).
Proof.
  intros Hh. unfold sparse_trial.
  destruct (sparse_frames_values x d dt P V A c Hh (cols A) (le_n _) result r)
    as (l & E & Hl).
  rewrite E.
  destruct (trial_holds_coeffs x d c P V A Hh) as (HPV & _ & HP1).
  set (last := fun i : nat =>
                 (coeff V i (cols A) * dt
                  - (coeff P i (cols A + 1) - coeff P i (cols A)))%s).
  destruct (values_loop x d (sparse_last_row d dt (c + cols A * (d * 3))) last d)
    with (result := result ++ l) (r := (r + cols A * (d + d)))
    as (l' & E' & Hl').
  { intros res r' i Hi. eexists. split; [reflexivity|].
    destruct (HPV (cols A) i (le_n _) Hi) as [EP EV].
    apply RowValues_one; [lia|]. unfold last.
    rewrite EP, EV, (HP1 i Hi). reflexivity. }
  rewrite E'. exists (l ++ l'). rewrite <- app_assoc.
  split; [unfold trial_size; f_equal; [f_equal|]; lia|].
  unfold constraint_rows_trial. cbv zeta.
  replace (Z.to_nat (Z.of_nat (cols A) - 1 + 2)) with (cols A + 1) by lia.
  replace (Z.to_nat (Z.of_nat (cols A) - 1 + 1)) with (cols A) by lia.
  eapply RowValues_app; [exact Hl|].
  replace (r + (cols A * d * 2 + d)) with (r + cols A * (d + d) + d) by lia.
  exact Hl'.
Qed.

Lemma sparse_trials_values (x : Vec s_t) (d : nat) (dts : list s_t)
    (P V A : list (Matrix s_t)) (c0 : nat) (n : nat) :
  (forall k, (k < n) ->
     trial_holds x d (c0 + trials_offset d A k) (nth k P []) (nth k V []) (nth k A [])) ->
  exists l,
    fold_left (sparse_trial_at d dts A) (seq 0 n) ([], 0, c0)
    = (l, rows_upto d A n, (c0 + trials_offset d A n))
    /\ RowValues x d 0 l
         (flat_map
            (fun trial =>
               constraint_rows_trial d (nth trial dts s_zero) (nth trial P []) (nth trial V [])
                 (nth trial A []))
            (seq 0 n))
         (rows_upto d A n).
Proof.
  induction n as [|n IH]; intros Hh.
  - exists []. cbn. rewrite Nat.add_0_r. split; [reflexivity|constructor].
  - destruct IH as (l & E & Hl); [intros k Hk; apply Hh; lia|].
    rewrite fold_left_seq_S, E. unfold sparse_trial_at.
    destruct (sparse_trial_values x d (nth n dts s_zero) (nth n P []) (nth n V []) (nth n A [])
                l (rows_upto d A n) (c0 + trials_offset d A n) (Hh n (Nat.lt_succ_diag_r n)))
      as (l' & E' & Hl').
    rewrite E'. eexists. split; [cbn [trials_offset rows_upto]; f_equal; lia|].
    rewrite flat_map_seq_S. cbn [rows_upto].
    eapply RowValues_app; eauto.
Qed.
End LinearConstraints.

Section LinearConstraintsProperty.
Import DynamicsFitProblem.

(** X25.  The sparse Jacobian names the entries of [x] that the
    constraints are computed from: after [unflatten(x)] has decoded a
    vector that is not the memoised one into a problem that includes the
    poses, the triples of every constraint row [k] are [+1] on a column
    [a], [-1] on a column [b] and [dt] on the column [a + dofs], and the
    constraint value [computeConstraints] evaluates for the row is
    [x(a + dofs) * dt - (x(b) - x(a))], in the scalar arithmetic of the
    code. *)
Theorem constraints_read_the_jacobian_columns
    {s_t : Type} `{Scalar s_t} (p : t s_t) (sk : Skeleton s_t) (x : Vec s_t) :
  trial_shapes_ok p = true ->
  sameAsLastX p x = false ->
  mIncludePoses p = true ->
  let st := unflatten (p, sk) x in
  let rows := constraint_rows (fst st) (snd st) in
  let J := computeSparseConstraintsJacobian (fst st) (snd st) in
  forall k, k < length rows ->
    exists a b dt,
      row_triples k J
      = [(k, a, s_of_Z 1); (k, b, s_of_Z (-1)); (k, a + getNumDofs sk, dt)]
      /\ nth k rows s_zero = (at_ x (a + getNumDofs sk) * dt - (at_ x b - at_ x a))%s.
Proof.
  intros Hshape Hguard Hposes. cbv zeta.
  destruct (unflatten_blocks p sk x Hshape Hguard)
    as (M' & P' & V' & A' & E & LM & _ & LP & HcA & Hh).
  cbv zeta in E, Hh. rewrite Hposes in Hh.
  destruct (unflatten_frame_of_problem p sk x) as (_ & _ & _ & LA).
  destruct (trial_shapes_ok_spec p Hshape) as (_ & LA0 & _).
  unfold unflatten in *. rewrite E in *. cbn [fst snd] in *.
  unfold constraint_rows, computeSparseConstraintsJacobian.
  destruct p; cbn [with_state mAccs mPoses mVels mInit mMarkers mIncludePoses
                     mIncludeMasses mIncludeCOMs mIncludeInertias mIncludeBodyScales
                     mIncludeMarkerOffsets getNumDofs getNumScaleGroups getGroupScaleDim] in *.
  subst. rewrite LM.
  match goal with
  | |- context [fold_left _ _ ([], 0, ?c)] => set (c5 := c)
  end.
  match type of Hh with
  | forall k, _ -> trial_holds _ ?d (?c + _) _ _ _ =>
      replace c with c5 in Hh
        by (subst c5; unfold block_size;
            repeat match goal with |- context [if ?b then _ else _] => destruct b end; lia)
  end.
  match goal with
  | |- context [fold_left (sparse_trial_at ?d ?dts A') (seq 0 ?n) _] =>
      destruct (sparse_trials_values x d dts P' V' A' c5 n) as (l & El & Hl)
  end.
  { intros k Hk.
    rewrite (trials_offset_ext _ _ A' k HcA).
    apply Hh. lia. }
  intros k Hk.
  rewrite El. cbn [fst].
  destruct (RowValues_rows _ _ _ _ _ _ Hl) as (_ & Hlen & _ & Hrows).
  rewrite Nat.sub_0_r in Hlen.
  destruct (Hrows k) as (a & b & dt & Et & Ev).
  - split; [apply Nat.le_0_l|]. rewrite <- Hlen. exact Hk.
  - exists a, b, dt. split; [exact Et|]. rewrite Nat.sub_0_r in Ev. exact Ev.
Qed.

Lemma constraints_read_the_jacobian_columns_witness :
  let st := unflatten (roundtrip_problem, roundtrip_skeleton) roundtrip_x in
  let rows := constraint_rows (fst st) (snd st) in
  let J := computeSparseConstraintsJacobian (fst st) (snd st) in
  length rows = 6
  /\ forall k, k < length rows ->
       exists a b dt,
         row_triples k J
         = [(k, a, s_of_Z 1); (k, b, s_of_Z (-1)); (k, a + 2, dt)]
         /\ nth k rows s_zero
            = (at_ roundtrip_x (a + 2) * dt - (at_ roundtrip_x b - at_ roundtrip_x a))%s.
Proof.
  cbv zeta. split; [vm_compute; reflexivity|].
  apply (constraints_read_the_jacobian_columns roundtrip_problem roundtrip_skeleton
           roundtrip_x); vm_compute; reflexivity.
Defined.
End LinearConstraintsProperty.
